(** * EcoLogiTrack: the route construction engine

    A shallow embedding of the two route builders of the repository and of
    the distance code they rest on:

    - [src/optimization/route_optimizer.py]: [haversine_distance],
      [create_distance_matrix], [simple_vrp];
    - [src/backend/app.py]: [haversine_distance], [create_distance_matrix],
      [greedy_route_optimization].

    Modelling choices.
    - Python [float]s are the real numbers of [Reals]: [math.sin],
      [math.cos], [math.sqrt], [math.atan2] and [math.radians] are the real
      functions, [round(x, 2)] is rounding to the nearest hundredth, ties to
      even.  Coordinates of the static tables are the decimal literals of
      the source, kept as rationals and injected into the reals.
    - The construction pass only adds and compares distances, so it is
      written once over a type of distances with the operations it uses
      ([Dist]); the programs instantiate it with the reals, the executable
      examples with integers (hundredths of a kilometre).
    - Location indices are [nat]; demands, loads, the capacity and the
      vehicle count are Python [int]s, that is [Z].
    - Exceptions are a result type: [ValueError] for the two explicit
      [raise]s, [IndexError] for a list subscript out of range.
    - The [while] loop runs on fuel; the theorems show how much is enough. *)

From Stdlib Require Import ZArith List String Ascii Bool Lia QArith Reals Lra Qreals.
From stdpp Require Import base option list strings gmap.
Import ListNotations.

Local Open Scope string_scope.
Local Open Scope list_scope.
Local Open Scope Z_scope.

(** ** Exceptions *)

Inductive exn : Type :=
| ValueError (msg : string)
| IndexError.

Inductive result (A : Type) : Type :=
| Ok (a : A)
| Raise (e : exn).
Arguments Ok {A} a.
Arguments Raise {A} e.

Definition bind {A B} (m : result A) (f : A -> result B) : result B :=
  match m with
  | Ok a => f a
  | Raise e => Raise e
  end.

Notation "x <- m ;; k" := (bind m (fun x => k))
  (at level 100, m at next level, right associativity).

(** [l[i]] for a non-negative [i]. *)
Definition subscript {A} (l : list A) (i : nat) : result A :=
  match l !! i with
  | Some x => Ok x
  | None => Raise IndexError
  end.

(** [l[-k]] for [k >= 1]: the [k]-th element from the end. *)
Definition subscript_neg {A} (l : list A) (k : nat) : result A :=
  if (1 <=? k)%nat && (k <=? length l)%nat
  then subscript l (length l - k)
  else Raise IndexError.

(** [l[i] = x]: a list assignment raises out of range, it never extends. *)
Definition assign {A} (l : list A) (i : nat) (x : A) : result (list A) :=
  if (i <? length l)%nat then Ok (<[i := x]> l) else Raise IndexError.

(** [for x in l: f x], collecting the results. *)
Fixpoint for_each {A B} (f : A -> result B) (l : list A) : result (list B) :=
  match l with
  | [] => Ok []
  | x :: l' => y <- f x ;; ys <- for_each f l' ;; Ok (y :: ys)
  end.

(** ** Loops *)

Inductive ctl : Type := Continue | Break.

(** [while cond: body], on fuel.  The answer is [None] when the fuel runs
    out, and otherwise the number of times the body was entered together
    with the state the loop was left in, or the exception that ended it. *)
Fixpoint while {St : Type} (cond : St -> bool)
    (body : St -> result (ctl * St)) (fuel : nat) (s : St)
  : option (nat * result St) :=
  match fuel with
  | O => None
  | S fuel' =>
      if cond s then
        match body s with
        | Raise e => Some (1%nat, Raise e)
        | Ok (Break, s') => Some (1%nat, Ok s')
        | Ok (Continue, s') =>
            match while cond body fuel' s' with
            | Some (k, r) => Some (S k, r)
            | None => None
            end
        end
      else Some (0%nat, Ok s)
  end.

(** ** Strings *)

(** [str.lower] on the ASCII identifiers the tables are keyed by. *)
Definition lower_ascii (c : ascii) : ascii :=
  let k := nat_of_ascii c in
  if (65 <=? k)%nat && (k <=? 90)%nat then ascii_of_nat (k + 32) else c.

Fixpoint lower (s : string) : string :=
  match s with
  | EmptyString => EmptyString
  | String c s' => String (lower_ascii c) (lower s')
  end.

(** ** The distance oracle over the reals *)

Module Oracle.
Local Open Scope R_scope.

(** [math.radians]. *)
Definition radians (x : R) : R := x * (PI / 180).

(** [math.atan2 y x]. *)
Definition atan2 (y x : R) : R :=
  if Rlt_dec 0 x then atan (y / x)
  else if Rlt_dec x 0 then
         (if Rlt_dec y 0 then atan (y / x) - PI else atan (y / x) + PI)
  else if Rlt_dec 0 y then PI / 2
  else if Rlt_dec y 0 then - (PI / 2)
  else 0.

(** The radicand [a] of the haversine formula. *)
Definition haversine_a (lat1 lon1 lat2 lon2 : R) : R :=
  let lat1_rad := radians lat1 in
  let lat2_rad := radians lat2 in
  let delta_lat := radians (lat2 - lat1) in
  let delta_lon := radians (lon2 - lon1) in
  sin (delta_lat / 2) ^ 2
  + cos lat1_rad * cos lat2_rad * sin (delta_lon / 2) ^ 2.

(** [haversine_distance] (the same text in both files).  [math.sqrt] raises
    on a negative argument; [haversine_a_range] below shows that neither
    radicand is ever negative, so the square roots are the total ones. *)
Definition haversine_distance (lat1 lon1 lat2 lon2 : R) : R :=
  let R_ := 6371 in
  let a := haversine_a lat1 lon1 lat2 lon2 in
  let c := 2 * atan2 (sqrt a) (sqrt (1 - a)) in
  R_ * c.

(** [round(x, 0)] as an integer: nearest, ties to even. *)
Definition round_half_even (x : R) : Z :=
  let f := Int_part x in
  let r := frac_part x in
  if Rlt_dec r (1 / 2) then f
  else if Rlt_dec (1 / 2) r then (f + 1)%Z
  else if Z.even f then f else (f + 1)%Z.

(** [round(x, 2)]. *)
Definition round2 (x : R) : R := IZR (round_half_even (x * 100)) / 100.

End Oracle.


(** ** Distances as the construction pass uses them *)

Class Dist (D : Type) : Type := {
  d_zero : D;                 (* the literal [0] *)
  d_add : D -> D -> D;        (* [+] *)
  d_ltb : D -> D -> bool;     (* [<] *)
  d_round2 : D -> D           (* [round(., 2)] *)
}.

(** The programs: floats. *)
#[global] Instance Dist_R : Dist R := {
  d_zero := 0%R;
  d_add := Rplus;
  d_ltb := fun x y => if Rlt_dec x y then true else false;
  d_round2 := Oracle.round2
}.

(** The examples: whole hundredths of a kilometre. *)
#[global] Instance Dist_Z : Dist Z := {
  d_zero := 0;
  d_add := Z.add;
  d_ltb := Z.ltb;
  d_round2 := fun x => x
}.

(** The order laws of [<] on numbers that are not NaN. *)
Class DistOrder (D : Type) `{Dist D} : Prop := {
  d_ltb_asym : forall x y : D, d_ltb x y = true -> d_ltb y x = false;
  d_ltb_cotrans : forall x y z : D,
      d_ltb x y = true -> d_ltb x z = true \/ d_ltb z y = true
}.

(** ** The candidate scan

    The inner [for i in range(1, n)] loop, the same in both builders.
    The pair [(best_location, best_distance)] starts as
    [(None, float('inf'))] and is then always [(i, matrix[cur][i])] for
    some [i]; it is the [option] below.  Matrix entries are finite, so the
    first comparison [dist < float('inf')] is true. *)

Section Scan.
Context {D : Type} `{Dist D}.
Variable distance_matrix : list (list D).
Variable demands : list Z.
Variable capacity : Z.
Variable visited : list bool.
Variable load_ : Z.
Variable current_location : nat.

Definition scan_step (best : option (nat * D)) (i : nat)
  : result (option (nat * D)) :=
  v <- subscript visited i ;;
  if v then Ok best
  else
    demand <- subscript demands i ;;
    if load_ + demand <=? capacity then
      row <- subscript distance_matrix current_location ;;
      dist <- subscript row i ;;
      match best with
      | None => Ok (Some (i, dist))
      | Some (_, best_distance) =>
          if d_ltb dist best_distance then Ok (Some (i, dist)) else Ok best
      end
    else Ok best.

Fixpoint scan (best : option (nat * D)) (indices : list nat)
  : result (option (nat * D)) :=
  match indices with
  | [] => Ok best
  | i :: rest => best' <- scan_step best i ;; scan best' rest
  end.

(** [for i in range(1, n)]. *)
Definition find_best (n : nat) : result (option (nat * D)) :=
  scan None (seq 1 (n - 1)).

End Scan.

(** ** The static tables and the matrix builders *)

(** A decimal literal of the source, as a real. *)
Definition lit (q : Q) : R := Q2R q.

(** *** [src/backend/app.py] *)

Module App.

(** [CITY_COORDINATES]: identifier to [(lat, lon)]. *)
Definition CITY_COORDINATES : gmap string (Q * Q) :=
  list_to_map
    [ ("ludhiana", (30.9010, 75.8573)%Q);
      ("jalandhar", (31.3260, 75.5762)%Q);
      ("amritsar", (31.6340, 74.8723)%Q);
      ("patiala", (30.3398, 76.3869)%Q);
      ("bathinda", (30.2110, 74.9455)%Q);
      ("mohali", (30.7046, 76.7179)%Q);
      ("hoshiarpur", (31.5330, 75.9120)%Q);
      ("depot", (30.9010, 75.8573)%Q) ].

(** [CITY_COORDINATES['depot']]. *)
Definition depot_coordinate : Q * Q := (30.9010, 75.8573)%Q.

(** [CITY_COORDINATES.get(loc, CITY_COORDINATES['depot'])]. *)
Definition resolve (loc : string) : Q * Q :=
  default depot_coordinate (CITY_COORDINATES !! loc).

(** The value stored at [matrix[i][j]] for [i != j]. *)
Definition entry (locations : list string) (i j : nat) : R :=
  let loc1 := lower (nth i locations "") in
  let loc2 := lower (nth j locations "") in
  let coord1 := resolve loc1 in
  let coord2 := resolve loc2 in
  let distance :=
    Oracle.haversine_distance (lit coord1.1) (lit coord1.2)
                              (lit coord2.1) (lit coord2.2) in
  Oracle.round2 distance.

(** [create_distance_matrix]: an [n] by [n] table of zeros, every
    off-diagonal cell then overwritten. *)
Definition create_distance_matrix (locations : list string) : list (list R) :=
  let n := length locations in
  map (fun i =>
         map (fun j => if (i =? j)%nat then 0%R else entry locations i j)
             (seq 0 n))
      (seq 0 n).

(** [greedy_route_optimization], over any distances. *)
Section Greedy.
Context {D : Type} `{Dist D}.

(** A route dictionary: keys ['stops'], ['load'], ['distance']. *)
Record route_t : Type := Route {
  stops : list nat;
  load : Z;
  distance : D
}.

(** The variables the [while] loop reads and writes. *)
Record state : Type := State {
  routes : list route_t;
  visited : list bool;
  current_vehicle : nat
}.

Variable distance_matrix : list (list D).
Variable n : nat.
Variable demands : list Z.
Variable num_vehicles : Z.
Variable capacity : Z.

(** [route['stops'].append(0)] and
    [route['distance'] += distance_matrix[route['stops'][-2]][0]]. *)
Definition return_to_depot (route : route_t) : result route_t :=
  let stops' := stops route ++ [0%nat] in
  prev <- subscript_neg stops' 2 ;;
  row <- subscript distance_matrix prev ;;
  back <- subscript row 0 ;;
  Ok (Route stops' (load route) (d_add (distance route) back)).

(** [not all(visited)]. *)
Definition unfinished (s : state) : bool := negb (forallb (fun b : bool => b) (visited s)).

(** One turn of the [while] loop. *)
Definition body (s : state) : result (ctl * state) :=
  route <- subscript (routes s) (current_vehicle s) ;;
  current_location <- subscript_neg (stops route) 1 ;;
  best <- find_best distance_matrix demands capacity (visited s)
                    (load route) current_location n ;;
  match best with
  | Some (best_location, best_distance) =>
      demand <- subscript demands best_location ;;
      visited' <- assign (visited s) best_location true ;;
      let route' := Route (stops route ++ [best_location])
                          (load route + demand)
                          (d_add (distance route) best_distance) in
      Ok (Continue,
          State (<[current_vehicle s := route']> (routes s)) visited'
                (current_vehicle s))
  | None =>
      route' <- return_to_depot route ;;
      let routes' := <[current_vehicle s := route']> (routes s) in
      let current_vehicle' := S (current_vehicle s) in
      if num_vehicles <=? Z.of_nat current_vehicle'
      then Ok (Break, State routes' (visited s) current_vehicle')
      else Ok (Continue, State routes' (visited s) current_vehicle')
  end.

(** The closing [for route in routes] loop. *)
Definition close_route (route : route_t) : result route_t :=
  last_stop <- subscript_neg (stops route) 1 ;;
  if negb (last_stop =? 0)%nat && (1 <? length (stops route))%nat
  then return_to_depot route
  else Ok route.

(** The state before the [while] loop. *)
Definition initial : result state :=
  let routes := map (fun _ => Route [0%nat] 0 d_zero)
                    (seq 0 (Z.to_nat num_vehicles)) in
  visited <- assign (replicate n false) 0 true ;;
  Ok (State routes visited 0).

(** The [while] loop from the initial state. *)
Definition construction (fuel : nat) : option (nat * result state) :=
  match initial with
  | Ok s => while unfinished body fuel s
  | Raise e => Some (0%nat, Raise e)
  end.

(** Everything after [create_distance_matrix]. *)
Definition optimize (fuel : nat) : option (result (list route_t)) :=
  match construction fuel with
  | Some (_, Ok s) => Some (for_each close_route (routes s))
  | Some (_, Raise e) => Some (Raise e)
  | None => None
  end.

End Greedy.

Arguments route_t D : clear implicits.
Arguments state D : clear implicits.

(** Fuel that is always enough (see [while_fuel] further down). *)
Definition enough_fuel (n : nat) (num_vehicles : Z) : nat :=
  n + Z.to_nat num_vehicles + 1.

(** [greedy_route_optimization] with the matrix builder as a parameter. *)
Definition greedy_route_optimization_over {D : Type} `{Dist D}
    (create_distance_matrix : list string -> list (list D))
    (locations : list string) (demands : list Z)
    (num_vehicles : Z) (capacity : Z) : option (result (list (route_t D))) :=
  let distance_matrix := create_distance_matrix locations in
  let n := length locations in
  optimize distance_matrix n demands num_vehicles capacity
           (enough_fuel n num_vehicles).

(** [greedy_route_optimization(locations, demands, num_vehicles, capacity)]. *)
Definition greedy_route_optimization :=
  greedy_route_optimization_over (D := R) create_distance_matrix.

(** [get_dynamic_price(base_price, demand_index, spoilage_risk, quality)]. *)
Definition QUALITY_MULTIPLIERS : gmap string Q :=
  list_to_map [ ("A+", 1.2%Q); ("A", 1.0%Q); ("B", 0.85%Q) ].

Definition get_dynamic_price (base_price demand_index spoilage_risk : R)
    (quality : string) : R :=
  let quality_multiplier := lit (default 1.0%Q (QUALITY_MULTIPLIERS !! quality)) in
  let dynamic_price :=
    (base_price * quality_multiplier
     * (1 + lit 0.15 * demand_index - lit 0.1 * spoilage_risk))%R in
  let dynamic_price := Rmax 40 (Rmin dynamic_price 80) in
  Oracle.round2 dynamic_price.

End App.

(** *** [src/optimization/route_optimizer.py] *)

Module Opt.

Record city : Type := City { lat : Q; lon : Q; name : string }.

(** [PUNJAB_CITIES]. *)
Definition PUNJAB_CITIES : gmap string city :=
  list_to_map
    [ ("ludhiana", City 30.9010 75.8573 "Ludhiana");
      ("jalandhar", City 31.3260 75.5762 "Jalandhar");
      ("amritsar", City 31.6340 74.8723 "Amritsar");
      ("patiala", City 30.3398 76.3869 "Patiala");
      ("bathinda", City 30.2110 74.9455 "Bathinda");
      ("mohali", City 30.7046 76.7179 "Mohali");
      ("hoshiarpur", City 31.5330 75.9120 "Hoshiarpur");
      ("firozpur", City 30.9257 74.6142 "Firozpur");
      ("moga", City 30.8158 75.1705 "Moga");
      ("kapurthala", City 31.3800 75.3800 "Kapurthala") ].

(** The value stored at [matrix[i][j]] for [i != j]. *)
Definition entry (cities : list string) (i j : nat) : R :=
  let city1 := lower (nth i cities "") in
  let city2 := lower (nth j cities "") in
  match PUNJAB_CITIES !! city1, PUNJAB_CITIES !! city2 with
  | Some coord1, Some coord2 =>
      let distance :=
        Oracle.haversine_distance (lit (lat coord1)) (lit (lon coord1))
                                  (lit (lat coord2)) (lit (lon coord2)) in
      Oracle.round2 distance
  | _, _ => 50%R
  end.

(** [create_distance_matrix]. *)
Definition create_distance_matrix (cities : list string) : list (list R) :=
  let n := length cities in
  map (fun i =>
         map (fun j => if (i =? j)%nat then 0%R else entry cities i j)
             (seq 0 n))
      (seq 0 n).

(** [simple_vrp], over any distances. *)
Section Vrp.
Context {D : Type} `{Dist D}.

(** A vehicle dictionary: keys ['vehicle_id'], ['route'], ['load'],
    ['distance'], ['cities']. *)
Record vehicle : Type := Vehicle {
  vehicle_id : Z;
  route : list nat;
  load : Z;
  distance : D;
  cities_ : list string
}.

(** The variables the [while] loop reads and writes. *)
Record state : Type := State {
  vehicles : list vehicle;
  visited : list bool;
  current_vehicle : nat
}.

(** The dictionary [simple_vrp] returns. *)
Record vrp_result : Type := VrpResult {
  res_vehicles : list vehicle;
  total_distance : D;
  res_distance_matrix : list (list D)
}.

Variable distance_matrix : list (list D).
Variable cities : list string.
Variable n : nat.
Variable demands : list Z.
Variable num_vehicles : Z.
Variable capacity : Z.

(** [vehicle['route'].append(0)], [vehicle['cities'].append('Depot')] and
    [vehicle['distance'] += distance_matrix[vehicle['route'][-2]][0]]. *)
Definition return_to_depot (v : vehicle) : result vehicle :=
  let route' := route v ++ [0%nat] in
  let cities' := cities_ v ++ ["Depot"] in
  prev <- subscript_neg route' 2 ;;
  row <- subscript distance_matrix prev ;;
  back <- subscript row 0 ;;
  Ok (Vehicle (vehicle_id v) route' (load v) (d_add (distance v) back) cities').

(** [if vehicle['route'][-1] != 0: ...]. *)
Definition return_if_away (v : vehicle) : result vehicle :=
  last_stop <- subscript_neg (route v) 1 ;;
  if negb (last_stop =? 0)%nat then return_to_depot v else Ok v.

(** [not all(visited)]. *)
Definition unfinished (s : state) : bool := negb (forallb (fun b : bool => b) (visited s)).

(** One turn of the [while] loop.  The warning printed when the vehicles
    run out (the number of locations left) is not part of the state. *)
Definition body (s : state) : result (ctl * state) :=
  v <- subscript (vehicles s) (current_vehicle s) ;;
  current_location <- subscript_neg (route v) 1 ;;
  best <- find_best distance_matrix demands capacity (visited s)
                    (load v) current_location n ;;
  match best with
  | Some (best_location, best_distance) =>
      city <- subscript cities best_location ;;
      demand <- subscript demands best_location ;;
      visited' <- assign (visited s) best_location true ;;
      let v' := Vehicle (vehicle_id v)
                        (route v ++ [best_location])
                        (load v + demand)
                        (d_add (distance v) best_distance)
                        (cities_ v ++ [city]) in
      Ok (Continue,
          State (<[current_vehicle s := v']> (vehicles s)) visited'
                (current_vehicle s))
  | None =>
      v' <- return_if_away v ;;
      let vehicles' := <[current_vehicle s := v']> (vehicles s) in
      let current_vehicle' := S (current_vehicle s) in
      if num_vehicles <=? Z.of_nat current_vehicle'
      then Ok (Break, State vehicles' (visited s) current_vehicle')
      else Ok (Continue, State vehicles' (visited s) current_vehicle')
  end.

(** The closing [for vehicle in vehicles] loop. *)
Definition close_vehicle (v : vehicle) : result vehicle :=
  v' <- return_if_away v ;;
  Ok (Vehicle (vehicle_id v') (route v') (load v')
              (d_round2 (distance v')) (cities_ v')).

(** The state before the [while] loop. *)
Definition initial : result state :=
  let vehicles :=
    map (fun v => Vehicle (Z.of_nat v + 1) [0%nat] 0 d_zero ["Depot"])
        (seq 0 (Z.to_nat num_vehicles)) in
  visited <- assign (replicate n false) 0 true ;;
  Ok (State vehicles visited 0).

(** The [while] loop from the initial state. *)
Definition construction (fuel : nat) : option (nat * result state) :=
  match initial with
  | Ok s => while unfinished body fuel s
  | Raise e => Some (0%nat, Raise e)
  end.

(** [sum(v['distance'] for v in vehicles)]. *)
Definition sum_distances (vs : list vehicle) : D :=
  fold_left d_add (map distance vs) d_zero.

(** Everything after [create_distance_matrix]. *)
Definition solve (fuel : nat) : option (result vrp_result) :=
  match construction fuel with
  | Some (_, Ok s) =>
      Some (vs <- for_each close_vehicle (vehicles s) ;;
            Ok (VrpResult vs (d_round2 (sum_distances vs)) distance_matrix))
  | Some (_, Raise e) => Some (Raise e)
  | None => None
  end.

End Vrp.

Arguments vehicle D : clear implicits.
Arguments state D : clear implicits.
Arguments vrp_result D : clear implicits.

(** Fuel that is always enough (see [while_fuel] further down). *)
Definition enough_fuel (n : nat) (num_vehicles : Z) : nat :=
  n + Z.to_nat num_vehicles + 1.

(** [simple_vrp] with the matrix builder as a parameter. *)
Definition simple_vrp_over {D : Type} `{Dist D}
    (create_distance_matrix : list string -> list (list D))
    (cities : list string) (demands : list Z)
    (num_vehicles : Z) (capacity : Z) : option (result (vrp_result D)) :=
  if negb (length cities =? length demands)%nat
  then Some (Raise (ValueError "Cities and demands must have same length"))
  else
    match subscript demands 0 with
    | Raise e => Some (Raise e)
    | Ok depot_demand =>
        if negb (depot_demand =? 0)
        then Some (Raise (ValueError "Depot (first location) must have 0 demand"))
        else
          let distance_matrix := create_distance_matrix cities in
          let n := length cities in
          solve distance_matrix cities n demands num_vehicles capacity
                (enough_fuel n num_vehicles)
    end.

(** [simple_vrp(cities, demands, num_vehicles, capacity)]. *)
Definition simple_vrp :=
  simple_vrp_over (D := R) create_distance_matrix.

(** [nearest_neighbor_tsp(distance_matrix, start)], over any distances.

    [unvisited] is a Python [set] of small integers, which CPython iterates
    in increasing order; it is the increasing list of its elements.  The
    [KeyError] of [unvisited.remove(start)] is an outcome of its own. *)
Section Tsp.
Context {D : Type} `{Dist D}.
Variable distance_matrix : list (list D).

Inductive tsp_outcome : Type :=
| TspReturn (route : list nat) (total_distance : D)
| TspKeyError (key : nat)
| TspRaise (e : exn).

(** [distance_matrix[current][x]]. *)
Definition hop (current x : nat) : result D :=
  row <- subscript distance_matrix current ;;
  subscript row x.

(** [min(unvisited, key=lambda x: distance_matrix[current][x])] once the
    first element is taken as the minimum so far: a later element replaces
    it only when its key is smaller. *)
Fixpoint min_from (current : nat) (best : nat) (best_key : D)
    (rest : list nat) : result nat :=
  match rest with
  | [] => Ok best
  | x :: rest' =>
      key <- hop current x ;;
      if d_ltb key best_key
      then min_from current x key rest'
      else min_from current best best_key rest'
  end.

Definition min_by_distance (current : nat) (unvisited : list nat)
  : result nat :=
  match unvisited with
  | [] => Raise (ValueError "min() arg is an empty sequence")
  | x :: rest => key <- hop current x ;; min_from current x key rest
  end.

(** The [while unvisited] loop, on fuel. *)
Fixpoint tsp_loop (fuel : nat) (current : nat) (route : list nat)
    (unvisited : list nat) (total_distance : D)
  : option (result (nat * list nat * D)) :=
  match fuel with
  | O => None
  | S fuel' =>
      match unvisited with
      | [] => Some (Ok (current, route, total_distance))
      | _ :: _ =>
          match min_by_distance current unvisited with
          | Raise e => Some (Raise e)
          | Ok nearest =>
              match hop current nearest with
              | Raise e => Some (Raise e)
              | Ok d =>
                  tsp_loop fuel' nearest (route ++ [nearest])
                           (remove Nat.eq_dec nearest unvisited)
                           (d_add total_distance d)
              end
          end
      end
  end.

Definition nearest_neighbor_tsp (start : nat) : option tsp_outcome :=
  let n := length distance_matrix in
  let unvisited := seq 0 n in
  let current := start in
  let route := [current] in
  if (start <? n)%nat then
    let unvisited := remove Nat.eq_dec current unvisited in
    match tsp_loop (S n) current route unvisited d_zero with
    | None => None
    | Some (Raise e) => Some (TspRaise e)
    | Some (Ok (current, route, total_distance)) =>
        match hop current start with
        | Raise e => Some (TspRaise e)
        | Ok d => Some (TspReturn (route ++ [start]) (d_add total_distance d))
        end
    end
  else Some (TspKeyError start).

End Tsp.

Arguments tsp_outcome D : clear implicits.

End Opt.

(** * Specification vocabulary *)

(** The stops of a route other than the depot. *)
Definition customers (stops : list nat) : list nat :=
  filter (fun i => i <> 0%nat) stops.

Definition sum_Z (l : list Z) : Z := foldr Z.add 0 l.

(** [sum(demand[i] for i in stops excluding depot)]. *)
Definition route_demand (demands : list Z) (stops : list nat) : Z :=
  sum_Z (map (fun i => nth i demands 0) (customers stops)).

(** The locations served by a set of routes: every stop but the depot. *)
Definition served (routes : list (list nat)) : list nat :=
  concat (map customers routes).

(** An [n] by [n] table. *)
Definition square {D : Type} (n : nat) (m : list (list D)) : Prop :=
  length m = n /\ Forall (fun row => length row = n) m.

(** A valid input: parallel lists, no demand at the depot, at least one
    vehicle; the matrix built for the locations has their size. *)
Definition valid_input {D : Type} (distance_matrix : list (list D))
    (locations : list string) (demands : list Z) (num_vehicles : Z) : Prop :=
  length locations = length demands
  /\ demands !! 0%nat = Some 0
  /\ 0 < num_vehicles
  /\ square (length locations) distance_matrix.

(** [m[i][j]] of a table known to be large enough. *)
Definition cell {D : Type} `{Dist D} (m : list (list D)) (i j : nat) : D :=
  nth j (nth i m []) d_zero.

(** The depot opens the route, closes it when the route has more than one
    stop, and occurs nowhere in between. *)
Definition depot_at_ends (stops : list nat) : Prop :=
  stops !! 0%nat = Some 0%nat
  /\ ((1 < length stops)%nat -> last stops = Some 0%nat)
  /\ forall k, stops !! k = Some 0%nat -> k = 0%nat \/ k = (length stops - 1)%nat.

(** The states at which the test of a [while] loop is evaluated. *)
Inductive reachable {St : Type} (cond : St -> bool)
    (body : St -> result (ctl * St)) (s0 : St) : St -> Prop :=
| reachable_start : reachable cond body s0 s0
| reachable_turn s s' :
    reachable cond body s0 s ->
    cond s = true ->
    body s = Ok (Continue, s') ->
    reachable cond body s0 s'.

(** ** The selection rule *)

Section Selection.
Context {D : Type} `{Dist D}.
Variable distance_matrix : list (list D).
Variable demands : list Z.
Variable capacity : Z.
Variable visited : list bool.
Variable load_ : Z.
Variable cur : nat.
Variable n : nat.

(** [i] is an unvisited location other than the depot whose demand still
    fits. *)
Definition feasible (i : nat) : Prop :=
  (1 <= i < n)%nat
  /\ visited !! i = Some false
  /\ exists demand, demands !! i = Some demand /\ load_ + demand <= capacity.

(** [b] is nearest to [cur] among the feasible locations, and the first
    such in index order. *)
Definition nearest_feasible (b : nat) : Prop :=
  feasible b
  /\ forall j, feasible j ->
       d_ltb (cell distance_matrix cur j) (cell distance_matrix cur b) = false
       /\ ((j < b)%nat ->
           d_ltb (cell distance_matrix cur b) (cell distance_matrix cur j) = true).

(** What the scan has found once the indices below [n] are done. *)
Definition selected (best : option (nat * D)) : Prop :=
  match best with
  | None => forall j, ~ feasible j
  | Some (b, d) =>
      feasible b
      /\ d = cell distance_matrix cur b
      /\ (DistOrder D -> nearest_feasible b)
  end.

End Selection.

(** ** What both builders do to the routes

    Each builder is viewed as a list of [(stops, load)] pairs, the visited
    flags and the cursor; one turn of either [while] loop is one [turn] of
    the view. *)

Record view : Type := View {
  v_routes : list (list nat * Z);
  v_visited : list bool;
  v_cursor : nat
}.

Section Turns.
Variable n : nat.
Variable demands : list Z.
Variable num_vehicles : Z.
Variable capacity : Z.

Inductive turn : view -> ctl -> view -> Prop :=
| turn_assign vs vis c stops load b demand :
    vs !! c = Some (stops, load) ->
    (1 <= b < n)%nat ->
    vis !! b = Some false ->
    demands !! b = Some demand ->
    load + demand <= capacity ->
    turn (View vs vis c) Continue
         (View (<[c := (stops ++ [b], load + demand)]> vs) (<[b := true]> vis) c)
| turn_close vs vis c stops load stops' k :
    vs !! c = Some (stops, load) ->
    stops' = stops \/ stops' = stops ++ [0%nat] ->
    (k = Continue -> Z.of_nat (S c) < num_vehicles) ->
    (k = Break -> num_vehicles <= Z.of_nat (S c)) ->
    turn (View vs vis c) k (View (<[c := (stops', load)]> vs) vis (S c)).

(** The shape of the route of vehicle [k] when the cursor is at [c]. *)
Definition route_ok (c k : nat) (r : list nat * Z) : Prop :=
  exists mid tail,
    r.1 = 0%nat :: mid ++ tail
    /\ Forall (fun i => (1 <= i < n)%nat) mid
    /\ (tail = [] \/ tail = [0%nat])
    /\ r.2 = route_demand demands r.1
    /\ (0 <= capacity -> r.2 <= capacity)
    /\ ((c <= k)%nat -> tail = [])
    /\ ((c < k)%nat -> mid = []).

Definition all_customers (vs : list (list nat * Z)) : list nat :=
  concat (map (fun r => customers r.1) vs).

(** The invariant of the construction. *)
Definition inv (v : view) : Prop :=
  length (v_visited v) = n
  /\ v_visited v !! 0%nat = Some true
  /\ length (v_routes v) = Z.to_nat num_vehicles
  /\ (forall k r, v_routes v !! k = Some r -> route_ok (v_cursor v) k r)
  /\ NoDup (all_customers (v_routes v))
  /\ (forall i, i ∈ all_customers (v_routes v)
                <-> i <> 0%nat /\ v_visited v !! i = Some true).

(** What bounds the turns still to come. *)
Definition measure (v : view) : nat :=
  length (filter (fun b => b = false) (v_visited v))
  + (Z.to_nat num_vehicles - v_cursor v).

End Turns.

Definition App_view {D : Type} (s : App.state D) : view :=
  View (map (fun r => (App.stops r, App.load r)) (App.routes s))
       (App.visited s) (App.current_vehicle s).

Definition Opt_view {D : Type} (s : Opt.state D) : view :=
  View (map (fun v => (Opt.route v, Opt.load v)) (Opt.vehicles s))
       (Opt.visited s) (Opt.current_vehicle s).

(** What the routes returned satisfy, as [(stops, load)] pairs, given the
    visited flags the loop ended with. *)
Definition routes_ok (n : nat) (demands : list Z) (num_vehicles capacity : Z)
    (vis : list bool) (routes : list (list nat * Z)) : Prop :=
  length vis = n
  /\ vis !! 0%nat = Some true
  /\ length routes = Z.to_nat num_vehicles
  /\ Forall (fun r => depot_at_ends r.1
                      /\ r.2 = route_demand demands r.1
                      /\ (0 <= capacity -> r.2 <= capacity)) routes
  /\ NoDup (served (map fst routes))
  /\ (forall i, i ∈ served (map fst routes)
                <-> (1 <= i < n)%nat /\ vis !! i = Some true).

(** The stops of the routes a builder returned. *)
Definition App_stops {D : Type} (x : option (result (list (App.route_t D))))
  : option (result (list (list nat))) :=
  match x with
  | Some (Ok routes) => Some (Ok (map App.stops routes))
  | Some (Raise e) => Some (Raise e)
  | None => None
  end.

Definition Opt_stops {D : Type} (x : option (result (Opt.vrp_result D)))
  : option (result (list (list nat))) :=
  match x with
  | Some (Ok r) => Some (Ok (map Opt.route (Opt.res_vehicles r)))
  | Some (Raise e) => Some (Raise e)
  | None => None
  end.

(** Every location index below [n] is a stop of exactly one route. *)
Definition covered_once (n : nat) (routes : list (list nat)) : Prop :=
  forall i, (i < n)%nat ->
    exists k, (exists stops, routes !! k = Some stops /\ i ∈ stops)
              /\ forall k' stops', routes !! k' = Some stops' -> i ∈ stops' ->
                                   k' = k.

(** One turn of a [while] loop as the selection rule describes it: the
    nearest feasible location, first in index order, is appended to the
    route at the cursor and marked visited; or no location is feasible and
    the cursor moves on. *)
Definition greedy_turn {D : Type} `{Dist D} (distance_matrix : list (list D))
    (n : nat) (demands : list Z) (capacity : Z) (v : view) (k : ctl)
    (v' : view) : Prop :=
  exists stops load cur,
    v_routes v !! v_cursor v = Some (stops, load)
    /\ last stops = Some cur
    /\ ((exists b demand,
            nearest_feasible distance_matrix demands capacity (v_visited v)
                             load cur n b
            /\ demands !! b = Some demand
            /\ k = Continue
            /\ v_routes v' !! v_cursor v = Some (stops ++ [b], load + demand)
            /\ v_visited v' = <[b := true]> (v_visited v)
            /\ v_cursor v' = v_cursor v)
        \/ ((forall j, ~ feasible demands capacity (v_visited v) load n j)
            /\ v_visited v' = v_visited v
            /\ v_cursor v' = S (v_cursor v))).

(** The length of a route in a matrix: the hops between consecutive stops,
    added from the left starting at 0, as the builders accumulate them. *)
Fixpoint hops_from {D : Type} `{Dist D} (m : list (list D)) (acc : D)
    (cur : nat) (rest : list nat) : D :=
  match rest with
  | [] => acc
  | x :: rest' => hops_from m (d_add acc (cell m cur x)) x rest'
  end.

Definition route_length {D : Type} `{Dist D} (m : list (list D))
    (stops : list nat) : D :=
  match stops with
  | [] => d_zero
  | s :: rest => hops_from m d_zero s rest
  end.

(** Every stop of a tour is as near to the stop before it as any later
    stop is. *)
Fixpoint nearest_first {D : Type} `{Dist D} (m : list (list D)) (cur : nat)
    (rest : list nat) : Prop :=
  match rest with
  | [] => True
  | x :: rest' =>
      (forall y, y ∈ rest' -> d_ltb (cell m cur y) (cell m cur x) = false)
      /\ nearest_first m x rest'
  end.

(** The name [simple_vrp] lists for a stop. *)
Definition stop_name (cities : list string) (i : nat) : string :=
  if (i =? 0)%nat then "Depot" else nth i cities "".

(** ** Example data

    Three locations with integer distances (hundredths of a kilometre);
    location 1 is nearer to the depot than location 2. *)

Definition example_locations : list string := ["depot"; "jalandhar"; "amritsar"].

Definition example_matrix : list (list Z) :=
  [[0; 5303; 12458]; [5303; 0; 7496]; [12458; 7496; 0]].

Definition example_builder (locations : list string) : list (list Z) :=
  example_matrix.

Definition example_demands : list Z := [0; 250; 300].

(** * Proofs *)

Arguments customers : simpl never.
Arguments route_demand : simpl never.
Arguments all_customers : simpl never.
Arguments served : simpl never.

(** ** Results and subscripts *)

Lemma bind_Ok {A B} (m : result A) (f : A -> result B) (b : B) :
  bind m f = Ok b <-> exists a, m = Ok a /\ f a = Ok b.
Proof.
  destruct m as [a|e]; simpl; split.
  - intros Hf. exists a. auto.
  - intros (a' & [= <-] & Hf). exact Hf.
  - discriminate.
  - intros (a' & Hm & _). discriminate.
Qed.

Lemma subscript_Ok {A} (l : list A) (i : nat) (x : A) :
  subscript l i = Ok x <-> l !! i = Some x.
Proof.
  unfold subscript. destruct (l !! i); split; intros Hx; congruence.
Qed.

Lemma subscript_lt {A} (l : list A) (i : nat) :
  (i < length l)%nat -> exists x, subscript l i = Ok x /\ l !! i = Some x.
Proof.
  intros Hi. destruct (lookup_lt_is_Some_2 l i Hi) as [x Hx].
  exists x. split; [apply subscript_Ok|]; exact Hx.
Qed.

Lemma subscript_neg_1 {A} (l : list A) (x : A) :
  subscript_neg l 1 = Ok x <-> last l = Some x.
Proof.
  unfold subscript_neg. rewrite last_lookup.
  destruct l as [|y l]; simpl.
  - split; discriminate.
  - rewrite subscript_Ok. simpl. rewrite Nat.sub_0_r. reflexivity.
Qed.

Lemma subscript_neg_2_snoc {A} (l : list A) (x y : A) :
  last l = Some x -> subscript_neg (l ++ [y]) 2 = Ok x.
Proof.
  intros Hl. unfold subscript_neg.
  assert (Hlen : length (l ++ [y]) = S (length l))
    by (rewrite length_app; simpl; lia).
  rewrite Hlen. rewrite last_lookup in Hl.
  assert (Hpos : (0 < length l)%nat) by (destruct l; [discriminate | simpl; lia]).
  destruct (Nat.leb_spec 2 (S (length l))) as [_|Hlt]; [|lia].
  change ((1 <=? 2)%nat && true) with true. cbv iota.
  apply subscript_Ok.
  rewrite lookup_app_l by lia.
  replace (S (length l) - 2)%nat with (pred (length l)) by lia. exact Hl.
Qed.

Lemma assign_Ok {A} (l l' : list A) (i : nat) (x : A) :
  assign l i x = Ok l' <-> (i < length l)%nat /\ l' = <[i := x]> l.
Proof.
  unfold assign. destruct (Nat.ltb_spec i (length l)); split.
  - intros [= <-]. auto.
  - intros [_ ->]. reflexivity.
  - discriminate.
  - intros [Hi _]. lia.
Qed.

Lemma for_each_Ok {A B} (f : A -> result B) (l : list A) (l' : list B) :
  for_each f l = Ok l' <-> Forall2 (fun x y => f x = Ok y) l l'.
Proof.
  revert l'. induction l as [|x l IH]; intros l'; simpl.
  - split.
    + intros [= <-]. constructor.
    + intros Hl. inversion Hl. reflexivity.
  - rewrite bind_Ok. split.
    + intros (y & Hy & Hrest). apply bind_Ok in Hrest as (ys & Hys & [= <-]).
      constructor; [exact Hy | apply IH, Hys].
    + intros Hl. inversion Hl as [|? y ? ys Hy Hys]; subst.
      exists y. split; [exact Hy|].
      apply bind_Ok. exists ys. split; [apply IH, Hys | reflexivity].
Qed.

Lemma for_each_total {A B} (f : A -> result B) (l : list A) :
  Forall (fun x => exists y, f x = Ok y) l -> exists l', for_each f l = Ok l'.
Proof.
  induction 1 as [|x l [y Hy] _ [ys Hys]]; simpl.
  - eexists; reflexivity.
  - exists (y :: ys). rewrite Hy. simpl. rewrite Hys. reflexivity.
Qed.

(** ** The [while] loop *)

Section While.
Context {St : Type}.
Variable cond : St -> bool.
Variable body : St -> result (ctl * St).

(** Where a loop that ended was left. *)
Lemma while_end (s0 : St) (fuel : nat) :
  forall s k r,
    reachable cond body s0 s ->
    while cond body fuel s = Some (k, r) ->
    match r with
    | Ok s_end =>
        (reachable cond body s0 s_end /\ cond s_end = false)
        \/ exists s1, reachable cond body s0 s1 /\ cond s1 = true
                      /\ body s1 = Ok (Break, s_end)
    | Raise e =>
        exists s1, reachable cond body s0 s1 /\ cond s1 = true
                   /\ body s1 = Raise e
    end.
Proof.
  induction fuel as [|fuel IH]; intros s k r Hs; simpl; [discriminate|].
  destruct (cond s) eqn:Hc.
  - destruct (body s) as [[[] s']|e] eqn:Hb.
    + destruct (while cond body fuel s') as [[k' r']|] eqn:Hw; [|discriminate].
      intros [= <- <-].
      eapply IH; [|exact Hw]. eapply reachable_turn; eauto.
    + intros [= <- <-]. right. eauto.
    + intros [= <- <-]. eauto.
  - intros [= <- <-]. left. auto.
Qed.

(** A quantity that every turn lowers bounds the number of turns, and
    that much fuel (and one more unit for the last test) is enough. *)
Lemma while_fuel (mu : St -> nat) (P : St -> Prop) :
  (forall s, P s -> cond s = true -> (1 <= mu s)%nat) ->
  (forall s s', P s -> cond s = true -> body s = Ok (Continue, s') ->
                P s' /\ (mu s' < mu s)%nat) ->
  forall fuel s, P s -> (mu s < fuel)%nat ->
    exists k r, while cond body fuel s = Some (k, r) /\ (k <= mu s)%nat.
Proof.
  intros Hpos Hdec. induction fuel as [|fuel IH]; intros s HP Hfuel; [lia|].
  simpl. destruct (cond s) eqn:Hc.
  - specialize (Hpos s HP Hc).
    destruct (body s) as [[[] s']|e] eqn:Hb.
    + destruct (Hdec s s' HP Hc Hb) as [HP' Hlt].
      destruct (IH s' HP') as (k & r & -> & Hk); [lia|].
      exists (S k), r. split; [reflexivity | lia].
    + eexists _, _. split; [reflexivity | lia].
    + eexists _, _. split; [reflexivity | lia].
  - eexists _, _. split; [reflexivity | lia].
Qed.

(** More fuel changes nothing. *)
Lemma while_more_fuel (fuel fuel' : nat) (s : St) (a : nat * result St) :
  while cond body fuel s = Some a -> (fuel <= fuel')%nat ->
  while cond body fuel' s = Some a.
Proof.
  revert fuel' s a. induction fuel as [|fuel IH]; intros fuel' s a; simpl;
    [discriminate|].
  intros Hw Hle. destruct fuel' as [|fuel']; [lia|]. simpl.
  destruct (cond s); [|exact Hw].
  destruct (body s) as [[[] s']|e]; try exact Hw.
  destruct (while cond body fuel s') as [[k r]|] eqn:Hw'; [|discriminate].
  rewrite (IH fuel' s' (k, r) Hw') by lia. exact Hw.
Qed.

End While.

(** ** The candidate scan *)

Lemma cell_lookup {D : Type} `{Dist D} (m : list (list D)) (i j : nat)
    (row : list D) (d : D) :
  m !! i = Some row -> row !! j = Some d -> cell m i j = d.
Proof.
  intros Hrow Hd. unfold cell.
  rewrite (nth_lookup_Some _ _ _ _ Hrow).
  apply (nth_lookup_Some _ _ _ _ Hd).
Qed.

Lemma d_ltb_irrefl {D : Type} `{DistOrder D} (x : D) : d_ltb x x = false.
Proof.
  destruct (d_ltb x x) eqn:Hx; [|reflexivity].
  rewrite (d_ltb_asym x x Hx) in Hx. discriminate.
Qed.

Section ScanProofs.
Context {D : Type} `{Dist D}.
Variable distance_matrix : list (list D).
Variable demands : list Z.
Variable capacity : Z.
Variable visited : list bool.
Variable load_ : Z.
Variable cur : nat.

Local Abbreviation fits := (feasible demands capacity visited load_).
Local Abbreviation selected :=
  (selected distance_matrix demands capacity visited load_ cur).
Local Abbreviation step :=
  (scan_step distance_matrix demands capacity visited load_ cur).
Local Abbreviation scan :=
  (scan distance_matrix demands capacity visited load_ cur).
Local Abbreviation best_of :=
  (find_best distance_matrix demands capacity visited load_ cur).
Local Abbreviation dist_to := (cell distance_matrix cur).

Lemma feasible_S (a j : nat) :
  fits (S a) j <-> fits a j \/ (j = a /\ fits (S a) a).
Proof.
  unfold feasible. split.
  - intros (Hj & Hv & Hd). destruct (decide (j = a)) as [->|Hne].
    + right. auto.
    + left. split; [lia | auto].
  - intros [(Hj & Hv & Hd) | [-> Ha]]; [|exact Ha].
    split; [lia | auto].
Qed.

(** A location that is skipped is not fits. *)
Lemma selected_skip (a : nat) (best : option (nat * D)) :
  selected a best -> ~ fits (S a) a -> selected (S a) best.
Proof.
  intros Hsel Hno. destruct best as [[b d]|]; simpl in *.
  - destruct Hsel as (Hb & Hd & Hmin).
    split; [apply feasible_S; auto|]. split; [exact Hd|].
    intros Hord. destruct (Hmin Hord) as [_ Hall].
    split; [apply feasible_S; auto|].
    intros j Hj. apply feasible_S in Hj as [Hj | [-> Hj]]; [auto | tauto].
  - intros j Hj. apply feasible_S in Hj as [Hj | [-> Hj]]; [|tauto].
    exact (Hsel j Hj).
Qed.

Lemma scan_step_spec (a : nat) (best best' : option (nat * D)) :
  (1 <= a)%nat ->
  selected a best -> step best a = Ok best' -> selected (S a) best'.
Proof.
  intros Ha Hsel. unfold scan_step.
  intros (v & Hv%subscript_Ok & Hstep)%bind_Ok.
  destruct v.
  { injection Hstep as <-. apply selected_skip; [exact Hsel|].
    intros (_ & Hv' & _). congruence. }
  apply bind_Ok in Hstep as (demand & Hdem%subscript_Ok & Hstep).
  destruct (Z.leb_spec (load_ + demand) capacity) as [Hfit|Hfit]; cycle 1.
  { injection Hstep as <-. apply selected_skip; [exact Hsel|].
    intros (_ & _ & demand' & Hdem' & Hle). rewrite Hdem in Hdem'.
    injection Hdem' as <-. lia. }
  apply bind_Ok in Hstep as (row & Hrow%subscript_Ok & Hstep).
  apply bind_Ok in Hstep as (dist & Hdist%subscript_Ok & Hstep).
  assert (Hcell : dist_to a = dist) by (eapply cell_lookup; eauto).
  assert (Hfa : fits (S a) a).
  { split; [lia|]. split; [exact Hv|]. exists demand. auto. }
  destruct best as [[b bd]|]; simpl in Hsel.
  - destruct Hsel as (Hb & -> & Hmin).
    destruct (d_ltb dist (dist_to b)) eqn:Hlt; injection Hstep as <-; simpl.
    + (* the new location is strictly nearer *)
      split; [exact Hfa|]. split; [auto|].
      intros Hord. destruct (Hmin Hord) as [_ Hall].
      split; [exact Hfa|]. rewrite Hcell.
      intros j Hj. apply feasible_S in Hj as [Hj | [-> _]].
      * destruct (Hall j Hj) as [Hge _]. split.
        -- destruct (d_ltb (dist_to j) dist) eqn:Hjd; [|reflexivity].
           destruct (d_ltb_cotrans _ _ (dist_to b) Hjd) as [Hc|Hc].
           ++ congruence.
           ++ rewrite (d_ltb_asym _ _ Hlt) in Hc. discriminate.
        -- intros _.
           destruct (d_ltb_cotrans _ _ (dist_to j) Hlt) as [Hc|Hc];
             [exact Hc | congruence].
      * rewrite Hcell. split; [apply d_ltb_irrefl | lia].
    + (* the earlier location stays *)
      split; [apply feasible_S; auto|]. split; [reflexivity|].
      intros Hord. destruct (Hmin Hord) as [_ Hall].
      split; [apply feasible_S; auto|].
      intros j Hj. apply feasible_S in Hj as [Hj | [-> _]]; [auto|].
      rewrite Hcell. split; [exact Hlt|].
      destruct Hb as [Hb _]. lia.
  - injection Hstep as <-. simpl.
    split; [exact Hfa|]. split; [auto|].
    intros Hord. split; [exact Hfa|].
    intros j Hj. apply feasible_S in Hj as [Hj | [-> _]].
    + destruct (Hsel j Hj).
    + split; [apply d_ltb_irrefl | lia].
Qed.

Lemma scan_spec (len a : nat) (best best' : option (nat * D)) :
  (1 <= a)%nat ->
  selected a best -> scan best (seq a len) = Ok best' ->
  selected (a + len) best'.
Proof.
  revert a best. induction len as [|len IH]; intros a best Ha Hsel; simpl.
  - intros [= <-]. rewrite Nat.add_0_r. exact Hsel.
  - intros (mid & Hstep & Hrest)%bind_Ok.
    replace (a + S len)%nat with (S a + len)%nat by lia.
    apply (IH (S a) mid); [lia | | exact Hrest].
    eapply scan_step_spec; eauto.
Qed.

(** The scan selects the nearest fits location, the first of them in
    index order, and nothing if no location is fits. *)
Lemma find_best_spec (n : nat) (best : option (nat * D)) :
  best_of n = Ok best -> selected n best.
Proof.
  unfold find_best. intros Hscan.
  destruct n as [|n].
  - simpl in Hscan. injection Hscan as <-. intros j (Hj & _). lia.
  - replace (S n) with (1 + (S n - 1))%nat at 1 by lia.
    eapply scan_spec; [lia | | exact Hscan].
    intros j (Hj & _). lia.
Qed.

(** On tables of the right sizes the scan raises nothing. *)
Lemma scan_total (n len a : nat) (best : option (nat * D)) :
  length visited = n -> (n <= length demands)%nat ->
  square n distance_matrix -> (cur < n)%nat ->
  (a + len <= n)%nat ->
  exists best', scan best (seq a len) = Ok best'.
Proof.
  intros Hvis Hdem [Hrows Hcols] Hcur.
  revert a best. induction len as [|len IH]; intros a best Hlen; simpl.
  - eauto.
  - destruct (subscript_lt visited a) as (v & Hv & _); [lia|].
    destruct (subscript_lt demands a) as (demand & Hd & _); [lia|].
    destruct (subscript_lt distance_matrix cur) as (row & Hrow & Hrow');
      [lia|].
    assert (Hrowlen : length row = n).
    { rewrite Forall_forall in Hcols. apply Hcols.
      eapply list_elem_of_lookup_2. exact Hrow'. }
    destruct (subscript_lt row a) as (dist & Hdist & _); [lia|].
    assert (Hstep : exists mid, step best a = Ok mid).
    { unfold scan_step. rewrite Hv. simpl. destruct v; [eauto|].
      rewrite Hd. simpl. destruct (load_ + demand <=? capacity); [|eauto].
      rewrite Hrow. simpl. rewrite Hdist. simpl.
      destruct best as [[b bd]|]; [|eauto].
      destruct (d_ltb dist bd); eauto. }
    destruct Hstep as [mid ->]. simpl. apply IH. lia.
Qed.

Lemma find_best_total (n : nat) :
  length visited = n -> (n <= length demands)%nat ->
  square n distance_matrix -> (cur < n)%nat ->
  exists best, best_of n = Ok best.
Proof.
  intros Hvis Hdem Hsq Hcur. apply (scan_total n); auto. lia.
Qed.

End ScanProofs.

(** ** Customers and demands of a route *)

Lemma customers_snoc (stops : list nat) (b : nat) :
  b <> 0%nat -> customers (stops ++ [b]) = customers stops ++ [b].
Proof.
  intros Hb. unfold customers. rewrite filter_app.
  rewrite filter_cons_True by exact Hb. reflexivity.
Qed.

Lemma customers_snoc_depot (stops : list nat) :
  customers (stops ++ [0%nat]) = customers stops.
Proof.
  unfold customers. rewrite filter_app.
  rewrite filter_cons_False by auto.
  rewrite filter_nil. apply app_nil_r.
Qed.

Lemma sum_Z_app (l1 l2 : list Z) : sum_Z (l1 ++ l2) = sum_Z l1 + sum_Z l2.
Proof.
  unfold sum_Z. induction l1 as [|x l1 IH]; simpl; [reflexivity | lia].
Qed.

Lemma route_demand_snoc (demands : list Z) (stops : list nat) (b : nat)
    (demand : Z) :
  b <> 0%nat -> demands !! b = Some demand ->
  route_demand demands (stops ++ [b]) = route_demand demands stops + demand.
Proof.
  intros Hb Hd. unfold route_demand.
  rewrite customers_snoc by exact Hb.
  rewrite map_app, sum_Z_app. simpl.
  rewrite (nth_lookup_Some _ _ _ _ Hd). unfold sum_Z. simpl. lia.
Qed.

Lemma route_demand_snoc_depot (demands : list Z) (stops : list nat) :
  route_demand demands (stops ++ [0%nat]) = route_demand demands stops.
Proof. unfold route_demand. rewrite customers_snoc_depot. reflexivity. Qed.

(** ** The invariant of the construction *)

Section TurnProofs.
Variable n : nat.
Variable demands : list Z.
Variable num_vehicles : Z.
Variable capacity : Z.

Local Abbreviation turn := (turn n demands num_vehicles capacity).
Local Abbreviation route_ok := (route_ok n demands capacity).
Local Abbreviation invariant := (inv n demands num_vehicles capacity).
Local Abbreviation turns_left := (measure num_vehicles).

Lemma all_customers_split (vs : list (list nat * Z)) (c : nat)
    (r r' : list nat * Z) :
  vs !! c = Some r ->
  all_customers vs
  = all_customers (take c vs) ++ customers r.1 ++ all_customers (drop (S c) vs)
  /\ all_customers (<[c := r']> vs)
     = all_customers (take c vs) ++ customers r'.1
         ++ all_customers (drop (S c) vs).
Proof.
  intros Hc. unfold all_customers. split.
  - rewrite <- (take_drop_middle vs c r Hc) at 1.
    rewrite map_app, concat_app. reflexivity.
  - rewrite insert_take_drop by (eapply lookup_lt_Some; exact Hc).
    rewrite map_app, concat_app. reflexivity.
Qed.

Lemma all_customers_same (vs : list (list nat * Z)) (c : nat)
    (r r' : list nat * Z) :
  vs !! c = Some r -> customers r'.1 = customers r.1 ->
  all_customers (<[c := r']> vs) = all_customers vs.
Proof.
  intros Hc Heq.
  destruct (all_customers_split vs c r r' Hc) as [-> ->].
  rewrite Heq. reflexivity.
Qed.

Lemma all_customers_more (vs : list (list nat * Z)) (c : nat)
    (r r' : list nat * Z) (b : nat) :
  vs !! c = Some r -> customers r'.1 = customers r.1 ++ [b] ->
  all_customers (<[c := r']> vs) ≡ₚ b :: all_customers vs.
Proof.
  intros Hc Heq.
  destruct (all_customers_split vs c r r' Hc) as [-> ->].
  rewrite Heq, <- (app_assoc (customers r.1) [b]). simpl.
  rewrite !app_assoc. symmetry. apply Permutation_middle.
Qed.

(** One turn keeps the invariant. *)
Lemma turn_inv (v v' : view) (k : ctl) : turn v k v' -> invariant v -> invariant v'.
Proof.
  intros Hturn (Hlen & Hdepot & Hnv & Hroutes & Hnodup & Hmem).
  destruct Hturn as
    [vs vis c stops load b demand Hc Hb Hvb Hdem Hfit
    |vs vis c stops load stops' k Hc Hstops Hk Hbrk]; simpl in *.
  - (* a location is assigned *)
    destruct (Hroutes c _ Hc) as
      (mid & tail & Hshape & Hmid & _ & Hload & Hcap & Hopen & _).
    simpl in Hshape, Hload, Hcap.
    rewrite (Hopen (Nat.le_refl c)), app_nil_r in Hshape. subst stops.
    assert (Hperm : all_customers (<[c := ((0%nat :: mid) ++ [b], load + demand)]> vs)
                    ≡ₚ b :: all_customers vs).
    { eapply all_customers_more; [exact Hc|].
      apply (customers_snoc (0%nat :: mid)). lia. }
    unfold inv. simpl. split_and!.
    + rewrite length_insert. exact Hlen.
    + rewrite list_lookup_insert_ne by lia. exact Hdepot.
    + rewrite length_insert. exact Hnv.
    + intros j r Hj. destruct (decide (j = c)) as [->|Hne].
      * rewrite list_lookup_insert_eq in Hj by (eapply lookup_lt_Some; eauto).
        injection Hj as <-. exists (mid ++ [b]), []. simpl.
        rewrite app_nil_r. split_and!; auto.
        -- apply Forall_app. split; [exact Hmid|]. constructor; [lia|constructor].
        -- change (0%nat :: mid ++ [b]) with ((0%nat :: mid) ++ [b]).
           rewrite (route_demand_snoc demands (0%nat :: mid) b demand) by (auto; lia).
           rewrite <- Hload. reflexivity.
        -- lia.
      * rewrite list_lookup_insert_ne in Hj by auto.
        exact (Hroutes j r Hj).
    + rewrite Hperm. apply NoDup_cons. split; [|exact Hnodup].
      intros Hin. apply Hmem in Hin as [_ Hin]. congruence.
    + intros i. rewrite Hperm, elem_of_cons, Hmem.
      destruct (decide (i = b)) as [->|Hne].
      * rewrite list_lookup_insert_eq by lia. split; [|auto].
        intros _. split; [lia | reflexivity].
      * rewrite list_lookup_insert_ne by auto. tauto.
  - (* the vehicle is retired *)
    destruct (Hroutes c _ Hc) as
      (mid & tail & Hshape & Hmid & _ & Hload & Hcap & Hopen & _).
    simpl in Hshape, Hload, Hcap.
    rewrite (Hopen (Nat.le_refl c)), app_nil_r in Hshape. subst stops.
    assert (Hsame : all_customers (<[c := (stops', load)]> vs)
                    = all_customers vs).
    { eapply all_customers_same; [exact Hc|]. simpl.
      destruct Hstops as [->| ->]; [reflexivity|].
      apply (customers_snoc_depot (0%nat :: mid)). }
    unfold inv. simpl. rewrite Hsame. split_and!; auto.
    + rewrite length_insert. exact Hnv.
    + intros j r Hj. destruct (decide (j = c)) as [->|Hne].
      * rewrite list_lookup_insert_eq in Hj by (eapply lookup_lt_Some; eauto).
        injection Hj as <-.
        destruct Hstops as [->| ->].
        -- exists mid, []. simpl. rewrite app_nil_r.
           split_and!; auto; lia.
        -- exists mid, [0%nat]. simpl. split_and!; auto; try lia.
           change (0%nat :: mid ++ [0%nat]) with ((0%nat :: mid) ++ [0%nat]).
           rewrite (route_demand_snoc_depot demands (0%nat :: mid)).
           exact Hload.
      * rewrite list_lookup_insert_ne in Hj by auto.
        destruct (Hroutes j r Hj) as
          (mid' & tail' & ? & ? & ? & ? & ? & Hopen' & Hfresh').
        exists mid', tail'. split_and!; auto.
        -- intros Hle. apply Hopen'. lia.
        -- intros Hlt. apply Hfresh'. lia.
Qed.

Lemma unvisited_insert (vis : list bool) (b : nat) :
  vis !! b = Some false ->
  S (length (filter (fun x => x = false) (<[b := true]> vis)))
  = length (filter (fun x => x = false) vis).
Proof.
  revert b. induction vis as [|x vis IH]; intros b Hb; [discriminate|].
  destruct b as [|b]; simpl in Hb.
  - injection Hb as ->.
    change (<[0%nat := true]> (false :: vis)) with (true :: vis).
    rewrite filter_cons_False by discriminate.
    rewrite filter_cons_True by reflexivity. reflexivity.
  - change (<[S b := true]> (x :: vis)) with (x :: <[b := true]> vis).
    destruct x.
    + rewrite !filter_cons_False by discriminate. apply IH, Hb.
    + rewrite !filter_cons_True by reflexivity.
      cbn [length]. f_equal. apply IH, Hb.
Qed.

Lemma unfinished_unvisited (vis : list bool) :
  forallb (fun b : bool => b) vis = false ->
  (1 <= length (filter (fun x => x = false) vis))%nat.
Proof.
  induction vis as [|x vis IH]; [discriminate|].
  destruct x; cbn [forallb andb].
  - intros Hv. rewrite filter_cons_False by discriminate. apply IH, Hv.
  - intros _. rewrite filter_cons_True by reflexivity. cbn [length]. lia.
Qed.

(** A turn after which the loop goes on lowers the turns_left. *)
Lemma turn_measure (v v' : view) :
  turn v Continue v' -> (turns_left v' < turns_left v)%nat.
Proof.
  inversion 1 as
    [vs vis c stops load b demand Hc Hb Hvb Hdem Hfit
    |vs vis c stops load stops' k Hc Hstops Hk Hbrk]; subst;
    unfold measure; simpl.
  - rewrite <- (unvisited_insert vis b Hvb). lia.
  - specialize (Hk eq_refl). lia.
Qed.

(** Where a turn leaves the cursor. *)
Lemma turn_cursor (v v' : view) (k : ctl) :
  turn v k v' ->
  (k = Continue -> Z.of_nat (v_cursor v) < num_vehicles ->
   Z.of_nat (v_cursor v') < num_vehicles)
  /\ (k = Break -> num_vehicles <= Z.of_nat (v_cursor v')).
Proof.
  destruct 1 as
    [vs vis c stops load b demand Hc Hb Hvb Hdem Hfit
    |vs vis c stops load stops' k Hc Hstops Hk Hbrk]; simpl.
  - split; [auto | discriminate].
  - split; auto.
Qed.

(** The state before the loop. *)
Lemma initial_inv :
  (1 <= n)%nat ->
  invariant (View (map (fun _ => ([0%nat], 0)) (seq 0 (Z.to_nat num_vehicles)))
            (<[0%nat := true]> (replicate n false)) 0).
Proof.
  intros Hn.
  assert (Hnone : forall l : list nat,
             all_customers (map (fun _ => ([0%nat], 0)) l) = []).
  { induction l as [|x l IH]; [reflexivity|]. exact IH. }
  unfold inv. simpl. rewrite Hnone. split_and!.
  - rewrite length_insert. apply length_replicate.
  - apply list_lookup_insert_eq. rewrite length_replicate. lia.
  - rewrite length_map. apply length_seq.
  - intros k r Hk. apply list_lookup_fmap_Some in Hk as (x & -> & _).
    exists [], []. simpl. split_and!; auto; lia.
  - constructor.
  - intros i. split; [intros Hin; inversion Hin|].
    intros [Hi Hv]. rewrite list_lookup_insert_ne in Hv by auto.
    apply lookup_replicate in Hv as [Hv _]. discriminate.
Qed.

End TurnProofs.

(** ** A construction pass, whichever builder runs it *)

Section Pass.
Variable n : nat.
Variable demands : list Z.
Variable num_vehicles : Z.
Variable capacity : Z.
Context {St : Type}.
Variable view_of : St -> view.
Variable cond : St -> bool.
Variable body : St -> result (ctl * St).

Local Abbreviation turn := (turn n demands num_vehicles capacity).
Local Abbreviation invariant := (inv n demands num_vehicles capacity).
Local Abbreviation turns_left := (measure num_vehicles).

Hypothesis cond_view :
  forall s, cond s = negb (forallb (fun b : bool => b) (v_visited (view_of s))).
Hypothesis body_turn :
  forall s s' k, body s = Ok (k, s') -> turn (view_of s) k (view_of s').

Lemma cond_measure (s : St) : cond s = true -> (1 <= turns_left (view_of s))%nat.
Proof.
  rewrite cond_view. intros Hc%negb_true_iff.
  apply unfinished_unvisited in Hc. unfold measure. lia.
Qed.

(** The loop ends, whatever the input, within the turns_left of its first
    state. *)
Lemma pass_ends (fuel : nat) (s : St) :
  (turns_left (view_of s) < fuel)%nat ->
  exists k r, while cond body fuel s = Some (k, r)
              /\ (k <= turns_left (view_of s))%nat.
Proof.
  intros Hfuel.
  apply (while_fuel cond body (fun s => turns_left (view_of s)) (fun _ => True));
    auto.
  - intros s0 _ Hc. apply cond_measure, Hc.
  - intros s0 s' _ _ Hb. split; [exact I|].
    eapply turn_measure, body_turn, Hb.
Qed.

(** At the head of the loop the invariant holds and the cursor is on a
    vehicle. *)
Local Abbreviation at_head s :=
  (invariant (view_of s) /\ Z.of_nat (v_cursor (view_of s)) < num_vehicles).

Lemma turn_at_head (s s' : St) :
  at_head s -> body s = Ok (Continue, s') -> at_head s'.
Proof.
  intros [Hinv Hcur] Hb. apply body_turn in Hb. split.
  - eapply turn_inv; eauto.
  - eapply turn_cursor; eauto.
Qed.

Lemma reachable_at_head (s0 s : St) :
  at_head s0 -> reachable cond body s0 s -> at_head s.
Proof.
  intros H0. induction 1 as [|s s' _ IH _ Hb]; [exact H0|].
  eapply turn_at_head; eauto.
Qed.

Hypothesis body_total :
  forall s, at_head s -> cond s = true -> exists k s', body s = Ok (k, s').

(** From a good first state the loop ends without an exception, in a state
    that satisfies the invariant, with every location visited or every
    vehicle used. *)
Lemma pass_result (fuel : nat) (s0 : St) :
  at_head s0 ->
  (turns_left (view_of s0) < fuel)%nat ->
  exists k s_end,
    while cond body fuel s0 = Some (k, Ok s_end)
    /\ (k <= turns_left (view_of s0))%nat
    /\ invariant (view_of s_end)
    /\ (cond s_end = false
        \/ num_vehicles <= Z.of_nat (v_cursor (view_of s_end))).
Proof.
  intros H0 Hfuel.
  destruct (pass_ends fuel s0 Hfuel) as (k & r & Hw & Hk).
  pose proof (while_end cond body s0 fuel s0 k r
                (reachable_start _ _ _) Hw) as Hend.
  destruct r as [s_end|e].
  - exists k, s_end. split; [exact Hw|]. split; [exact Hk|].
    destruct Hend as [[Hr Hc] | (s1 & Hr & Hc & Hb)].
    + split; [|left; exact Hc]. apply (reachable_at_head s0 s_end H0 Hr).
    + destruct (reachable_at_head s0 s1 H0 Hr) as [Hinv _].
      apply body_turn in Hb. split; [eapply turn_inv; eauto|]. right.
      eapply turn_cursor; eauto.
  - destruct Hend as (s1 & Hr & Hc & Hb).
    destruct (body_total s1 (reachable_at_head s0 s1 H0 Hr) Hc)
      as (k' & s' & Hb').
    congruence.
Qed.

End Pass.

(** A route of the invariant ends at a location of the table. *)
Lemma route_ok_last (n : nat) (demands : list Z) (capacity : Z) (c k : nat)
    (r : list nat * Z) :
  (1 <= n)%nat -> route_ok n demands capacity c k r ->
  exists x, last r.1 = Some x /\ (x < n)%nat.
Proof.
  intros Hn (mid & tail & -> & Hmid & Htail & _).
  destruct Htail as [-> | ->].
  - rewrite app_nil_r.
    destruct (decide (mid = [])) as [->|Hne]; [exists 0%nat; split; [reflexivity | lia]|].
    destruct (exists_last Hne) as (mid' & x & ->).
    apply Forall_app in Hmid as [_ Hx]. inversion Hx; subst.
    exists x. split; [|lia].
    change (0%nat :: mid' ++ [x]) with ((0%nat :: mid') ++ [x]).
    apply last_snoc.
  - exists 0%nat. split; [|lia].
    change (0%nat :: mid ++ [0%nat]) with ((0%nat :: mid) ++ [0%nat]).
    apply last_snoc.
Qed.

(** ** [simple_vrp]: one turn of the loop *)

Section OptProofs.
Context {D : Type} `{Dist D}.
Variable distance_matrix : list (list D).
Variable cities : list string.
Variable n : nat.
Variable demands : list Z.
Variable num_vehicles : Z.
Variable capacity : Z.

Local Abbreviation body :=
  (Opt.body distance_matrix cities n demands num_vehicles capacity).
Local Abbreviation return_if_away := (Opt.return_if_away distance_matrix).

Lemma Opt_return_if_away (v v' : Opt.vehicle D) :
  return_if_away v = Ok v' ->
  exists x, last (Opt.route v) = Some x
    /\ Opt.load v' = Opt.load v
    /\ ((x = 0%nat /\ v' = v)
        \/ (x <> 0%nat /\ Opt.route v' = Opt.route v ++ [0%nat])).
Proof.
  unfold Opt.return_if_away.
  intros (x & Hx%subscript_neg_1 & Hrest)%bind_Ok.
  exists x. split; [exact Hx|].
  destruct (Nat.eqb_spec x 0) as [->|Hne]; simpl in Hrest.
  - injection Hrest as <-. auto.
  - unfold Opt.return_to_depot in Hrest.
    apply bind_Ok in Hrest as (prev & _ & Hrest).
    apply bind_Ok in Hrest as (row & _ & Hrest).
    apply bind_Ok in Hrest as (back & _ & [= <-]). simpl. auto.
Qed.

Lemma Opt_return_if_away_total (v : Opt.vehicle D) (x : nat) :
  square n distance_matrix -> (1 <= n)%nat ->
  last (Opt.route v) = Some x -> (x < n)%nat ->
  exists v', return_if_away v = Ok v'.
Proof.
  intros [Hrows Hcols] Hn Hx Hlt. unfold Opt.return_if_away.
  rewrite (proj2 (subscript_neg_1 _ _) Hx). simpl.
  destruct (Nat.eqb_spec x 0) as [->|Hne]; simpl; [eauto|].
  unfold Opt.return_to_depot.
  rewrite (subscript_neg_2_snoc _ x 0%nat Hx). simpl.
  destruct (subscript_lt distance_matrix x) as (row & -> & Hrow); [lia|].
  simpl.
  assert (Hrowlen : length row = n).
  { rewrite Forall_forall in Hcols. apply Hcols.
    eapply list_elem_of_lookup_2. exact Hrow. }
  destruct (subscript_lt row 0) as (back & -> & _); [lia|].
  simpl. eauto.
Qed.

(** What one turn does. *)
Lemma Opt_body_step (s s' : Opt.state D) (k : ctl) :
  body s = Ok (k, s') ->
  exists v cur best,
    Opt.vehicles s !! Opt.current_vehicle s = Some v
    /\ last (Opt.route v) = Some cur
    /\ find_best distance_matrix demands capacity (Opt.visited s)
                 (Opt.load v) cur n = Ok best
    /\ match best with
       | Some (b, d) =>
           exists demand city,
             demands !! b = Some demand
             /\ (b < length (Opt.visited s))%nat
             /\ k = Continue
             /\ s' = Opt.State
                       (<[Opt.current_vehicle s :=
                            Opt.Vehicle (Opt.vehicle_id v)
                              (Opt.route v ++ [b]) (Opt.load v + demand)
                              (d_add (Opt.distance v) d)
                              (Opt.cities_ v ++ [city])]> (Opt.vehicles s))
                       (<[b := true]> (Opt.visited s))
                       (Opt.current_vehicle s)
       | None =>
           exists v',
             return_if_away v = Ok v'
             /\ s' = Opt.State (<[Opt.current_vehicle s := v']> (Opt.vehicles s))
                               (Opt.visited s) (S (Opt.current_vehicle s))
             /\ (k = Continue -> Z.of_nat (S (Opt.current_vehicle s)) < num_vehicles)
             /\ (k = Break -> num_vehicles <= Z.of_nat (S (Opt.current_vehicle s)))
       end.
Proof.
  unfold Opt.body.
  intros (v & Hv%subscript_Ok & Hrest)%bind_Ok.
  apply bind_Ok in Hrest as (cur & Hcur%subscript_neg_1 & Hrest).
  apply bind_Ok in Hrest as (best & Hbest & Hrest).
  exists v, cur, best. split_and!; auto.
  destruct best as [[b d]|].
  - apply bind_Ok in Hrest as (city & _ & Hrest).
    apply bind_Ok in Hrest as (demand & Hdem%subscript_Ok & Hrest).
    apply bind_Ok in Hrest as (visited' & [Hb ->]%assign_Ok & Hrest).
    injection Hrest as <- <-. exists demand, city. auto.
  - apply bind_Ok in Hrest as (v' & Hv' & Hrest).
    exists v'. split; [exact Hv'|].
    destruct (Z.leb_spec num_vehicles (Z.of_nat (S (Opt.current_vehicle s))));
      injection Hrest as <- <-; split_and!; auto; discriminate.
Qed.

Lemma Opt_body_turn (s s' : Opt.state D) (k : ctl) :
  body s = Ok (k, s') ->
  turn n demands num_vehicles capacity (Opt_view s) k (Opt_view s').
Proof.
  intros (v & cur & best & Hv & Hcur & Hbest & Hrest)%Opt_body_step.
  assert (Hview : map (fun v => (Opt.route v, Opt.load v)) (Opt.vehicles s)
                    !! Opt.current_vehicle s
                  = Some (Opt.route v, Opt.load v)).
  { rewrite list_lookup_fmap, Hv. reflexivity. }
  apply find_best_spec in Hbest.
  destruct best as [[b d]|].
  - destruct Hrest as (demand & city & Hdem & Hb & -> & ->).
    destruct Hbest as ((Hrange & Hvis & demand' & Hdem' & Hfit) & _).
    assert (demand' = demand) as -> by congruence.
    unfold Opt_view. simpl. rewrite list_fmap_insert. simpl.
    apply turn_assign; auto.
  - destruct Hrest as (v' & Hv' & -> & Hcont & Hbrk).
    apply Opt_return_if_away in Hv' as (x & _ & Hload & Hroute).
    unfold Opt_view. simpl. rewrite list_fmap_insert. simpl.
    rewrite Hload.
    eapply turn_close; eauto.
    destruct Hroute as [[_ ->] | [_ ->]]; auto.
Qed.

Lemma Opt_body_total (s : Opt.state D) :
  length cities = n -> length demands = n ->
  square n distance_matrix -> (1 <= n)%nat ->
  inv n demands num_vehicles capacity (Opt_view s) ->
  Z.of_nat (Opt.current_vehicle s) < num_vehicles ->
  exists k s', body s = Ok (k, s').
Proof.
  intros Hcities Hdemands Hsq Hn (Hlen & _ & Hnv & Hroutes & _) Hcur.
  simpl in *.
  rewrite length_map in Hnv.
  destruct (subscript_lt (Opt.vehicles s) (Opt.current_vehicle s))
    as (v & Hv & Hv'); [lia|].
  destruct (route_ok_last n demands capacity (Opt.current_vehicle s)
              (Opt.current_vehicle s) (Opt.route v, Opt.load v) Hn)
    as (cur & Hlast & Hlt).
  { apply Hroutes. rewrite list_lookup_fmap, Hv'. reflexivity. }
  simpl in Hlast.
  destruct (find_best_total distance_matrix demands capacity (Opt.visited s)
              (Opt.load v) cur n) as [best Hbest]; auto; [lia|].
  unfold Opt.body. rewrite Hv. simpl.
  rewrite (proj2 (subscript_neg_1 _ _) Hlast). simpl.
  rewrite Hbest. simpl.
  destruct best as [[b d]|].
  - apply find_best_spec in Hbest as ((Hrange & _ & demand & Hdem & _) & _).
    destruct (subscript_lt cities b) as (city & -> & _); [lia|]. simpl.
    rewrite (proj2 (subscript_Ok _ _ _) Hdem). simpl.
    unfold assign. destruct (Nat.ltb_spec b (length (Opt.visited s))); [|lia].
    simpl. eauto.
  - destruct (Opt_return_if_away_total v cur Hsq Hn Hlast Hlt) as [v' ->].
    simpl. destruct (num_vehicles <=? _); eauto.
Qed.

End OptProofs.

(** ** [greedy_route_optimization]: one turn of the loop *)

Section AppProofs.
Context {D : Type} `{Dist D}.
Variable distance_matrix : list (list D).
Variable n : nat.
Variable demands : list Z.
Variable num_vehicles : Z.
Variable capacity : Z.

Local Abbreviation body :=
  (App.body distance_matrix n demands num_vehicles capacity).
Local Abbreviation return_to_depot := (App.return_to_depot distance_matrix).

Lemma App_return_to_depot (r r' : App.route_t D) :
  return_to_depot r = Ok r' ->
  App.stops r' = App.stops r ++ [0%nat] /\ App.load r' = App.load r.
Proof.
  unfold App.return_to_depot.
  intros (prev & _ & Hrest)%bind_Ok.
  apply bind_Ok in Hrest as (row & _ & Hrest).
  apply bind_Ok in Hrest as (back & _ & [= <-]). simpl. auto.
Qed.

Lemma App_return_to_depot_total (r : App.route_t D) (x : nat) :
  square n distance_matrix -> (1 <= n)%nat ->
  last (App.stops r) = Some x -> (x < n)%nat ->
  exists r', return_to_depot r = Ok r'.
Proof.
  intros [Hrows Hcols] Hn Hx Hlt. unfold App.return_to_depot.
  rewrite (subscript_neg_2_snoc _ x 0%nat Hx). simpl.
  destruct (subscript_lt distance_matrix x) as (row & -> & Hrow); [lia|].
  simpl.
  assert (Hrowlen : length row = n).
  { rewrite Forall_forall in Hcols. apply Hcols.
    eapply list_elem_of_lookup_2. exact Hrow. }
  destruct (subscript_lt row 0) as (back & -> & _); [lia|].
  simpl. eauto.
Qed.

(** What one turn does. *)
Lemma App_body_step (s s' : App.state D) (k : ctl) :
  body s = Ok (k, s') ->
  exists r cur best,
    App.routes s !! App.current_vehicle s = Some r
    /\ last (App.stops r) = Some cur
    /\ find_best distance_matrix demands capacity (App.visited s)
                 (App.load r) cur n = Ok best
    /\ match best with
       | Some (b, d) =>
           exists demand,
             demands !! b = Some demand
             /\ (b < length (App.visited s))%nat
             /\ k = Continue
             /\ s' = App.State
                       (<[App.current_vehicle s :=
                            App.Route (App.stops r ++ [b])
                              (App.load r + demand)
                              (d_add (App.distance r) d)]> (App.routes s))
                       (<[b := true]> (App.visited s))
                       (App.current_vehicle s)
       | None =>
           exists r',
             return_to_depot r = Ok r'
             /\ s' = App.State (<[App.current_vehicle s := r']> (App.routes s))
                               (App.visited s) (S (App.current_vehicle s))
             /\ (k = Continue -> Z.of_nat (S (App.current_vehicle s)) < num_vehicles)
             /\ (k = Break -> num_vehicles <= Z.of_nat (S (App.current_vehicle s)))
       end.
Proof.
  unfold App.body.
  intros (r & Hr%subscript_Ok & Hrest)%bind_Ok.
  apply bind_Ok in Hrest as (cur & Hcur%subscript_neg_1 & Hrest).
  apply bind_Ok in Hrest as (best & Hbest & Hrest).
  exists r, cur, best. split_and!; auto.
  destruct best as [[b d]|].
  - apply bind_Ok in Hrest as (demand & Hdem%subscript_Ok & Hrest).
    apply bind_Ok in Hrest as (visited' & [Hb ->]%assign_Ok & Hrest).
    injection Hrest as <- <-. exists demand. auto.
  - apply bind_Ok in Hrest as (r' & Hr' & Hrest).
    exists r'. split; [exact Hr'|].
    destruct (Z.leb_spec num_vehicles (Z.of_nat (S (App.current_vehicle s))));
      injection Hrest as <- <-; split_and!; auto; discriminate.
Qed.

Lemma App_body_turn (s s' : App.state D) (k : ctl) :
  body s = Ok (k, s') ->
  turn n demands num_vehicles capacity (App_view s) k (App_view s').
Proof.
  intros (r & cur & best & Hr & Hcur & Hbest & Hrest)%App_body_step.
  assert (Hview : map (fun r => (App.stops r, App.load r)) (App.routes s)
                    !! App.current_vehicle s
                  = Some (App.stops r, App.load r)).
  { rewrite list_lookup_fmap, Hr. reflexivity. }
  apply find_best_spec in Hbest.
  destruct best as [[b d]|].
  - destruct Hrest as (demand & Hdem & Hb & -> & ->).
    destruct Hbest as ((Hrange & Hvis & demand' & Hdem' & Hfit) & _).
    assert (demand' = demand) as -> by congruence.
    unfold App_view. simpl. rewrite list_fmap_insert. simpl.
    apply turn_assign; auto.
  - destruct Hrest as (r' & Hr' & -> & Hcont & Hbrk).
    apply App_return_to_depot in Hr' as [Hstops Hload].
    unfold App_view. simpl. rewrite list_fmap_insert. simpl.
    rewrite Hload, Hstops.
    eapply turn_close; eauto.
Qed.

Lemma App_body_total (s : App.state D) :
  length demands = n ->
  square n distance_matrix -> (1 <= n)%nat ->
  inv n demands num_vehicles capacity (App_view s) ->
  Z.of_nat (App.current_vehicle s) < num_vehicles ->
  exists k s', body s = Ok (k, s').
Proof.
  intros Hdemands Hsq Hn (Hlen & _ & Hnv & Hroutes & _) Hcur.
  simpl in *.
  rewrite length_map in Hnv.
  destruct (subscript_lt (App.routes s) (App.current_vehicle s))
    as (r & Hr & Hr'); [lia|].
  destruct (route_ok_last n demands capacity (App.current_vehicle s)
              (App.current_vehicle s) (App.stops r, App.load r) Hn)
    as (cur & Hlast & Hlt).
  { apply Hroutes. rewrite list_lookup_fmap, Hr'. reflexivity. }
  simpl in Hlast.
  destruct (find_best_total distance_matrix demands capacity (App.visited s)
              (App.load r) cur n) as [best Hbest]; auto; [lia|].
  unfold App.body. rewrite Hr. simpl.
  rewrite (proj2 (subscript_neg_1 _ _) Hlast). simpl.
  rewrite Hbest. simpl.
  destruct best as [[b d]|].
  - apply find_best_spec in Hbest as ((Hrange & _ & demand & Hdem & _) & _).
    rewrite (proj2 (subscript_Ok _ _ _) Hdem). simpl.
    unfold assign. destruct (Nat.ltb_spec b (length (App.visited s))); [|lia].
    simpl. eauto.
  - destruct (App_return_to_depot_total r cur Hsq Hn Hlast Hlt) as [r' ->].
    simpl. destruct (num_vehicles <=? _); eauto.
Qed.

End AppProofs.

(** ** Closing the routes *)

Lemma depot_at_ends_alone : depot_at_ends [0%nat].
Proof.
  unfold depot_at_ends. split_and!.
  - reflexivity.
  - simpl. lia.
  - intros [|k] Hk; [auto | discriminate].
Qed.

Lemma depot_at_ends_closed (mid : list nat) :
  Forall (fun i => i <> 0%nat) mid -> depot_at_ends (0%nat :: mid ++ [0%nat]).
Proof.
  intros Hmid. unfold depot_at_ends. split_and!.
  - reflexivity.
  - intros _. change (0%nat :: mid ++ [0%nat]) with ((0%nat :: mid) ++ [0%nat]).
    apply last_snoc.
  - intros [|k] Hk; [auto|]. right. simpl in Hk.
    simpl. rewrite length_app. simpl.
    destruct (decide (k < length mid)%nat) as [Hlt|Hge].
    + rewrite lookup_app_l in Hk by exact Hlt.
      rewrite Forall_forall in Hmid.
      destruct (Hmid 0%nat); [|reflexivity].
      eapply list_elem_of_lookup_2. exact Hk.
    + apply lookup_lt_Some in Hk. rewrite length_app in Hk. simpl in Hk. lia.
Qed.

(** A route of the invariant, once the depot is appended where the last
    stop is not the depot already. *)
Lemma closing_shape (n : nat) (demands : list Z) (capacity : Z) (c k : nat)
    (stops : list nat) (load : Z) (x : nat) :
  route_ok n demands capacity c k (stops, load) ->
  last stops = Some x ->
  (x = 0%nat -> depot_at_ends stops)
  /\ (x <> 0%nat -> depot_at_ends (stops ++ [0%nat]) /\ (1 < length stops)%nat).
Proof.
  intros (mid & tail & Hshape & Hmid & Htail & _) Hlast.
  simpl in Hshape. subst stops.
  assert (Hnz : Forall (fun i => i <> 0%nat) mid).
  { eapply Forall_impl; [exact Hmid|]. simpl. intros i Hi. lia. }
  destruct Htail as [-> | ->].
  - rewrite app_nil_r in *.
    destruct (decide (mid = [])) as [->|Hne].
    + simpl in Hlast. injection Hlast as <-.
      split; [intros _; apply depot_at_ends_alone | congruence].
    + destruct (exists_last Hne) as (mid' & y & ->).
      change (0%nat :: mid' ++ [y]) with ((0%nat :: mid') ++ [y]) in Hlast.
      rewrite last_snoc in Hlast. injection Hlast as ->.
      apply Forall_app in Hnz as Hnz'. destruct Hnz' as [_ Hx].
      inversion Hx; subst.
      split; [congruence|]. intros _. split.
      * apply (depot_at_ends_closed (mid' ++ [x])). exact Hnz.
      * simpl. rewrite length_app. simpl. lia.
  - change (0%nat :: mid ++ [0%nat]) with ((0%nat :: mid) ++ [0%nat]) in Hlast.
    rewrite last_snoc in Hlast. injection Hlast as <-.
    split; [|congruence]. intros _. apply depot_at_ends_closed, Hnz.
Qed.

Section CloseProofs.
Context {D : Type} `{Dist D}.
Variable distance_matrix : list (list D).
Variable n : nat.
Variable demands : list Z.
Variable capacity : Z.
Hypothesis Hsquare : square n distance_matrix.
Hypothesis Hn : (1 <= n)%nat.

(** What closing does to a vehicle of [simple_vrp]. *)
Lemma Opt_close_vehicle_spec (c k : nat) (v v' : Opt.vehicle D) :
  route_ok n demands capacity c k (Opt.route v, Opt.load v) ->
  Opt.close_vehicle distance_matrix v = Ok v' ->
  depot_at_ends (Opt.route v')
  /\ customers (Opt.route v') = customers (Opt.route v)
  /\ Opt.load v' = Opt.load v
  /\ (Opt.route v = [0%nat] -> Opt.route v' = [0%nat]
                               /\ Opt.distance v' = d_round2 (Opt.distance v)).
Proof.
  clear Hsquare Hn. intros Hok. unfold Opt.close_vehicle.
  intros (w & Hw & [= <-])%bind_Ok. simpl.
  apply Opt_return_if_away in Hw as (x & Hlast & Hload & Hroute).
  destruct (closing_shape _ _ _ _ _ _ _ x Hok Hlast) as [Hzero Haway].
  destruct Hroute as [[-> ->] | [Hx ->]].
  - split_and!; auto.
  - split_and!; auto.
    + apply Haway, Hx.
    + apply customers_snoc_depot.
    + intros Hr. rewrite Hr in Hlast. simpl in Hlast. congruence.
Qed.

Lemma Opt_close_vehicle_total (c k : nat) (v : Opt.vehicle D) :
  route_ok n demands capacity c k (Opt.route v, Opt.load v) ->
  exists v', Opt.close_vehicle distance_matrix v = Ok v'.
Proof.
  intros Hok.
  destruct (route_ok_last _ _ _ _ _ _ Hn Hok) as (x & Hlast & Hlt).
  destruct (Opt_return_if_away_total distance_matrix n v x Hsquare Hn Hlast Hlt)
    as [w Hw].
  unfold Opt.close_vehicle. rewrite Hw. simpl. eauto.
Qed.

(** What closing does to a route of [greedy_route_optimization]. *)
Lemma App_close_route_spec (c k : nat) (r r' : App.route_t D) :
  route_ok n demands capacity c k (App.stops r, App.load r) ->
  App.close_route distance_matrix r = Ok r' ->
  depot_at_ends (App.stops r')
  /\ customers (App.stops r') = customers (App.stops r)
  /\ App.load r' = App.load r
  /\ (App.stops r = [0%nat] -> r' = r).
Proof.
  clear Hsquare Hn. intros Hok. unfold App.close_route.
  intros (x & Hlast%subscript_neg_1 & Hrest)%bind_Ok.
  destruct (closing_shape _ _ _ _ _ _ _ x Hok Hlast) as [Hzero Haway].
  destruct (Nat.eqb_spec x 0) as [->|Hne]; simpl in Hrest.
  - injection Hrest as <-. split_and!; auto.
  - destruct (Haway Hne) as [Hends Hlen].
    destruct (Nat.ltb_spec 1 (length (App.stops r))); [|lia].
    apply App_return_to_depot in Hrest as [-> ->].
    split_and!; auto.
    + apply customers_snoc_depot.
    + intros Hr. rewrite Hr in Hlast. simpl in Hlast. congruence.
Qed.

Lemma App_close_route_total (c k : nat) (r : App.route_t D) :
  route_ok n demands capacity c k (App.stops r, App.load r) ->
  exists r', App.close_route distance_matrix r = Ok r'.
Proof.
  intros Hok.
  destruct (route_ok_last _ _ _ _ _ _ Hn Hok) as (x & Hlast & Hlt).
  simpl in Hlast. unfold App.close_route.
  rewrite (proj2 (subscript_neg_1 _ _) Hlast). simpl.
  destruct (_ && _); [|eauto].
  apply (App_return_to_depot_total distance_matrix n r x); auto.
Qed.

End CloseProofs.

(** ** The construction pass of each builder *)

Lemma unvisited_initial (n : nat) :
  (1 <= n)%nat ->
  (length (filter (fun x => x = false) (<[0%nat := true]> (replicate n false)))
   <= n - 1)%nat.
Proof.
  intros Hn.
  assert (Hlook : replicate n false !! 0%nat = Some false)
    by (apply lookup_replicate; split; [reflexivity | lia]).
  pose proof (unvisited_insert _ _ Hlook) as Heq.
  pose proof (length_filter (fun x => x = false) (replicate n false)) as Hle.
  rewrite length_replicate in Hle. lia.
Qed.

Section RunProofs.
Context {D : Type} `{Dist D}.
Variable distance_matrix : list (list D).
Variable cities : list string.
Variable n : nat.
Variable demands : list Z.
Variable num_vehicles : Z.
Variable capacity : Z.

Local Abbreviation inv := (inv n demands num_vehicles capacity).
Local Abbreviation bound := (n - 1 + Z.to_nat num_vehicles)%nat.

(** *** [simple_vrp] *)

Local Abbreviation Opt_construction :=
  (Opt.construction distance_matrix cities n demands num_vehicles capacity).

Lemma Opt_initial :
  (1 <= n)%nat ->
  exists s0, Opt.initial n num_vehicles = Ok s0
    /\ Opt_view s0
       = View (map (fun _ => ([0%nat], 0)) (seq 0 (Z.to_nat num_vehicles)))
              (<[0%nat := true]> (replicate n false)) 0.
Proof.
  intros Hn. unfold Opt.initial, assign. rewrite length_replicate.
  destruct (Nat.ltb_spec 0 n); [|lia]. simpl.
  eexists. split; [reflexivity|]. unfold Opt_view. simpl.
  rewrite map_map. reflexivity.
Qed.

(** The loop of [simple_vrp] ends on every input. *)
Lemma Opt_construction_ends (fuel : nat) :
  (n + Z.to_nat num_vehicles <= fuel)%nat ->
  exists k r, Opt_construction fuel = Some (k, r) /\ (k <= bound)%nat.
Proof.
  intros Hfuel. unfold Opt.construction.
  destruct (Nat.le_gt_cases 1 n) as [Hn|Hn].
  - destruct (Opt_initial Hn) as (s0 & -> & Hview).
    destruct (pass_ends n demands num_vehicles capacity Opt_view
                Opt.unfinished
                (Opt.body distance_matrix cities n demands num_vehicles capacity)
                (fun s => eq_refl)
                (Opt_body_turn distance_matrix cities n demands num_vehicles capacity)
                fuel s0) as (k & r & Hw & Hk).
    + rewrite Hview. unfold measure. simpl.
      pose proof (unvisited_initial n Hn). lia.
    + exists k, r. split; [exact Hw|].
      rewrite Hview in Hk. unfold measure in Hk. simpl in Hk.
      pose proof (unvisited_initial n Hn). lia.
  - assert (n = 0%nat) as -> by lia. simpl.
    exists 0%nat. eexists. split; [reflexivity | lia].
Qed.

(** On a valid input it ends without an exception, the invariant holding. *)
Lemma Opt_construction_result (fuel : nat) :
  length cities = n -> length demands = n ->
  square n distance_matrix -> (1 <= n)%nat -> 0 < num_vehicles ->
  (n + Z.to_nat num_vehicles <= fuel)%nat ->
  exists k s_end,
    Opt_construction fuel = Some (k, Ok s_end)
    /\ (k <= bound)%nat
    /\ inv (Opt_view s_end)
    /\ (Opt.unfinished s_end = false
        \/ num_vehicles <= Z.of_nat (Opt.current_vehicle s_end)).
Proof.
  intros Hcities Hdemands Hsq Hn Hnv Hfuel. unfold Opt.construction.
  destruct (Opt_initial Hn) as (s0 & -> & Hview).
  pose proof (unvisited_initial n Hn) as Hunv.
  destruct (pass_result n demands num_vehicles capacity Opt_view
              Opt.unfinished
              (Opt.body distance_matrix cities n demands num_vehicles capacity)
              (fun s => eq_refl)
              (Opt_body_turn distance_matrix cities n demands num_vehicles capacity))
    with (fuel := fuel) (s0 := s0) as (k & s_end & Hw & Hk & Hinv & Hexit).
  - intros s [Hinv Hcur] _.
    apply Opt_body_total; auto.
  - rewrite Hview. split; [apply initial_inv, Hn | simpl; lia].
  - rewrite Hview. unfold measure. simpl. lia.
  - exists k, s_end. split_and!; auto.
    rewrite Hview in Hk. unfold measure in Hk. simpl in Hk. lia.
Qed.

(** *** [greedy_route_optimization] *)

Local Abbreviation App_construction :=
  (App.construction distance_matrix n demands num_vehicles capacity).

Lemma App_initial :
  (1 <= n)%nat ->
  exists s0, App.initial n num_vehicles = Ok s0
    /\ App_view s0
       = View (map (fun _ => ([0%nat], 0)) (seq 0 (Z.to_nat num_vehicles)))
              (<[0%nat := true]> (replicate n false)) 0.
Proof.
  intros Hn. unfold App.initial, assign. rewrite length_replicate.
  destruct (Nat.ltb_spec 0 n); [|lia]. simpl.
  eexists. split; [reflexivity|]. unfold App_view. simpl.
  rewrite map_map. reflexivity.
Qed.

(** The loop of [greedy_route_optimization] ends on every input. *)
Lemma App_construction_ends (fuel : nat) :
  (n + Z.to_nat num_vehicles <= fuel)%nat ->
  exists k r, App_construction fuel = Some (k, r) /\ (k <= bound)%nat.
Proof.
  intros Hfuel. unfold App.construction.
  destruct (Nat.le_gt_cases 1 n) as [Hn|Hn].
  - destruct (App_initial Hn) as (s0 & -> & Hview).
    destruct (pass_ends n demands num_vehicles capacity App_view
                App.unfinished
                (App.body distance_matrix n demands num_vehicles capacity)
                (fun s => eq_refl)
                (App_body_turn distance_matrix n demands num_vehicles capacity)
                fuel s0) as (k & r & Hw & Hk).
    + rewrite Hview. unfold measure. simpl.
      pose proof (unvisited_initial n Hn). lia.
    + exists k, r. split; [exact Hw|].
      rewrite Hview in Hk. unfold measure in Hk. simpl in Hk.
      pose proof (unvisited_initial n Hn). lia.
  - assert (n = 0%nat) as -> by lia. simpl.
    exists 0%nat. eexists. split; [reflexivity | lia].
Qed.

(** On a valid input it ends without an exception, the invariant holding. *)
Lemma App_construction_result (fuel : nat) :
  length demands = n ->
  square n distance_matrix -> (1 <= n)%nat -> 0 < num_vehicles ->
  (n + Z.to_nat num_vehicles <= fuel)%nat ->
  exists k s_end,
    App_construction fuel = Some (k, Ok s_end)
    /\ (k <= bound)%nat
    /\ inv (App_view s_end)
    /\ (App.unfinished s_end = false
        \/ num_vehicles <= Z.of_nat (App.current_vehicle s_end)).
Proof.
  intros Hdemands Hsq Hn Hnv Hfuel. unfold App.construction.
  destruct (App_initial Hn) as (s0 & -> & Hview).
  pose proof (unvisited_initial n Hn) as Hunv.
  destruct (pass_result n demands num_vehicles capacity App_view
              App.unfinished
              (App.body distance_matrix n demands num_vehicles capacity)
              (fun s => eq_refl)
              (App_body_turn distance_matrix n demands num_vehicles capacity))
    with (fuel := fuel) (s0 := s0) as (k & s_end & Hw & Hk & Hinv & Hexit).
  - intros s [Hinv Hcur] _.
    apply App_body_total; auto.
  - rewrite Hview. split; [apply initial_inv, Hn | simpl; lia].
  - rewrite Hview. unfold measure. simpl. lia.
  - exists k, s_end. split_and!; auto.
    rewrite Hview in Hk. unfold measure in Hk. simpl in Hk. lia.
Qed.

End RunProofs.

(** ** From the last state of the loop to the routes returned *)

Section Closed.
Variable n : nat.
Variable demands : list Z.
Variable capacity : Z.
Context {A B : Type}.
Variable before : A -> list nat * Z.
Variable after : B -> list nat * Z.
Variable close : A -> B -> Prop.

Hypothesis close_spec :
  forall c k a b,
    route_ok n demands capacity c k (before a) -> close a b ->
    depot_at_ends (after b).1
    /\ customers (after b).1 = customers (before a).1
    /\ (after b).2 = (before a).2.

Lemma closed_routes (c : nat) (vs : list A) (res : list B) :
  (forall k r, map before vs !! k = Some r ->
               route_ok n demands capacity c k r) ->
  Forall2 close vs res ->
  length res = length vs
  /\ Forall (fun b => depot_at_ends (after b).1
                      /\ (after b).2 = route_demand demands (after b).1
                      /\ (0 <= capacity -> (after b).2 <= capacity)) res
  /\ all_customers (map after res) = all_customers (map before vs).
Proof.
  intros Hok Hclose. split_and!.
  - symmetry. eapply Forall2_length, Hclose.
  - apply Forall_lookup. intros k b Hb.
    destruct (Forall2_lookup_r _ _ _ _ _ Hclose Hb) as (a & Ha & Hab).
    assert (Hra : route_ok n demands capacity c k (before a)).
    { apply Hok. rewrite list_lookup_fmap, Ha. reflexivity. }
    destruct (close_spec c k a b Hra Hab) as (Hends & Hcust & Hload).
    destruct Hra as (mid & tail & _ & _ & _ & Hsum & Hcap & _).
    split_and!; auto.
    + rewrite Hload, Hsum. unfold route_demand. rewrite Hcust. reflexivity.
    + rewrite Hload. exact Hcap.
  - unfold all_customers. rewrite !map_map. f_equal.
    apply list_eq. intros i. rewrite !list_lookup_fmap.
    destruct (vs !! i) as [a|] eqn:Ha.
    + destruct (Forall2_lookup_l _ _ _ _ _ Hclose Ha) as (b & -> & Hab).
      simpl. f_equal. apply (close_spec c i a b); [|exact Hab].
      apply Hok. rewrite list_lookup_fmap, Ha. reflexivity.
    + apply lookup_ge_None in Ha.
      rewrite (Forall2_length _ _ _ Hclose) in Ha.
      apply lookup_ge_None in Ha. rewrite Ha. reflexivity.
Qed.

End Closed.

(** ** The builders on a valid input *)

Lemma all_visited (vis : list bool) (i : nat) :
  forallb (fun b : bool => b) vis = true -> (i < length vis)%nat ->
  vis !! i = Some true.
Proof.
  intros Hall Hi. rewrite forallb_forall in Hall.
  destruct (lookup_lt_is_Some_2 vis i Hi) as [b Hb].
  rewrite Hb. f_equal. apply Hall. apply list_elem_of_In.
  eapply list_elem_of_lookup_2, Hb.
Qed.

Section Results.
Context {D : Type} `{Dist D}.
Variable create_distance_matrix : list string -> list (list D).
Variable locations : list string.
Variable demands : list Z.
Variable num_vehicles : Z.
Variable capacity : Z.
Hypothesis Hvalid :
  valid_input (create_distance_matrix locations) locations demands num_vehicles.

Local Abbreviation n := (length locations).
Local Abbreviation distance_matrix := (create_distance_matrix locations).

Lemma valid_nonempty : (1 <= n)%nat.
Proof.
  destruct Hvalid as (Hlen & Hdepot & _). rewrite Hlen.
  apply lookup_lt_Some in Hdepot. lia.
Qed.

Local Abbreviation returned_ok := (routes_ok n demands num_vehicles capacity).

Lemma routes_ok_intro {A B : Type} (before : A -> list nat * Z)
    (after : B -> list nat * Z) (close : A -> B -> Prop)
    (vs : list A) (vis : list bool) (c : nat) (res : list B) :
  (forall c k a b,
      route_ok n demands capacity c k (before a) -> close a b ->
      depot_at_ends (after b).1
      /\ customers (after b).1 = customers (before a).1
      /\ (after b).2 = (before a).2) ->
  inv n demands num_vehicles capacity (View (map before vs) vis c) ->
  Forall2 close vs res ->
  returned_ok vis (map after res).
Proof.
  intros Hspec (Hlen & Hdepot & Hnv & Hroutes & Hnodup & Hmem) Hclose.
  simpl in *.
  destruct (closed_routes n demands capacity before after close Hspec c vs res
              Hroutes Hclose) as (Hlen' & Hall & Hsame).
  assert (Hserved : served (map fst (map after res))
                    = all_customers (map before vs)).
  { rewrite <- Hsame. unfold served, all_customers.
    rewrite !map_map. reflexivity. }
  unfold routes_ok. rewrite Hserved. split_and!; auto.
  - rewrite length_map, Hlen'. rewrite length_map in Hnv. exact Hnv.
  - apply Forall_fmap. exact Hall.
  - intros i. rewrite Hmem. split.
    + intros [Hi Hv]. split; [|exact Hv].
      apply lookup_lt_Some in Hv. lia.
    + intros [Hi Hv]. split; [lia | exact Hv].
Qed.

(** [simple_vrp] on a valid input. *)
Lemma Opt_simple_vrp_result :
  exists k s_end r,
    Opt.construction distance_matrix locations n demands num_vehicles capacity
                     (Opt.enough_fuel n num_vehicles) = Some (k, Ok s_end)
    /\ Opt.simple_vrp_over create_distance_matrix locations demands
                           num_vehicles capacity = Some (Ok r)
    /\ (Opt.unfinished s_end = false
        \/ num_vehicles <= Z.of_nat (Opt.current_vehicle s_end))
    /\ returned_ok (Opt.visited s_end)
                 (map (fun v => (Opt.route v, Opt.load v)) (Opt.res_vehicles r)).
Proof.
  pose proof valid_nonempty as Hn.
  destruct Hvalid as (Hlen & Hdepot & Hnv & Hsq).
  destruct (Opt_construction_result distance_matrix locations n demands
              num_vehicles capacity (Opt.enough_fuel n num_vehicles))
    as (k & s_end & Hrun & _ & Hinv & Hexit); auto.
  { unfold Opt.enough_fuel. lia. }
  assert (Hclose : exists vs,
             for_each (Opt.close_vehicle distance_matrix) (Opt.vehicles s_end)
             = Ok vs).
  { apply for_each_total. apply Forall_lookup. intros j v Hv.
    destruct Hinv as (_ & _ & _ & Hroutes & _). simpl in Hroutes.
    eapply (Opt_close_vehicle_total distance_matrix n demands capacity Hsq Hn
              (Opt.current_vehicle s_end) j).
    apply Hroutes. rewrite list_lookup_fmap, Hv. reflexivity. }
  destruct Hclose as [vs Hvs].
  exists k, s_end,
    (Opt.VrpResult vs (d_round2 (Opt.sum_distances vs)) distance_matrix).
  split; [exact Hrun|]. split; [|split; [exact Hexit|]].
  - unfold Opt.simple_vrp_over. rewrite Hlen, Nat.eqb_refl. simpl.
    rewrite (proj2 (subscript_Ok _ _ _) Hdepot). simpl.
    unfold Opt.solve. rewrite <- Hlen, Hrun, Hvs. reflexivity.
  - simpl. apply for_each_Ok in Hvs.
    eapply (routes_ok_intro (fun v => (Opt.route v, Opt.load v))
              (fun v => (Opt.route v, Opt.load v))
              (fun v v' => Opt.close_vehicle distance_matrix v = Ok v'));
      [|exact Hinv|exact Hvs].
    intros c j a b Hok Hab. simpl.
    destruct (Opt_close_vehicle_spec distance_matrix n demands capacity
                c j a b Hok Hab) as (? & ? & ? & _). auto.
Qed.

(** [greedy_route_optimization] on a valid input. *)
Lemma App_greedy_result :
  exists k s_end routes,
    App.construction distance_matrix n demands num_vehicles capacity
                     (App.enough_fuel n num_vehicles) = Some (k, Ok s_end)
    /\ App.greedy_route_optimization_over create_distance_matrix locations
                                          demands num_vehicles capacity
       = Some (Ok routes)
    /\ (App.unfinished s_end = false
        \/ num_vehicles <= Z.of_nat (App.current_vehicle s_end))
    /\ returned_ok (App.visited s_end)
                 (map (fun r => (App.stops r, App.load r)) routes).
Proof.
  pose proof valid_nonempty as Hn.
  destruct Hvalid as (Hlen & Hdepot & Hnv & Hsq).
  destruct (App_construction_result distance_matrix n demands
              num_vehicles capacity (App.enough_fuel n num_vehicles))
    as (k & s_end & Hrun & _ & Hinv & Hexit); auto.
  { unfold App.enough_fuel. lia. }
  assert (Hclose : exists rs,
             for_each (App.close_route distance_matrix) (App.routes s_end)
             = Ok rs).
  { apply for_each_total. apply Forall_lookup. intros j r Hr.
    destruct Hinv as (_ & _ & _ & Hroutes & _). simpl in Hroutes.
    eapply (App_close_route_total distance_matrix n demands capacity Hsq Hn
              (App.current_vehicle s_end) j).
    apply Hroutes. rewrite list_lookup_fmap, Hr. reflexivity. }
  destruct Hclose as [rs Hrs].
  exists k, s_end, rs.
  split; [exact Hrun|]. split; [|split; [exact Hexit|]].
  - unfold App.greedy_route_optimization_over, App.optimize.
    rewrite Hrun, Hrs. reflexivity.
  - apply for_each_Ok in Hrs.
    eapply (routes_ok_intro (fun r => (App.stops r, App.load r))
              (fun r => (App.stops r, App.load r))
              (fun r r' => App.close_route distance_matrix r = Ok r'));
      [|exact Hinv|exact Hrs].
    intros c j a b Hok Hab. simpl.
    destruct (App_close_route_spec distance_matrix n demands capacity
                c j a b Hok Hab) as (? & ? & ? & _). auto.
Qed.

End Results.

(** ** The distance oracle *)

Section OracleProofs.
Local Open Scope R_scope.

Lemma haversine_a_sym (lat1 lon1 lat2 lon2 : R) :
  Oracle.haversine_a lat1 lon1 lat2 lon2
  = Oracle.haversine_a lat2 lon2 lat1 lon1.
Proof.
  unfold Oracle.haversine_a, Oracle.radians.
  replace ((lat1 - lat2) * (PI / 180) / 2)
    with (- ((lat2 - lat1) * (PI / 180) / 2)) by lra.
  replace ((lon1 - lon2) * (PI / 180) / 2)
    with (- ((lon2 - lon1) * (PI / 180) / 2)) by lra.
  rewrite !sin_neg. ring.
Qed.

Lemma haversine_a_same (lat lon : R) : Oracle.haversine_a lat lon lat lon = 0.
Proof.
  unfold Oracle.haversine_a, Oracle.radians.
  replace ((lat - lat) * (PI / 180) / 2) with 0 by lra.
  replace ((lon - lon) * (PI / 180) / 2) with 0 by lra.
  rewrite sin_0. ring.
Qed.

(** The radicands of [haversine_distance] are never negative: [math.sqrt]
    does not raise. *)
Lemma haversine_a_range (lat1 lon1 lat2 lon2 : R) :
  0 <= Oracle.haversine_a lat1 lon1 lat2 lon2 <= 1.
Proof.
  unfold Oracle.haversine_a, Oracle.radians.
  set (p := lat1 * (PI / 180)). set (q := lat2 * (PI / 180)).
  replace ((lat2 - lat1) * (PI / 180) / 2) with ((q - p) / 2)
    by (unfold p, q; lra).
  set (x := (q - p) / 2). set (y := (lon2 - lon1) * (PI / 180) / 2).
  assert (Hprod : cos p * cos q = (1 + cos (p + q)) / 2 - sin x ^ 2).
  { assert (Hm : cos (q - p) = 1 - 2 * sin x * sin x).
    { rewrite <- cos_2a_sin. f_equal. unfold x. lra. }
    rewrite cos_minus in Hm. rewrite cos_plus. lra. }
  rewrite Hprod.
  pose proof (COS_bound (p + q)) as [Hc1 Hc2].
  pose proof (pow2_ge_0 (sin x)) as Hs0.
  pose proof (pow2_ge_0 (sin y)) as Ht0.
  assert (Hs1 : sin x ^ 2 <= 1).
  { pose proof (SIN_bound x) as [? ?]. nra. }
  assert (Ht1 : sin y ^ 2 <= 1).
  { pose proof (SIN_bound y) as [? ?]. nra. }
  split; nra.
Qed.

Lemma haversine_distance_sym (lat1 lon1 lat2 lon2 : R) :
  Oracle.haversine_distance lat1 lon1 lat2 lon2
  = Oracle.haversine_distance lat2 lon2 lat1 lon1.
Proof.
  unfold Oracle.haversine_distance.
  rewrite (haversine_a_sym lat1 lon1 lat2 lon2). reflexivity.
Qed.

Lemma haversine_distance_same (lat lon : R) :
  Oracle.haversine_distance lat lon lat lon = 0.
Proof.
  unfold Oracle.haversine_distance. rewrite haversine_a_same.
  rewrite Rminus_0_r, sqrt_0, sqrt_1.
  unfold Oracle.atan2. destruct (Rlt_dec 0 1) as [_|Hn]; [|lra].
  replace (0 / 1) with 0 by lra. rewrite atan_0. ring.
Qed.

Lemma round2_0 : Oracle.round2 0 = 0.
Proof.
  unfold Oracle.round2, Oracle.round_half_even.
  rewrite Rmult_0_l, fp_R0.
  destruct (Rlt_dec 0 (1 / 2)) as [_|Hn]; [|lra].
  unfold Int_part. rewrite <- (tech_up 0 1) by (simpl; lra).
  change (IZR (1 - 1)) with 0. lra.
Qed.

End OracleProofs.

(** Comparison of floats that are numbers is an order. *)
#[global] Instance DistOrder_R : DistOrder R.
Proof.
  split; simpl.
  - intros x y. destruct (Rlt_dec x y), (Rlt_dec y x); auto; lra.
  - intros x y z. destruct (Rlt_dec x y), (Rlt_dec x z), (Rlt_dec z y);
      auto; try discriminate; lra.
Qed.

#[global] Instance DistOrder_Z : DistOrder Z.
Proof.
  split; simpl.
  - intros x y. lia.
  - intros x y z. lia.
Qed.

(** ** The matrix builders *)

Lemma matrix_cell {D : Type} `{Dist D} (f : nat -> nat -> D) (n i j : nat) :
  (i < n)%nat -> (j < n)%nat ->
  cell (map (fun i => map (fun j => f i j) (seq 0 n)) (seq 0 n)) i j = f i j.
Proof.
  intros Hi Hj. unfold cell.
  rewrite (nth_lookup_Some _ i _ (map (fun j => f i j) (seq 0 n))).
  - apply nth_lookup_Some. rewrite list_lookup_fmap.
    rewrite lookup_seq_lt by exact Hj. reflexivity.
  - rewrite list_lookup_fmap. rewrite lookup_seq_lt by exact Hi. reflexivity.
Qed.

Lemma matrix_square {D : Type} (f : nat -> nat -> D) (n : nat) :
  square n (map (fun i => map (fun j => f i j) (seq 0 n)) (seq 0 n)).
Proof.
  split.
  - rewrite length_map. apply length_seq.
  - apply Forall_fmap, Forall_forall. intros i _. simpl.
    rewrite length_map. apply length_seq.
Qed.

Lemma App_create_distance_matrix_square (locations : list string) :
  square (length locations) (App.create_distance_matrix locations).
Proof. apply matrix_square. Qed.

Lemma Opt_create_distance_matrix_square (cities : list string) :
  square (length cities) (Opt.create_distance_matrix cities).
Proof. apply matrix_square. Qed.

Lemma App_create_distance_matrix_cell (locations : list string) (i j : nat) :
  (i < length locations)%nat -> (j < length locations)%nat ->
  cell (App.create_distance_matrix locations) i j
  = if (i =? j)%nat then 0%R else App.entry locations i j.
Proof.
  intros Hi Hj. unfold App.create_distance_matrix.
  apply (matrix_cell
           (fun i j => if (i =? j)%nat then 0%R else App.entry locations i j));
    assumption.
Qed.

Lemma Opt_create_distance_matrix_cell (cities : list string) (i j : nat) :
  (i < length cities)%nat -> (j < length cities)%nat ->
  cell (Opt.create_distance_matrix cities) i j
  = if (i =? j)%nat then 0%R else Opt.entry cities i j.
Proof.
  intros Hi Hj. unfold Opt.create_distance_matrix.
  apply (matrix_cell
           (fun i j => if (i =? j)%nat then 0%R else Opt.entry cities i j));
    assumption.
Qed.

Lemma App_entry_sym (locations : list string) (i j : nat) :
  App.entry locations i j = App.entry locations j i.
Proof. unfold App.entry. rewrite haversine_distance_sym. reflexivity. Qed.

Lemma Opt_entry_sym (cities : list string) (i j : nat) :
  Opt.entry cities i j = Opt.entry cities j i.
Proof.
  unfold Opt.entry.
  destruct (Opt.PUNJAB_CITIES !! lower (nth i cities "")) as [c1|],
           (Opt.PUNJAB_CITIES !! lower (nth j cities "")) as [c2|];
    try reflexivity.
  rewrite haversine_distance_sym. reflexivity.
Qed.

(** ** One turn follows the selection rule *)

Section GreedyTurn.
Context {D : Type} `{DistOrder D}.
Variable distance_matrix : list (list D).
Variable cities : list string.
Variable n : nat.
Variable demands : list Z.
Variable num_vehicles : Z.
Variable capacity : Z.

Lemma Opt_body_greedy (s s' : Opt.state D) (k : ctl) :
  Opt.body distance_matrix cities n demands num_vehicles capacity s = Ok (k, s') ->
  greedy_turn distance_matrix n demands capacity (Opt_view s) k (Opt_view s').
Proof.
  intros (v & cur & best & Hv & Hcur & Hbest & Hrest)%Opt_body_step.
  exists (Opt.route v), (Opt.load v), cur. simpl.
  split; [rewrite list_lookup_fmap, Hv; reflexivity|].
  split; [exact Hcur|].
  apply find_best_spec in Hbest.
  destruct best as [[b d]|].
  - left. destruct Hrest as (demand & city & Hdem & Hb & -> & ->).
    destruct Hbest as (_ & _ & Hnearest).
    exists b, demand. simpl. split_and!; auto.
    rewrite list_fmap_insert. apply list_lookup_insert_eq.
    rewrite length_map. eapply lookup_lt_Some, Hv.
  - right. destruct Hrest as (v' & _ & -> & _). simpl. auto.
Qed.

Lemma App_body_greedy (s s' : App.state D) (k : ctl) :
  App.body distance_matrix n demands num_vehicles capacity s = Ok (k, s') ->
  greedy_turn distance_matrix n demands capacity (App_view s) k (App_view s').
Proof.
  intros (r & cur & best & Hr & Hcur & Hbest & Hrest)%App_body_step.
  exists (App.stops r), (App.load r), cur. simpl.
  split; [rewrite list_lookup_fmap, Hr; reflexivity|].
  split; [exact Hcur|].
  apply find_best_spec in Hbest.
  destruct best as [[b d]|].
  - left. destruct Hrest as (demand & Hdem & Hb & -> & ->).
    destruct Hbest as (_ & _ & Hnearest).
    exists b, demand. simpl. split_and!; auto.
    rewrite list_fmap_insert. apply list_lookup_insert_eq.
    rewrite length_map. eapply lookup_lt_Some, Hr.
  - right. destruct Hrest as (r' & _ & -> & _). simpl. auto.
Qed.

End GreedyTurn.

(** ** [simple_vrp] leaves an idle vehicle at the depot *)

Lemma while_invariant {St : Type} (cond : St -> bool)
    (body : St -> result (ctl * St)) (P : St -> Prop) :
  (forall s k s', P s -> body s = Ok (k, s') -> P s') ->
  forall fuel s k s_end,
    P s -> while cond body fuel s = Some (k, Ok s_end) -> P s_end.
Proof.
  intros Hstep. induction fuel as [|fuel IH]; intros s k s_end HP; simpl;
    [discriminate|].
  destruct (cond s); [|intros [= <- <-]; exact HP].
  destruct (body s) as [[[] s']|e] eqn:Hb; [| |discriminate].
  - destruct (while cond body fuel s') as [[k' r']|] eqn:Hw; [|discriminate].
    intros [= <- ->]. eapply IH; [|exact Hw]. eapply Hstep; eauto.
  - intros [= <- <-]. eapply Hstep; eauto.
Qed.

Section Idle.
Context {D : Type} `{Dist D}.
Variable distance_matrix : list (list D).
Variable cities : list string.
Variable n : nat.
Variable demands : list Z.
Variable num_vehicles : Z.
Variable capacity : Z.

(** A vehicle that serves nobody has not moved. *)
Local Abbreviation idle_at_depot v :=
  (customers (Opt.route v) = [] ->
   Opt.route v = [0%nat] /\ Opt.load v = 0 /\ Opt.distance v = d_zero).

Lemma Opt_return_if_away_idle (v v' : Opt.vehicle D) :
  idle_at_depot v -> Opt.return_if_away distance_matrix v = Ok v' ->
  customers (Opt.route v') = [] -> v' = v.
Proof.
  intros Hidle (x & Hlast & _ & Hcase)%Opt_return_if_away Hnone.
  destruct Hcase as [[_ ->] | [Hx Hroute]]; [reflexivity|].
  rewrite Hroute, customers_snoc_depot in Hnone.
  destruct (Hidle Hnone) as (Hr & _). rewrite Hr in Hlast.
  simpl in Hlast. congruence.
Qed.

Lemma Opt_body_idle (s s' : Opt.state D) (k : ctl) :
  Forall (fun v => idle_at_depot v) (Opt.vehicles s) ->
  Opt.body distance_matrix cities n demands num_vehicles capacity s
  = Ok (k, s') ->
  Forall (fun v => idle_at_depot v) (Opt.vehicles s').
Proof.
  intros Hall (v & cur & best & Hv & Hcur & Hbest & Hrest)%Opt_body_step.
  assert (Hidle : idle_at_depot v).
  { rewrite Forall_lookup in Hall. exact (Hall _ _ Hv). }
  apply find_best_spec in Hbest.
  destruct best as [[b d]|].
  - destruct Hrest as (demand & city & _ & _ & _ & ->). simpl.
    destruct Hbest as ((Hrange & _) & _).
    apply Forall_insert; [exact Hall|]. simpl.
    rewrite customers_snoc by lia. intros Hnil.
    destruct (customers (Opt.route v)); discriminate.
  - destruct Hrest as (v' & Hv' & -> & _). simpl.
    apply Forall_insert; [exact Hall|].
    intros Hnone.
    pose proof (Opt_return_if_away_idle v v' Hidle Hv' Hnone) as ->.
    exact (Hidle Hnone).
Qed.

Lemma Opt_close_vehicle_idle (v v' : Opt.vehicle D) :
  idle_at_depot v -> Opt.close_vehicle distance_matrix v = Ok v' ->
  customers (Opt.route v') = [] ->
  Opt.route v' = [0%nat] /\ Opt.load v' = 0
  /\ Opt.distance v' = d_round2 d_zero.
Proof.
  intros Hidle. unfold Opt.close_vehicle.
  intros (w & Hw & [= <-])%bind_Ok. simpl. intros Hnone.
  pose proof (Opt_return_if_away_idle v w Hidle Hw Hnone) as ->.
  destruct (Hidle Hnone) as (-> & -> & ->). auto.
Qed.

(** Every vehicle of the result that serves nobody has the route [[0]], no
    load and the distance [round(0, 2)]. *)
Lemma Opt_solve_idle (fuel : nat) (r : Opt.vrp_result D) :
  Opt.solve distance_matrix cities n demands num_vehicles capacity fuel
  = Some (Ok r) ->
  Forall (fun v => customers (Opt.route v) = [] ->
                   Opt.route v = [0%nat] /\ Opt.load v = 0
                   /\ Opt.distance v = d_round2 d_zero)
         (Opt.res_vehicles r).
Proof.
  unfold Opt.solve, Opt.construction.
  destruct (Opt.initial n num_vehicles) as [s0|e] eqn:Hinit; [|discriminate].
  destruct (while _ _ fuel s0) as [[k [s_end|e]]|] eqn:Hw; try discriminate.
  intros [= Hres]. apply bind_Ok in Hres as (vs & Hvs & [= <-]). simpl.
  assert (Hend : Forall (fun v => idle_at_depot v) (Opt.vehicles s_end)).
  { eapply (while_invariant _ _
              (fun s => Forall (fun v => idle_at_depot v) (Opt.vehicles s)));
      [| |exact Hw].
    - intros s k' s'. apply Opt_body_idle.
    - unfold Opt.initial in Hinit.
      apply bind_Ok in Hinit as (vis & _ & [= <-]). simpl.
      apply Forall_fmap, Forall_forall. simpl. auto. }
  apply for_each_Ok in Hvs.
  apply Forall_lookup. intros j v' Hv'.
  destruct (Forall2_lookup_r _ _ _ _ _ Hvs Hv') as (v & Hv & Hclose).
  rewrite Forall_lookup in Hend.
  apply (Opt_close_vehicle_idle v v' (Hend _ _ Hv) Hclose).
Qed.

End Idle.

(** The same for the program on floats: the distance is 0. *)
Lemma simple_vrp_idle (cities : list string) (demands : list Z)
    (num_vehicles capacity : Z) (r : Opt.vrp_result R) :
  Opt.simple_vrp cities demands num_vehicles capacity = Some (Ok r) ->
  Forall (fun v => customers (Opt.route v) = [] ->
                   Opt.route v = [0%nat] /\ Opt.load v = 0
                   /\ Opt.distance v = 0%R)
         (Opt.res_vehicles r).
Proof.
  unfold Opt.simple_vrp, Opt.simple_vrp_over.
  destruct (negb _); [discriminate|].
  destruct (subscript demands 0) as [d|e]; [|discriminate].
  destruct (negb _); [discriminate|].
  intros Hsolve. apply Opt_solve_idle in Hsolve.
  eapply Forall_impl; [exact Hsolve|]. simpl.
  intros v Hv Hnone. destruct (Hv Hnone) as (? & ? & Hd).
  split_and!; auto. rewrite Hd. apply round2_0.
Qed.

(** ** Runs on the example data *)

(** Capacity 1000: the first vehicle serves both locations, nearest
    first, and the other two stay at the depot. *)
Example run_simple_vrp :
  Opt_stops (Opt.simple_vrp_over example_builder example_locations
                                 example_demands 3 1000)
  = Some (Ok [[0; 1; 2; 0]; [0]; [0]]%nat).
Proof. vm_compute. reflexivity. Qed.

(** The same with [greedy_route_optimization]: the loop ends before the
    cursor reaches the other two vehicles. *)
Example run_greedy :
  App_stops (App.greedy_route_optimization_over example_builder
                                                example_locations
                                                example_demands 3 1000)
  = Some (Ok [[0; 1; 2; 0]; [0]; [0]]%nat).
Proof. vm_compute. reflexivity. Qed.

(** Capacity 300: one location for each vehicle. *)
Example run_greedy_split :
  App_stops (App.greedy_route_optimization_over example_builder
                                                example_locations
                                                example_demands 3 300)
  = Some (Ok [[0; 1; 0]; [0; 2; 0]; [0]]%nat).
Proof. vm_compute. reflexivity. Qed.

(** Two locations at the same distance: the lower index is taken first. *)
Example run_tie :
  Opt_stops (Opt.simple_vrp_over
               (fun _ => [[0; 700; 700]; [700; 0; 900]; [700; 900; 0]])
               example_locations example_demands 1 1000)
  = Some (Ok [[0; 1; 2; 0]]%nat).
Proof. vm_compute. reflexivity. Qed.

(** A demand list that is too short makes [greedy_route_optimization]
    raise where the missing demand is read. *)
Example run_greedy_short_demands :
  App_stops (App.greedy_route_optimization_over example_builder
                                                example_locations [0; 250] 3 1000)
  = Some (Raise IndexError).
Proof. vm_compute. reflexivity. Qed.

(** * The claims *)

(** C1.  On a valid input, at every turn of the construction loop of either
    builder (every state the loop test is reached in with a location still
    unvisited), the turn raises nothing and follows the selection rule: with
    [cur] the last stop of the vehicle at the cursor, the location appended
    to its route is feasible (unvisited, not the depot, its demand fitting
    the remaining capacity), no feasible location is strictly nearer to
    [cur], and every feasible location of lower index is strictly farther;
    when no location is feasible nothing is appended but the depot and the
    cursor moves on. *)
Theorem selection_rule {D : Type} `{DistOrder D}
    (create_distance_matrix : list string -> list (list D))
    (locations : list string) (demands : list Z)
    (num_vehicles capacity : Z) :
  valid_input (create_distance_matrix locations) locations demands
              num_vehicles ->
  (forall s0 s,
      Opt.initial (length locations) num_vehicles = Ok s0 ->
      reachable Opt.unfinished
        (Opt.body (create_distance_matrix locations) locations
                  (length locations) demands num_vehicles capacity) s0 s ->
      Opt.unfinished s = true ->
      exists k s',
        Opt.body (create_distance_matrix locations) locations
                 (length locations) demands num_vehicles capacity s
        = Ok (k, s')
        /\ greedy_turn (create_distance_matrix locations) (length locations)
                       demands capacity (Opt_view s) k (Opt_view s'))
  /\ (forall s0 s,
      App.initial (length locations) num_vehicles = Ok s0 ->
      reachable App.unfinished
        (App.body (create_distance_matrix locations)
                  (length locations) demands num_vehicles capacity) s0 s ->
      App.unfinished s = true ->
      exists k s',
        App.body (create_distance_matrix locations)
                 (length locations) demands num_vehicles capacity s
        = Ok (k, s')
        /\ greedy_turn (create_distance_matrix locations) (length locations)
                       demands capacity (App_view s) k (App_view s')).
Proof.
  intros Hvalid.
  pose proof (valid_nonempty _ _ _ _ Hvalid) as Hn.
  destruct Hvalid as (Hlen & Hdepot & Hnv & Hsq).
  split; intros s0 s Hinit Hreach Hcond.
  - destruct (Opt_initial (length locations) num_vehicles Hn)
      as (s0' & Hinit' & Hview).
    assert (s0' = s0) as -> by congruence.
    destruct (reachable_at_head (length locations) demands num_vehicles
                capacity Opt_view Opt.unfinished _
                (Opt_body_turn (create_distance_matrix locations) locations
                   (length locations) demands num_vehicles capacity)
                s0 s) as [Hinv Hcur]; auto.
    { rewrite Hview. split; [apply initial_inv, Hn | simpl; lia]. }
    destruct (Opt_body_total (create_distance_matrix locations) locations
                (length locations) demands num_vehicles capacity s)
      as (k & s' & Hbody); auto.
    exists k, s'. split; [exact Hbody|].
    eapply Opt_body_greedy, Hbody.
  - destruct (App_initial (length locations) num_vehicles Hn)
      as (s0' & Hinit' & Hview).
    assert (s0' = s0) as -> by congruence.
    destruct (reachable_at_head (length locations) demands num_vehicles
                capacity App_view App.unfinished _
                (App_body_turn (create_distance_matrix locations)
                   (length locations) demands num_vehicles capacity)
                s0 s) as [Hinv Hcur]; auto.
    { rewrite Hview. split; [apply initial_inv, Hn | simpl; lia]. }
    destruct (App_body_total (create_distance_matrix locations)
                (length locations) demands num_vehicles capacity s)
      as (k & s' & Hbody); auto.
    exists k, s'. split; [exact Hbody|].
    eapply App_body_greedy, Hbody.
Qed.

Lemma example_valid (num_vehicles : Z) :
  0 < num_vehicles ->
  valid_input (example_builder example_locations) example_locations
              example_demands num_vehicles.
Proof.
  intros Hnv. split_and!; [reflexivity | reflexivity | exact Hnv |].
  split; [reflexivity | repeat constructor].
Defined.

(** C1 at the first turn of [simple_vrp] on the example: both locations fit
    in a vehicle of capacity 1000 and the nearer one is taken. *)
Lemma selection_rule_witness :
  exists k s',
    Opt.body example_matrix example_locations 3 example_demands 3 1000
             (Opt.State (map (fun v => Opt.Vehicle (Z.of_nat v + 1) [0%nat] 0 0
                                                   ["Depot"]) [0; 1; 2]%nat)
                        [true; false; false] 0)
    = Ok (k, s')
    /\ greedy_turn example_matrix 3 example_demands 1000
         (View [([0%nat], 0); ([0%nat], 0); ([0%nat], 0)]
               [true; false; false] 0)
         k (Opt_view s').
Proof.
  refine (proj1 (selection_rule (D := Z) example_builder example_locations
                   example_demands 3 1000 (example_valid 3 _)) _ _ _ _ _).
  - reflexivity.
  - reflexivity.
  - apply reachable_start.
  - reflexivity.
Defined.

(** C3 (as amended).  On a valid input both builders return, and over all
    the routes returned taken together every location other than the depot
    occurs at most once; it occurs exactly when the construction loop marked
    it visited, so every location occurs exactly once when the loop ended
    with all of them visited.  The depot is the first stop of every route.
    Nothing else is returned about the locations: one left unvisited when
    the vehicles ran out occurs nowhere. *)
Theorem coverage {D : Type} `{Dist D}
    (create_distance_matrix : list string -> list (list D))
    (locations : list string) (demands : list Z)
    (num_vehicles capacity : Z) :
  valid_input (create_distance_matrix locations) locations demands
              num_vehicles ->
  (exists k s_end r,
      Opt.construction (create_distance_matrix locations) locations
                       (length locations) demands num_vehicles capacity
                       (Opt.enough_fuel (length locations) num_vehicles)
      = Some (k, Ok s_end)
      /\ Opt.simple_vrp_over create_distance_matrix locations demands
                             num_vehicles capacity = Some (Ok r)
      /\ NoDup (served (map Opt.route (Opt.res_vehicles r)))
      /\ (forall i, i ∈ served (map Opt.route (Opt.res_vehicles r))
                    <-> (1 <= i < length locations)%nat
                        /\ Opt.visited s_end !! i = Some true)
      /\ (Opt.unfinished s_end = false ->
          forall i, (1 <= i < length locations)%nat ->
                    i ∈ served (map Opt.route (Opt.res_vehicles r)))
      /\ Forall (fun stops => stops !! 0%nat = Some 0%nat)
                (map Opt.route (Opt.res_vehicles r)))
  /\ (exists k s_end routes,
      App.construction (create_distance_matrix locations)
                       (length locations) demands num_vehicles capacity
                       (App.enough_fuel (length locations) num_vehicles)
      = Some (k, Ok s_end)
      /\ App.greedy_route_optimization_over create_distance_matrix locations
                                            demands num_vehicles capacity
         = Some (Ok routes)
      /\ NoDup (served (map App.stops routes))
      /\ (forall i, i ∈ served (map App.stops routes)
                    <-> (1 <= i < length locations)%nat
                        /\ App.visited s_end !! i = Some true)
      /\ (App.unfinished s_end = false ->
          forall i, (1 <= i < length locations)%nat ->
                    i ∈ served (map App.stops routes))
      /\ Forall (fun stops => stops !! 0%nat = Some 0%nat)
                (map App.stops routes)).
Proof.
  intros Hvalid. split.
  - destruct (Opt_simple_vrp_result create_distance_matrix locations demands
                num_vehicles capacity Hvalid)
      as (k & s_end & r & Hrun & Hres & _ & Hok).
    destruct Hok as (Hlen & _ & _ & Hall & Hnodup & Hmem).
    rewrite map_map in Hnodup, Hmem. simpl in Hnodup, Hmem.
    exists k, s_end, r. split_and!; auto.
    + intros Hdone i Hi. apply Hmem. split; [exact Hi|].
      apply all_visited; [|lia].
      unfold Opt.unfinished in Hdone. apply negb_false_iff in Hdone.
      exact Hdone.
    + apply Forall_fmap. apply Forall_fmap in Hall.
      eapply Forall_impl; [exact Hall|]. simpl. intros v (Hends & _).
      apply Hends.
  - destruct (App_greedy_result create_distance_matrix locations demands
                num_vehicles capacity Hvalid)
      as (k & s_end & routes & Hrun & Hres & _ & Hok).
    destruct Hok as (Hlen & _ & _ & Hall & Hnodup & Hmem).
    rewrite map_map in Hnodup, Hmem. simpl in Hnodup, Hmem.
    exists k, s_end, routes. split_and!; auto.
    + intros Hdone i Hi. apply Hmem. split; [exact Hi|].
      apply all_visited; [|lia].
      unfold App.unfinished in Hdone. apply negb_false_iff in Hdone.
      exact Hdone.
    + apply Forall_fmap. apply Forall_fmap in Hall.
      eapply Forall_impl; [exact Hall|]. simpl. intros v (Hends & _).
      apply Hends.
Qed.

Lemma coverage_witness :
  exists r,
    Opt.simple_vrp_over example_builder example_locations example_demands
                        3 1000 = Some (Ok r)
    /\ NoDup (served (map Opt.route (Opt.res_vehicles r))).
Proof.
  destruct (coverage (D := Z) example_builder example_locations
              example_demands 3 1000 (example_valid 3 eq_refl))
    as [(k & s_end & r & _ & Hr & Hnodup & _) _].
  exists r. split; assumption.
Defined.

(** C3 as stated fails: with two vehicles of capacity 100 and demands 250
    and 300, both builders return two routes that hold the depot only, so
    locations 1 and 2 are in no route (and the value returned has no other
    place for them) while the depot is in both. *)
Lemma coverage_counterexample :
  Opt_stops (Opt.simple_vrp example_locations example_demands 2 100)
  = Some (Ok [[0%nat]; [0%nat]])
  /\ App_stops (App.greedy_route_optimization example_locations
                                              example_demands 2 100)
     = Some (Ok [[0%nat; 0%nat]; [0%nat; 0%nat]])
  /\ ~ covered_once 3 [[0%nat]; [0%nat]]
  /\ ~ covered_once 3 [[0%nat; 0%nat]; [0%nat; 0%nat]].
Proof.
  split; [vm_compute; reflexivity|].
  split; [vm_compute; reflexivity|].
  split; intros Hcov;
    destruct (Hcov 1%nat) as (k & (stops & Hk & Hin) & _); try lia;
    destruct k as [|[|k]]; simpl in Hk; try discriminate;
    injection Hk as <-;
    repeat (apply elem_of_cons in Hin as [Hin|Hin]; [discriminate|]);
    inversion Hin.
Qed.

Lemma served_elem (routes : list (list nat)) (stops : list nat) (i : nat) :
  stops ∈ routes -> i ∈ stops -> i <> 0%nat -> i ∈ served routes.
Proof.
  intros Hstops Hi Hne. unfold served.
  apply list_elem_of_In, in_concat. exists (customers stops). split.
  - apply in_map, list_elem_of_In, Hstops.
  - apply list_elem_of_In. unfold customers.
    apply list_elem_of_filter. auto.
Qed.

Lemma unvisited_not_served (n : nat) (demands : list Z)
    (num_vehicles capacity : Z) (vis : list bool)
    (routes : list (list nat * Z)) (i : nat) :
  routes_ok n demands num_vehicles capacity vis routes ->
  vis !! i = Some false ->
  Forall (fun stops => i ∉ stops) (map fst routes).
Proof.
  intros (_ & Hdepot & _ & _ & _ & Hmem) Hi.
  apply Forall_forall. intros stops Hstops Hin.
  destruct (decide (i = 0%nat)) as [->|Hne]; [congruence|].
  pose proof (served_elem _ _ _ Hstops Hin Hne) as Hs.
  apply Hmem in Hs as [_ Hv]. congruence.
Qed.

(** C2 (as amended).  On a valid input both builders return without an
    exception, also when capacity or vehicles are short: they return one
    route for each vehicle, and a location the construction loop left
    unvisited is a stop of none of them.  (No list of such locations is
    returned.) *)
Theorem partial_result {D : Type} `{Dist D}
    (create_distance_matrix : list string -> list (list D))
    (locations : list string) (demands : list Z)
    (num_vehicles capacity : Z) :
  valid_input (create_distance_matrix locations) locations demands
              num_vehicles ->
  (exists k s_end r,
      Opt.construction (create_distance_matrix locations) locations
                       (length locations) demands num_vehicles capacity
                       (Opt.enough_fuel (length locations) num_vehicles)
      = Some (k, Ok s_end)
      /\ Opt.simple_vrp_over create_distance_matrix locations demands
                             num_vehicles capacity = Some (Ok r)
      /\ length (Opt.res_vehicles r) = Z.to_nat num_vehicles
      /\ forall i, Opt.visited s_end !! i = Some false ->
                   Forall (fun stops => i ∉ stops)
                          (map Opt.route (Opt.res_vehicles r)))
  /\ (exists k s_end routes,
      App.construction (create_distance_matrix locations)
                       (length locations) demands num_vehicles capacity
                       (App.enough_fuel (length locations) num_vehicles)
      = Some (k, Ok s_end)
      /\ App.greedy_route_optimization_over create_distance_matrix locations
                                            demands num_vehicles capacity
         = Some (Ok routes)
      /\ length routes = Z.to_nat num_vehicles
      /\ forall i, App.visited s_end !! i = Some false ->
                   Forall (fun stops => i ∉ stops) (map App.stops routes)).
Proof.
  intros Hvalid. split.
  - destruct (Opt_simple_vrp_result create_distance_matrix locations demands
                num_vehicles capacity Hvalid)
      as (k & s_end & r & Hrun & Hres & _ & Hok).
    exists k, s_end, r. split_and!; auto.
    + destruct Hok as (_ & _ & Hlen & _). rewrite length_map in Hlen.
      exact Hlen.
    + intros i Hi.
      pose proof (unvisited_not_served _ _ _ _ _ _ i Hok Hi) as Hno.
      rewrite map_map in Hno. exact Hno.
  - destruct (App_greedy_result create_distance_matrix locations demands
                num_vehicles capacity Hvalid)
      as (k & s_end & routes & Hrun & Hres & _ & Hok).
    exists k, s_end, routes. split_and!; auto.
    + destruct Hok as (_ & _ & Hlen & _). rewrite length_map in Hlen.
      exact Hlen.
    + intros i Hi.
      pose proof (unvisited_not_served _ _ _ _ _ _ i Hok Hi) as Hno.
      rewrite map_map in Hno. exact Hno.
Qed.

Lemma partial_result_witness :
  exists r,
    Opt.simple_vrp_over example_builder example_locations example_demands
                        1 300 = Some (Ok r)
    /\ length (Opt.res_vehicles r) = 1%nat.
Proof.
  destruct (partial_result (D := Z) example_builder example_locations
              example_demands 1 300 (example_valid 1 eq_refl))
    as [(k & s_end & r & _ & Hr & Hlen & _) _].
  exists r. split; assumption.
Defined.

(** C2 as stated fails: one vehicle of capacity 100 and one location of
    demand 250.  Both builders return the route of the vehicle and nothing
    else that names a location; location 1 is not in what they return. *)
Lemma partial_result_counterexample :
  Opt_stops (Opt.simple_vrp ["depot"; "jalandhar"] [0; 250] 1 100)
  = Some (Ok [[0%nat]])
  /\ App_stops (App.greedy_route_optimization ["depot"; "jalandhar"]
                                              [0; 250] 1 100)
     = Some (Ok [[0%nat; 0%nat]])
  /\ (1%nat ∉ concat [[0%nat]])
  /\ (1%nat ∉ concat [[0%nat; 0%nat]]).
Proof.
  split; [vm_compute; reflexivity|].
  split; [vm_compute; reflexivity|].
  split; simpl; intros Hin;
    repeat (apply elem_of_cons in Hin as [Hin|Hin]; [discriminate|]);
    inversion Hin.
Qed.

(** C4.  On a valid input with a capacity that is not negative, the load
    of every route returned, by either builder, is the sum of the demands
    of its stops other than the depot, and is at most the capacity. *)
Theorem load_within_capacity {D : Type} `{Dist D}
    (create_distance_matrix : list string -> list (list D))
    (locations : list string) (demands : list Z)
    (num_vehicles capacity : Z) :
  valid_input (create_distance_matrix locations) locations demands
              num_vehicles ->
  0 <= capacity ->
  (exists r,
      Opt.simple_vrp_over create_distance_matrix locations demands
                          num_vehicles capacity = Some (Ok r)
      /\ Forall (fun v => Opt.load v = route_demand demands (Opt.route v)
                          /\ Opt.load v <= capacity)
                (Opt.res_vehicles r))
  /\ (exists routes,
      App.greedy_route_optimization_over create_distance_matrix locations
                                         demands num_vehicles capacity
      = Some (Ok routes)
      /\ Forall (fun r => App.load r = route_demand demands (App.stops r)
                          /\ App.load r <= capacity)
                routes).
Proof.
  intros Hvalid Hcap. split.
  - destruct (Opt_simple_vrp_result create_distance_matrix locations demands
                num_vehicles capacity Hvalid)
      as (k & s_end & r & _ & Hres & _ & Hok).
    exists r. split; [exact Hres|].
    destruct Hok as (_ & _ & _ & Hall & _). apply Forall_fmap in Hall.
    eapply Forall_impl; [exact Hall|]. simpl. intros v (_ & Hsum & Hle). auto.
  - destruct (App_greedy_result create_distance_matrix locations demands
                num_vehicles capacity Hvalid)
      as (k & s_end & routes & _ & Hres & _ & Hok).
    exists routes. split; [exact Hres|].
    destruct Hok as (_ & _ & _ & Hall & _). apply Forall_fmap in Hall.
    eapply Forall_impl; [exact Hall|]. simpl. intros v (_ & Hsum & Hle). auto.
Qed.

Lemma load_within_capacity_witness :
  exists routes,
    App.greedy_route_optimization_over example_builder example_locations
                                       example_demands 3 1000
    = Some (Ok routes)
    /\ Forall (fun r => App.load r = route_demand example_demands (App.stops r)
                        /\ App.load r <= 1000)
              routes.
Proof.
  refine (proj2 (load_within_capacity (D := Z) example_builder
                   example_locations example_demands 3 1000
                   (example_valid 3 eq_refl) _)).
  lia.
Defined.

(** C10.  On a valid input, in every route returned by either builder the
    depot is the first stop, is the last stop when the route has more than
    one stop, and is no stop in between. *)
Theorem depot_only_at_ends {D : Type} `{Dist D}
    (create_distance_matrix : list string -> list (list D))
    (locations : list string) (demands : list Z)
    (num_vehicles capacity : Z) :
  valid_input (create_distance_matrix locations) locations demands
              num_vehicles ->
  (exists r,
      Opt.simple_vrp_over create_distance_matrix locations demands
                          num_vehicles capacity = Some (Ok r)
      /\ Forall (fun v => depot_at_ends (Opt.route v)) (Opt.res_vehicles r))
  /\ (exists routes,
      App.greedy_route_optimization_over create_distance_matrix locations
                                         demands num_vehicles capacity
      = Some (Ok routes)
      /\ Forall (fun r => depot_at_ends (App.stops r)) routes).
Proof.
  intros Hvalid. split.
  - destruct (Opt_simple_vrp_result create_distance_matrix locations demands
                num_vehicles capacity Hvalid)
      as (k & s_end & r & _ & Hres & _ & Hok).
    exists r. split; [exact Hres|].
    destruct Hok as (_ & _ & _ & Hall & _). apply Forall_fmap in Hall.
    eapply Forall_impl; [exact Hall|]. simpl. intros v (Hends & _). auto.
  - destruct (App_greedy_result create_distance_matrix locations demands
                num_vehicles capacity Hvalid)
      as (k & s_end & routes & _ & Hres & _ & Hok).
    exists routes. split; [exact Hres|].
    destruct Hok as (_ & _ & _ & Hall & _). apply Forall_fmap in Hall.
    eapply Forall_impl; [exact Hall|]. simpl. intros v (Hends & _). auto.
Qed.

Lemma depot_only_at_ends_witness :
  exists r,
    Opt.simple_vrp_over example_builder example_locations example_demands
                        2 300 = Some (Ok r)
    /\ Forall (fun v => depot_at_ends (Opt.route v)) (Opt.res_vehicles r).
Proof.
  exact (proj1 (depot_only_at_ends (D := Z) example_builder example_locations
                  example_demands 2 300 (example_valid 2 eq_refl))).
Defined.

(** C8 (as amended).  On every input the construction loop of either
    builder ends, by finishing, by [break] or by an exception, after at most
    [(n - 1) + num_vehicles] turns (a negative vehicle count counting as
    none): a turn that does not end the loop either marks one of the [n - 1]
    locations visited, never one marked before, or moves the cursor past
    one of the vehicles. *)
Theorem construction_terminates {D : Type} `{Dist D}
    (distance_matrix : list (list D)) (cities : list string) (n : nat)
    (demands : list Z) (num_vehicles capacity : Z) (fuel : nat) :
  (n + Z.to_nat num_vehicles <= fuel)%nat ->
  (exists k r,
      Opt.construction distance_matrix cities n demands num_vehicles capacity
                       fuel = Some (k, r)
      /\ (k <= n - 1 + Z.to_nat num_vehicles)%nat)
  /\ (exists k r,
      App.construction distance_matrix n demands num_vehicles capacity fuel
      = Some (k, r)
      /\ (k <= n - 1 + Z.to_nat num_vehicles)%nat).
Proof.
  intros Hfuel. split.
  - apply Opt_construction_ends, Hfuel.
  - apply App_construction_ends, Hfuel.
Qed.

Lemma construction_terminates_witness :
  exists k r,
    App.construction example_matrix 3 example_demands 3 1000 10 = Some (k, r)
    /\ (k <= 3 - 1 + Z.to_nat 3)%nat.
Proof.
  refine (proj2 (construction_terminates (D := Z) example_matrix
                   example_locations 3 example_demands 3 1000 10 _)).
  simpl. lia.
Defined.

(** C8 as stated fails: with two locations ([n = 2]), three vehicles of
    capacity 100 and a demand of 250, the loop of either builder takes three
    turns, one for each vehicle. *)
Lemma construction_terminates_counterexample :
  option_map fst
    (Opt.construction (Opt.create_distance_matrix ["depot"; "jalandhar"])
                      ["depot"; "jalandhar"] 2 [0; 250] 3 100
                      (Opt.enough_fuel 2 3)) = Some 3%nat
  /\ option_map fst
       (App.construction (App.create_distance_matrix ["depot"; "jalandhar"])
                         2 [0; 250] 3 100 (App.enough_fuel 2 3)) = Some 3%nat
  /\ ~ (3 <= 2)%nat.
Proof.
  split; [vm_compute; reflexivity|].
  split; [vm_compute; reflexivity|]. lia.
Qed.

(** C5 (as amended).  [simple_vrp] answers with a [ValueError], whatever
    the matrix builder, the vehicle count and the capacity are and so before
    any of them is used, when the two lists differ in length or the first
    demand is not zero.  (The vehicle count is not validated.) *)
Theorem validation_errors {D : Type} `{Dist D}
    (create_distance_matrix : list string -> list (list D))
    (cities : list string) (demands : list Z) (num_vehicles capacity : Z) :
  length cities <> length demands
  \/ (exists d, demands !! 0%nat = Some d /\ d <> 0) ->
  exists msg,
    Opt.simple_vrp_over create_distance_matrix cities demands num_vehicles
                        capacity = Some (Raise (ValueError msg)).
Proof.
  intros Hbad. unfold Opt.simple_vrp_over.
  destruct (Nat.eqb_spec (length cities) (length demands)) as [Heq|Hne];
    simpl; [|eauto].
  destruct Hbad as [Hne | (d & Hd & Hnz)]; [contradiction|].
  rewrite (proj2 (subscript_Ok _ _ _) Hd).
  destruct (Z.eqb_spec d 0) as [->|_]; [contradiction|]. simpl. eauto.
Qed.

Lemma validation_errors_witness :
  exists msg,
    Opt.simple_vrp_over example_builder example_locations [5; 250; 300] 3 1000
    = Some (Raise (ValueError msg)).
Proof.
  refine (validation_errors (D := Z) example_builder example_locations
            [5; 250; 300] 3 1000 _).
  right. exists 5. split; [reflexivity | lia].
Defined.

(** C5 as stated fails: a vehicle count of zero is accepted by
    [simple_vrp], which returns no routes, and
    [greedy_route_optimization] accepts a depot demand that is not zero. *)
Lemma validation_errors_counterexample :
  Opt_stops (Opt.simple_vrp ["depot"] [0] 0 1000) = Some (Ok [])
  /\ App_stops (App.greedy_route_optimization ["depot"; "jalandhar"]
                                              [7; 250] 1 100)
     = Some (Ok [[0%nat; 0%nat]]).
Proof.
  split; vm_compute; reflexivity.
Qed.

(** C7 at an input where it fails: two vehicles of capacity 100 and demands
    250 and 300, so that no stop is ever assigned.  [simple_vrp] leaves both
    routes at the depot alone; [greedy_route_optimization] appends the
    depot to both. *)
Theorem idle_vehicle_routes :
  Opt_stops (Opt.simple_vrp example_locations example_demands 2 100)
  = Some (Ok [[0%nat]; [0%nat]])
  /\ App_stops (App.greedy_route_optimization example_locations
                                              example_demands 2 100)
     = Some (Ok [[0%nat; 0%nat]; [0%nat; 0%nat]]).
Proof.
  split; vm_compute; reflexivity.
Qed.

Lemma App_depot_entry :
  App.CITY_COORDINATES !! "depot" = Some App.depot_coordinate.
Proof. vm_compute. reflexivity. Qed.

(** C6 (as amended).  In [app.py] resolution never fails: an identifier of
    the table (after lowercasing) has its own coordinate and any other has
    the coordinate of ["depot"], and every off-diagonal entry of the matrix
    is the haversine distance between the two resolved coordinates rounded
    to 2 decimal places.  In [route_optimizer.py] there is no fallback
    coordinate: an off-diagonal entry is the rounded haversine distance when
    both identifiers are in the table and the constant 50.0 otherwise. *)
Theorem identifier_resolution (locations : list string) (i j : nat) :
  (i < length locations)%nat -> (j < length locations)%nat -> i <> j ->
  (forall loc,
      App.resolve loc
      = match App.CITY_COORDINATES !! loc with
        | Some coord => coord
        | None => App.depot_coordinate
        end)
  /\ App.CITY_COORDINATES !! "depot" = Some App.depot_coordinate
  /\ cell (App.create_distance_matrix locations) i j
     = Oracle.round2
         (Oracle.haversine_distance
            (lit (App.resolve (lower (nth i locations ""))).1)
            (lit (App.resolve (lower (nth i locations ""))).2)
            (lit (App.resolve (lower (nth j locations ""))).1)
            (lit (App.resolve (lower (nth j locations ""))).2))
  /\ cell (Opt.create_distance_matrix locations) i j
     = match Opt.PUNJAB_CITIES !! lower (nth i locations ""),
             Opt.PUNJAB_CITIES !! lower (nth j locations "") with
       | Some coord1, Some coord2 =>
           Oracle.round2
             (Oracle.haversine_distance
                (lit (Opt.lat coord1)) (lit (Opt.lon coord1))
                (lit (Opt.lat coord2)) (lit (Opt.lon coord2)))
       | _, _ => 50%R
       end.
Proof.
  intros Hi Hj Hne. split_and!.
  - intros loc. unfold App.resolve.
    destruct (App.CITY_COORDINATES !! loc); reflexivity.
  - exact App_depot_entry.
  - rewrite App_create_distance_matrix_cell by assumption.
    destruct (Nat.eqb_spec i j); [contradiction | reflexivity].
  - rewrite Opt_create_distance_matrix_cell by assumption.
    destruct (Nat.eqb_spec i j); [contradiction | reflexivity].
Qed.

Lemma identifier_resolution_witness :
  cell (App.create_distance_matrix ["depot"; "Jalandhar"; "nowhere"]) 1 2
  = Oracle.round2
      (Oracle.haversine_distance
         (lit (App.resolve (lower "Jalandhar")).1)
         (lit (App.resolve (lower "Jalandhar")).2)
         (lit (App.resolve (lower "nowhere")).1)
         (lit (App.resolve (lower "nowhere")).2)).
Proof.
  refine (proj1 (proj2 (proj2 (identifier_resolution
                                 ["depot"; "Jalandhar"; "nowhere"] 1 2 _ _ _)))).
  - simpl. lia.
  - simpl. lia.
  - lia.
Defined.

(** C6 as stated fails for [route_optimizer.py]: two identifiers that are
    not in its table are 50.0 apart, where a common fallback coordinate,
    whichever it is, would put them at distance 0; and an identifier of the
    table is 50.0 from an unknown one, not at its distance from the depot of
    [app.py] (which is 0 for Ludhiana). *)
Lemma identifier_resolution_counterexample :
  cell (Opt.create_distance_matrix ["nowhere"; "elsewhere"]) 0 1 = 50%R
  /\ (forall depot : Q * Q,
        Oracle.round2
          (Oracle.haversine_distance (lit depot.1) (lit depot.2)
                                     (lit depot.1) (lit depot.2)) = 0%R)
  /\ cell (Opt.create_distance_matrix ["ludhiana"; "nowhere"]) 0 1 = 50%R
  /\ Oracle.round2
       (Oracle.haversine_distance
          (lit 30.9010) (lit 75.8573)
          (lit App.depot_coordinate.1) (lit App.depot_coordinate.2)) = 0%R
  /\ 50%R <> 0%R.
Proof.
  assert (Hcell : forall a b,
             Opt.PUNJAB_CITIES !! lower b = None ->
             cell (Opt.create_distance_matrix [a; b]) 0 1 = 50%R).
  { intros a b Hb.
    rewrite Opt_create_distance_matrix_cell by (simpl; lia).
    simpl. unfold Opt.entry. simpl nth. rewrite Hb.
    destruct (Opt.PUNJAB_CITIES !! lower a); reflexivity. }
  split_and!.
  - apply Hcell. vm_compute. reflexivity.
  - intros depot. rewrite haversine_distance_same. apply round2_0.
  - apply Hcell. vm_compute. reflexivity.
  - simpl. rewrite haversine_distance_same. apply round2_0.
  - lra.
Qed.

(** C9.  The haversine distance is symmetric and is 0 from a coordinate to
    itself; every matrix built, by either builder, is symmetric, and its
    diagonal is 0. *)
Theorem distance_symmetry (lat1 lon1 lat2 lon2 : R)
    (locations : list string) (i j : nat) :
  (i < length locations)%nat -> (j < length locations)%nat ->
  Oracle.haversine_distance lat1 lon1 lat2 lon2
  = Oracle.haversine_distance lat2 lon2 lat1 lon1
  /\ Oracle.haversine_distance lat1 lon1 lat1 lon1 = 0%R
  /\ cell (App.create_distance_matrix locations) i j
     = cell (App.create_distance_matrix locations) j i
  /\ cell (App.create_distance_matrix locations) i i = 0%R
  /\ cell (Opt.create_distance_matrix locations) i j
     = cell (Opt.create_distance_matrix locations) j i
  /\ cell (Opt.create_distance_matrix locations) i i = 0%R.
Proof.
  intros Hi Hj.
  rewrite !App_create_distance_matrix_cell by assumption.
  rewrite !Opt_create_distance_matrix_cell by assumption.
  rewrite (Nat.eqb_sym j i), Nat.eqb_refl.
  split_and!.
  - apply haversine_distance_sym.
  - apply haversine_distance_same.
  - destruct (i =? j)%nat; [reflexivity | apply App_entry_sym].
  - reflexivity.
  - destruct (i =? j)%nat; [reflexivity | apply Opt_entry_sym].
  - reflexivity.
Qed.

Lemma distance_symmetry_witness :
  cell (App.create_distance_matrix example_locations) 1 2
  = cell (App.create_distance_matrix example_locations) 2 1.
Proof.
  refine (proj1 (proj2 (proj2 (distance_symmetry 0 0 0 0 example_locations
                                 1 2 _ _)))).
  - simpl. lia.
  - simpl. lia.
Defined.

(** * Further properties of the code *)

(** ** Rounding *)

Section Rounding.
Local Open Scope R_scope.

Lemma round_half_even_cases (x : R) :
  exists (f : Z) (r : R),
    x = IZR f + r /\ 0 <= r < 1
    /\ (Oracle.round_half_even x = f
        \/ (Oracle.round_half_even x = (f + 1)%Z /\ 1 / 2 <= r))
    /\ (r < 1 / 2 -> Oracle.round_half_even x = f)
    /\ (1 / 2 < r -> Oracle.round_half_even x = (f + 1)%Z)
    /\ f = Int_part x.
Proof.
  exists (Int_part x), (frac_part x).
  pose proof (base_fp x) as [Hge Hlt].
  assert (Hx : x = IZR (Int_part x) + frac_part x)
    by (unfold frac_part; lra).
  unfold Oracle.round_half_even.
  split; [exact Hx|]. split; [lra|].
  destruct (Rlt_dec (frac_part x) (1 / 2)) as [Hlow|Hlow];
    [|destruct (Rlt_dec (1 / 2) (frac_part x)) as [Hhigh|Hhigh];
      [|destruct (Z.even (Int_part x))]];
    split_and!; try reflexivity; try (intros; lra);
    try (left; reflexivity); right; (split; [reflexivity | lra]).
Qed.

(** Rounding to the nearest integer does not cross an integer. *)
Lemma round_half_even_bounds (x : R) (a b : Z) :
  IZR a <= x <= IZR b ->
  (a <= Oracle.round_half_even x <= b)%Z.
Proof.
  intros [Ha Hb].
  destruct (round_half_even_cases x)
    as (f & r & Hx & [Hr0 Hr1] & Hcase & _).
  assert (Haf : (a <= f)%Z).
  { apply Z.lt_succ_r. apply lt_IZR. rewrite succ_IZR. lra. }
  destruct Hcase as [-> | [-> Hhalf]].
  - split; [exact Haf|]. apply le_IZR. lra.
  - split; [lia|].
    assert (Hfb : (f < b)%Z) by (apply lt_IZR; lra). lia.
Qed.

Lemma round_half_even_mono (x y : R) :
  x <= y -> (Oracle.round_half_even x <= Oracle.round_half_even y)%Z.
Proof.
  intros Hxy.
  destruct (round_half_even_cases x)
    as (fx & rx & Hx & [Hrx0 Hrx1] & Hcx & Hlowx & Hhighx & _).
  destruct (round_half_even_cases y)
    as (fy & ry & Hy & [Hry0 Hry1] & Hcy & Hlowy & Hhighy & _).
  assert (Hle : (fx <= fy)%Z).
  { apply Z.lt_succ_r. apply lt_IZR. rewrite succ_IZR. lra. }
  destruct (Z.eq_dec fx fy) as [Heq|Hne].
  - subst fy.
    assert (Hr : rx <= ry) by lra.
    destruct (Rlt_dec rx (1 / 2)) as [Hl|Hl].
    + rewrite (Hlowx Hl). destruct Hcy as [-> | [-> _]]; lia.
    + destruct (Rlt_dec (1 / 2) ry) as [Hh|Hh].
      * rewrite (Hhighy Hh). destruct Hcx as [-> | [-> _]]; lia.
      * apply Z.eq_le_incl. f_equal. lra.
  - assert (Hlt : (fx + 1 <= fy)%Z) by lia.
    destruct Hcx as [-> | [-> _]]; destruct Hcy as [-> | [-> _]]; lia.
Qed.

Lemma round2_mono (x y : R) : x <= y -> Oracle.round2 x <= Oracle.round2 y.
Proof.
  intros Hxy. unfold Oracle.round2.
  assert (Hz : (Oracle.round_half_even (x * 100)
                <= Oracle.round_half_even (y * 100))%Z)
    by (apply round_half_even_mono; lra).
  apply IZR_le in Hz. lra.
Qed.

Lemma round2_hundredths (k : Z) : Oracle.round2 (IZR k / 100) = IZR k / 100.
Proof.
  unfold Oracle.round2.
  replace (IZR k / 100 * 100) with (IZR k) by lra.
  assert (Hk : (k <= Oracle.round_half_even (IZR k) <= k)%Z)
    by (apply round_half_even_bounds; lra).
  replace (Oracle.round_half_even (IZR k)) with k by lia. reflexivity.
Qed.

Lemma round2_nonneg (x : R) : 0 <= x -> 0 <= Oracle.round2 x.
Proof.
  intros Hx. rewrite <- round2_0. apply round2_mono, Hx.
Qed.

End Rounding.

(** ** [get_dynamic_price] *)

Section Pricing.
Local Open Scope R_scope.

Lemma quality_multiplier_cases (quality : string) :
  default 1.0%Q (App.QUALITY_MULTIPLIERS !! quality) = 1.2%Q
  \/ default 1.0%Q (App.QUALITY_MULTIPLIERS !! quality) = 1.0%Q
  \/ default 1.0%Q (App.QUALITY_MULTIPLIERS !! quality) = 0.85%Q.
Proof.
  unfold App.QUALITY_MULTIPLIERS. simpl.
  destruct (decide (quality = "A+")) as [->|H1]; [left; reflexivity|].
  destruct (decide (quality = "A")) as [->|H2]; [right; left; reflexivity|].
  destruct (decide (quality = "B")) as [->|H3]; [right; right; reflexivity|].
  right. left.
  rewrite lookup_insert_ne by congruence.
  rewrite lookup_insert_ne by congruence.
  rewrite lookup_insert_ne by congruence.
  reflexivity.
Qed.

Lemma quality_multiplier_known :
  default 1.0%Q (App.QUALITY_MULTIPLIERS !! "A+") = 1.2%Q
  /\ default 1.0%Q (App.QUALITY_MULTIPLIERS !! "A") = 1.0%Q
  /\ default 1.0%Q (App.QUALITY_MULTIPLIERS !! "B") = 0.85%Q.
Proof. split_and!; vm_compute; reflexivity. Qed.

Lemma quality_multiplier_pos (quality : string) :
  0 < lit (default 1.0%Q (App.QUALITY_MULTIPLIERS !! quality)).
Proof.
  unfold lit.
  destruct (quality_multiplier_cases quality) as [-> | [-> | ->]];
    unfold Q2R; simpl; lra.
Qed.

(** The price returned is between 40 and 80, whatever the arguments. *)
Theorem dynamic_price_bounds (base_price demand_index spoilage_risk : R)
    (quality : string) :
  40 <= App.get_dynamic_price base_price demand_index spoilage_risk quality
     <= 80.
Proof.
  unfold App.get_dynamic_price.
  set (p := Rmax 40 (Rmin _ 80)).
  assert (Hp : 40 <= p <= 80).
  { unfold p. split; [apply Rmax_l|].
    apply Rmax_lub; [lra | apply Rmin_r]. }
  assert (H40 : Oracle.round2 40 = 40).
  { replace 40 with (IZR 4000 / 100) by lra. apply round2_hundredths. }
  assert (H80 : Oracle.round2 80 = 80).
  { replace 80 with (IZR 8000 / 100) by lra. apply round2_hundredths. }
  split.
  - rewrite <- H40 at 1. apply round2_mono. lra.
  - rewrite <- H80. apply round2_mono. lra.
Qed.

(** With a base price that is not negative, more demand never lowers the
    price and more spoilage risk never raises it. *)
Theorem dynamic_price_monotone (base_price d1 d2 s1 s2 : R)
    (quality : string) :
  0 <= base_price -> d1 <= d2 -> s2 <= s1 ->
  App.get_dynamic_price base_price d1 s1 quality
  <= App.get_dynamic_price base_price d2 s2 quality.
Proof.
  intros Hb Hd Hs. unfold App.get_dynamic_price.
  pose proof (quality_multiplier_pos quality) as Hq.
  set (q := lit (default 1.0%Q (App.QUALITY_MULTIPLIERS !! quality))) in *.
  assert (H15 : lit 0.15 = 15 / 100) by (unfold lit, Q2R; simpl; lra).
  assert (H10 : lit 0.1 = 1 / 10) by (unfold lit, Q2R; simpl; lra).
  rewrite H15, H10.
  apply round2_mono.
  apply Rle_max_compat_l. apply Rle_min_compat_r.
  apply Rmult_le_compat_l; [nra | lra].
Qed.

Lemma dynamic_price_monotone_witness :
  App.get_dynamic_price 50 1 (1 / 10) "A"
  <= App.get_dynamic_price 50 2 0 "A".
Proof.
  apply dynamic_price_monotone; lra.
Defined.

(** A grade that is not in the table is priced as grade A, and with a base
    price and a demand factor that are not negative a better grade never
    costs less. *)
Theorem dynamic_price_by_quality
    (base_price demand_index spoilage_risk : R) (quality : string) :
  0 <= base_price ->
  0 <= 1 + lit 0.15 * demand_index - lit 0.1 * spoilage_risk ->
  (App.QUALITY_MULTIPLIERS !! quality = None ->
   App.get_dynamic_price base_price demand_index spoilage_risk quality
   = App.get_dynamic_price base_price demand_index spoilage_risk "A")
  /\ App.get_dynamic_price base_price demand_index spoilage_risk "B"
     <= App.get_dynamic_price base_price demand_index spoilage_risk "A"
  /\ App.get_dynamic_price base_price demand_index spoilage_risk "A"
     <= App.get_dynamic_price base_price demand_index spoilage_risk "A+".
Proof.
  intros Hb Hf. split; [|split].
  - intros Hnone. unfold App.get_dynamic_price. rewrite Hnone. reflexivity.
  - unfold App.get_dynamic_price.
    apply round2_mono, Rle_max_compat_l, Rle_min_compat_r.
    apply Rmult_le_compat_r; [exact Hf|].
    apply Rmult_le_compat_l; [exact Hb|].
    destruct quality_multiplier_known as (Hplus & Hplain & Hlow).
    rewrite ?Hplus, ?Hplain, ?Hlow.
    unfold lit, Q2R. simpl. lra.
  - unfold App.get_dynamic_price.
    apply round2_mono, Rle_max_compat_l, Rle_min_compat_r.
    apply Rmult_le_compat_r; [exact Hf|].
    apply Rmult_le_compat_l; [exact Hb|].
    destruct quality_multiplier_known as (Hplus & Hplain & Hlow).
    rewrite ?Hplus, ?Hplain, ?Hlow.
    unfold lit, Q2R. simpl. lra.
Qed.

Lemma dynamic_price_by_quality_witness :
  App.get_dynamic_price 50 1 0 "B" <= App.get_dynamic_price 50 1 0 "A".
Proof.
  refine (proj1 (proj2 (dynamic_price_by_quality 50 1 0 "A" _ _))).
  - lra.
  - unfold lit, Q2R. simpl. lra.
Defined.

End Pricing.

(** ** [nearest_neighbor_tsp] *)

Lemma remove_perm (l : list nat) (x : nat) :
  NoDup l -> x ∈ l -> l ≡ₚ x :: remove Nat.eq_dec x l.
Proof.
  induction l as [|a l IH]; intros Hnd Hx; [inversion Hx|].
  apply NoDup_cons in Hnd as [Ha Hnd]. simpl.
  destruct (Nat.eq_dec x a) as [->|Hne].
  - rewrite notin_remove; [reflexivity|].
    intros Hin. apply Ha, list_elem_of_In, Hin.
  - apply elem_of_cons in Hx as [Hx|Hx]; [contradiction|].
    rewrite (IH Hnd Hx) at 1. apply perm_swap.
Qed.

Lemma hops_from_snoc {D : Type} `{Dist D} (m : list (list D)) (acc : D)
    (cur : nat) (rest : list nat) (x c : nat) :
  last (cur :: rest) = Some c ->
  hops_from m acc cur (rest ++ [x])
  = d_add (hops_from m acc cur rest) (cell m c x).
Proof.
  revert acc cur. induction rest as [|y rest IH]; intros acc cur Hlast.
  - simpl in Hlast. injection Hlast as ->. reflexivity.
  - simpl. apply IH. exact Hlast.
Qed.

Section TspProofs.
Context {D : Type} `{Dist D}.
Variable distance_matrix : list (list D).
Variable n : nat.
Hypothesis Hsquare : square n distance_matrix.

Local Abbreviation dist := (cell distance_matrix).

Lemma hop_cell (cur x : nat) (d : D) :
  Opt.hop distance_matrix cur x = Ok d -> dist cur x = d.
Proof.
  clear Hsquare. unfold Opt.hop.
  intros (row & Hrow%subscript_Ok & Hd%subscript_Ok)%bind_Ok.
  eapply cell_lookup; eauto.
Qed.

Lemma hop_total (cur x : nat) :
  (cur < n)%nat -> (x < n)%nat ->
  Opt.hop distance_matrix cur x = Ok (dist cur x).
Proof.
  intros Hcur Hx. destruct Hsquare as [Hrows Hcols]. unfold Opt.hop.
  destruct (subscript_lt distance_matrix cur) as (row & Hrow & Hrow');
    [lia|].
  rewrite Hrow. simpl.
  assert (Hlen : length row = n).
  { rewrite Forall_forall in Hcols. apply Hcols.
    eapply list_elem_of_lookup_2, Hrow'. }
  destruct (subscript_lt row x) as (d & Hd & Hd'); [lia|].
  rewrite Hd. f_equal. symmetry. eapply cell_lookup; eauto.
Qed.

(** [min] returns an element of the set, and no element is nearer. *)
Lemma min_from_spec (cur : nat) (rest : list nat) :
  (cur < n)%nat -> Forall (fun x => (x < n)%nat) rest ->
  forall best,
    exists m,
      Opt.min_from distance_matrix cur best (dist cur best) rest = Ok m
      /\ m ∈ best :: rest
      /\ (DistOrder D ->
          forall y, y ∈ best :: rest -> d_ltb (dist cur y) (dist cur m) = false).
Proof.
  intros Hcur. induction 1 as [|x rest Hx _ IH]; intros best.
  - exists best. simpl. split; [reflexivity|]. split; [left|].
    intros Hord y ->%list_elem_of_singleton. apply d_ltb_irrefl.
  - simpl. rewrite (hop_total cur x Hcur Hx). simpl.
    destruct (d_ltb (dist cur x) (dist cur best)) eqn:Hlt.
    + destruct (IH x) as (m & -> & Hm & Hmin). exists m.
      split; [reflexivity|]. split; [right; exact Hm|].
      intros Hord y [-> | Hy]%elem_of_cons; [|apply (Hmin Hord y Hy)].
      destruct (d_ltb (dist cur best) (dist cur m)) eqn:Hbm; [|reflexivity].
      destruct (d_ltb_cotrans _ _ (dist cur x) Hbm) as [Hc|Hc].
      * rewrite (d_ltb_asym _ _ Hlt) in Hc. discriminate.
      * rewrite (Hmin Hord x) in Hc; [discriminate | left].
    + destruct (IH best) as (m & -> & Hm & Hmin). exists m.
      split; [reflexivity|]. split.
      { apply elem_of_cons in Hm as [-> | Hm]; [left | right; right; exact Hm]. }
      intros Hord y [-> | [-> | Hy]%elem_of_cons]%elem_of_cons.
      * apply (Hmin Hord). left.
      * destruct (d_ltb (dist cur x) (dist cur m)) eqn:Hxm; [|reflexivity].
        destruct (d_ltb_cotrans _ _ (dist cur best) Hxm) as [Hc|Hc].
        -- congruence.
        -- rewrite (Hmin Hord best) in Hc; [discriminate | left].
      * apply (Hmin Hord). right. exact Hy.
Qed.

Lemma min_by_distance_spec (cur x : nat) (rest : list nat) :
  (cur < n)%nat -> Forall (fun y => (y < n)%nat) (x :: rest) ->
  exists m,
    Opt.min_by_distance distance_matrix cur (x :: rest) = Ok m
    /\ m ∈ x :: rest
    /\ (DistOrder D ->
        forall y, y ∈ x :: rest -> d_ltb (dist cur y) (dist cur m) = false).
Proof.
  intros Hcur Hall. apply Forall_cons in Hall as [Hx Hrest].
  simpl. rewrite (hop_total cur x Hcur Hx). simpl.
  apply min_from_spec; assumption.
Qed.

(** The loop visits what is left to visit, each location once, always
    going to a nearest one, and adds up the hops. *)
Lemma tsp_loop_spec (fuel : nat) :
  forall cur route unvisited total,
    NoDup unvisited -> Forall (fun x => (x < n)%nat) unvisited ->
    (cur < n)%nat -> (length unvisited < fuel)%nat ->
    last route = Some cur ->
    exists cur' ext,
      Opt.tsp_loop distance_matrix fuel cur route unvisited total
      = Some (Ok (cur', route ++ ext,
                  hops_from distance_matrix total cur ext))
      /\ ext ≡ₚ unvisited
      /\ last (cur :: ext) = Some cur'
      /\ (DistOrder D -> nearest_first distance_matrix cur ext).
Proof.
  induction fuel as [|fuel IH];
    intros cur route unvisited total Hnd Hall Hcur Hfuel Hlast; [lia|].
  destruct unvisited as [|x rest].
  - exists cur, []. simpl. rewrite app_nil_r. auto.
  - destruct (min_by_distance_spec cur x rest Hcur Hall)
      as (m & Hm & Hin & Hmin).
    assert (Hmn : (m < n)%nat).
    { rewrite Forall_forall in Hall. apply Hall, Hin. }
    pose proof (remove_perm _ m Hnd Hin) as Hperm.
    destruct (IH m (route ++ [m]) (remove Nat.eq_dec m (x :: rest))
                (d_add total (dist cur m)))
      as (cur' & ext & Hloop & Hext & Hlast' & Hnear).
    + apply (NoDup_cons m). rewrite <- Hperm. exact Hnd.
    + rewrite Hperm in Hall. apply Forall_cons in Hall as [_ Hall].
      exact Hall.
    + exact Hmn.
    + apply Permutation_length in Hperm. simpl in Hperm, Hfuel |- *. lia.
    + apply last_snoc.
    + exists cur', (m :: ext).
      cbn [Opt.tsp_loop]. rewrite Hm, (hop_total cur m Hcur Hmn), Hloop.
      rewrite <- app_assoc. split; [reflexivity|].
      split; [rewrite Hperm, Hext; reflexivity|].
      split; [exact Hlast'|].
      intros Hord. split; [|exact (Hnear Hord)].
      intros y Hy. apply (Hmin Hord).
      rewrite Hperm. right. rewrite <- Hext. exact Hy.
Qed.

End TspProofs.

(** On a square matrix and from a location of the matrix, the tour
    returned starts and ends at [start], has one stop more than there are
    locations, and before its return visits every location exactly once. *)
Theorem tsp_tour_visits_all {D : Type} `{Dist D}
    (distance_matrix : list (list D)) (n start : nat) :
  square n distance_matrix -> (start < n)%nat ->
  exists tour total_distance,
    Opt.nearest_neighbor_tsp distance_matrix start
    = Some (Opt.TspReturn (start :: tour ++ [start]) total_distance)
    /\ start :: tour ≡ₚ seq 0 n
    /\ length (start :: tour ++ [start]) = S n.
Proof.
  intros Hsq Hstart. pose proof Hsq as [Hrows _].
  assert (Hin : start ∈ seq 0 n) by (apply elem_of_seq; lia).
  pose proof (remove_perm (seq 0 n) start (NoDup_seq 0 n) Hin) as Hperm.
  destruct (tsp_loop_spec distance_matrix n Hsq (S n) start [start]
              (remove Nat.eq_dec start (seq 0 n)) d_zero)
    as (cur' & ext & Hloop & Hext & Hlast & _).
  - apply (NoDup_cons start). rewrite <- Hperm. apply NoDup_seq.
  - assert (Hall : Forall (fun x => (x < n)%nat) (seq 0 n)).
    { apply Forall_forall. intros x Hx%elem_of_seq. lia. }
    rewrite Hperm in Hall. apply Forall_cons in Hall as [_ Hall]. exact Hall.
  - exact Hstart.
  - apply Permutation_length in Hperm. rewrite length_seq in Hperm.
    simpl in Hperm. lia.
  - reflexivity.
  - assert (Hcur' : (cur' < n)%nat).
    { assert (Hc : cur' ∈ start :: ext).
      { rewrite last_lookup in Hlast.
        eapply list_elem_of_lookup_2, Hlast. }
      rewrite Hext, <- Hperm in Hc. apply elem_of_seq in Hc. lia. }
    exists ext. eexists. unfold Opt.nearest_neighbor_tsp.
    rewrite Hrows. destruct (Nat.ltb_spec start n); [|lia].
    rewrite Hloop, (hop_total distance_matrix n Hsq cur' start Hcur' Hstart).
    split; [reflexivity|].
    split; [rewrite Hext, <- Hperm; reflexivity|].
    simpl. rewrite length_app. simpl.
    apply Permutation_length in Hext, Hperm.
    rewrite length_seq in Hperm. simpl in Hperm. lia.
Qed.

Lemma tsp_tour_visits_all_witness :
  exists tour total_distance,
    Opt.nearest_neighbor_tsp example_matrix 1
    = Some (Opt.TspReturn (1%nat :: tour ++ [1%nat]) total_distance)
    /\ 1%nat :: tour ≡ₚ seq 0 3
    /\ length (1%nat :: tour ++ [1%nat]) = 4%nat.
Proof.
  apply (tsp_tour_visits_all (D := Z) example_matrix 3 1).
  - split; [reflexivity | repeat constructor].
  - lia.
Defined.

(** The total returned is the length of the tour in the matrix, and every
    stop of the tour is a nearest one among those not visited before it. *)
Theorem tsp_tour_is_greedy {D : Type} `{DistOrder D}
    (distance_matrix : list (list D)) (n start : nat)
    (route : list nat) (total_distance : D) :
  square n distance_matrix ->
  Opt.nearest_neighbor_tsp distance_matrix start
  = Some (Opt.TspReturn route total_distance) ->
  total_distance = route_length distance_matrix route
  /\ exists tour, route = start :: tour ++ [start]
                  /\ nearest_first distance_matrix start tour.
Proof.
  intros Hsq. pose proof Hsq as [Hrows _].
  unfold Opt.nearest_neighbor_tsp. rewrite Hrows.
  destruct (Nat.ltb_spec start n) as [Hstart|]; [|discriminate].
  assert (Hin : start ∈ seq 0 n) by (apply elem_of_seq; lia).
  pose proof (remove_perm (seq 0 n) start (NoDup_seq 0 n) Hin) as Hperm.
  destruct (tsp_loop_spec distance_matrix n Hsq (S n) start [start]
              (remove Nat.eq_dec start (seq 0 n)) d_zero)
    as (cur' & ext & Hloop & Hext & Hlast & Hnear).
  - apply (NoDup_cons start). rewrite <- Hperm. apply NoDup_seq.
  - assert (Hall : Forall (fun x => (x < n)%nat) (seq 0 n)).
    { apply Forall_forall. intros x Hx%elem_of_seq. lia. }
    rewrite Hperm in Hall. apply Forall_cons in Hall as [_ Hall]. exact Hall.
  - exact Hstart.
  - apply Permutation_length in Hperm. rewrite length_seq in Hperm.
    simpl in Hperm. lia.
  - reflexivity.
  - rewrite Hloop.
    destruct (Opt.hop distance_matrix cur' start) as [d|e] eqn:Hhop;
      [|discriminate].
    intros [= <- <-]. apply hop_cell in Hhop as <-. split.
    + simpl. symmetry. apply hops_from_snoc. exact Hlast.
    + exists ext. split; [reflexivity|]. apply Hnear. assumption.
Qed.

Lemma tsp_tour_is_greedy_witness :
  25257 = route_length example_matrix [1; 0; 2; 1]%nat
  /\ exists tour, [1; 0; 2; 1]%nat = 1%nat :: tour ++ [1%nat]
                  /\ nearest_first example_matrix 1 tour.
Proof.
  apply (tsp_tour_is_greedy (D := Z) example_matrix 3 1 [1; 0; 2; 1]%nat 25257).
  - split; [reflexivity | repeat constructor].
  - reflexivity.
Defined.

(** A start that is no location of the matrix, in particular any start on
    an empty matrix, ends in the [KeyError] of [unvisited.remove]. *)
Lemma tsp_unknown_start {D : Type} `{Dist D}
    (distance_matrix : list (list D)) (start : nat) :
  (length distance_matrix <= start)%nat ->
  Opt.nearest_neighbor_tsp distance_matrix start
  = Some (Opt.TspKeyError start).
Proof.
  intros Hstart. unfold Opt.nearest_neighbor_tsp.
  destruct (Nat.ltb_spec start (length distance_matrix)); [lia | reflexivity].
Qed.

Lemma tsp_unknown_start_witness :
  Opt.nearest_neighbor_tsp example_matrix 3 = Some (Opt.TspKeyError 3).
Proof.
  apply (tsp_unknown_start (D := Z) example_matrix 3). simpl. lia.
Defined.

(** ** More on the distance oracle *)

Section OracleRange.
Local Open Scope R_scope.

Lemma atan2_quadrant (y x : R) :
  0 <= y -> 0 <= x -> 0 <= Oracle.atan2 y x <= PI / 2.
Proof.
  intros Hy Hx. unfold Oracle.atan2.
  pose proof PI_RGT_0 as Hpi.
  destruct (Rlt_dec 0 x) as [Hpos|Hnpos].
  - assert (Hq : 0 <= y / x).
    { apply Rmult_le_pos; [exact Hy|].
      left. apply Rinv_0_lt_compat, Hpos. }
    pose proof (atan_bound (y / x)) as [_ Hup].
    split; [|lra].
    destruct Hq as [Hq|Hq].
    + left. rewrite <- atan_0. apply atan_increasing, Hq.
    + rewrite <- Hq, atan_0. lra.
  - destruct (Rlt_dec x 0) as [Hneg|_]; [lra|].
    destruct (Rlt_dec 0 y) as [_|_]; [lra|].
    destruct (Rlt_dec y 0) as [Hneg|_]; lra.
Qed.

Lemma haversine_arc_range (lat1 lon1 lat2 lon2 : R) :
  0 <= Oracle.atan2 (sqrt (Oracle.haversine_a lat1 lon1 lat2 lon2))
                    (sqrt (1 - Oracle.haversine_a lat1 lon1 lat2 lon2))
    <= PI / 2.
Proof. apply atan2_quadrant; apply sqrt_pos. Qed.

Lemma haversine_distance_nonneg (lat1 lon1 lat2 lon2 : R) :
  0 <= Oracle.haversine_distance lat1 lon1 lat2 lon2.
Proof.
  unfold Oracle.haversine_distance.
  pose proof (haversine_arc_range lat1 lon1 lat2 lon2) as [Hlo _]. nra.
Qed.

(** The haversine distance is never negative and never more than half the
    circumference of the sphere. *)
Theorem haversine_distance_range (lat1 lon1 lat2 lon2 : R) :
  0 <= Oracle.haversine_distance lat1 lon1 lat2 lon2 <= 6371 * PI.
Proof.
  split; [apply haversine_distance_nonneg|].
  unfold Oracle.haversine_distance.
  pose proof (haversine_arc_range lat1 lon1 lat2 lon2) as [_ Hhi]. nra.
Qed.

End OracleRange.

Lemma nth_map_lower (l : list string) (i : nat) :
  nth i (map lower l) "" = lower (nth i l "").
Proof. apply (map_nth lower l "" i). Qed.

(** Both builders return a table with as many rows and columns as there
    are locations, and no entry of it is negative. *)
Theorem distance_matrix_shape (locations : list string) (i j : nat) :
  (i < length locations)%nat -> (j < length locations)%nat ->
  square (length locations) (App.create_distance_matrix locations)
  /\ square (length locations) (Opt.create_distance_matrix locations)
  /\ (0 <= cell (App.create_distance_matrix locations) i j)%R
  /\ (0 <= cell (Opt.create_distance_matrix locations) i j)%R.
Proof.
  intros Hi Hj.
  split; [apply App_create_distance_matrix_square|].
  split; [apply Opt_create_distance_matrix_square|].
  rewrite App_create_distance_matrix_cell, Opt_create_distance_matrix_cell
    by assumption.
  destruct (i =? j)%nat; [split; lra|].
  split.
  - unfold App.entry. apply round2_nonneg, haversine_distance_nonneg.
  - unfold Opt.entry.
    destruct (Opt.PUNJAB_CITIES !! _) as [c1|]; [|lra].
    destruct (Opt.PUNJAB_CITIES !! _) as [c2|]; [|lra].
    apply round2_nonneg, haversine_distance_nonneg.
Qed.

Lemma distance_matrix_shape_witness :
  (0 <= cell (App.create_distance_matrix example_locations) 1 2)%R.
Proof.
  refine (proj1 (proj2 (proj2 (distance_matrix_shape example_locations 1 2
                                 _ _)))).
  - simpl. lia.
  - simpl. lia.
Defined.

(** In [app.py] two identifiers that resolve to the same coordinate are at
    distance 0: a known city written twice, ["depot"] and ["ludhiana"], and
    any two identifiers that are not in the table. *)
Theorem same_coordinate_zero_distance (locations : list string) (i j : nat) :
  (i < length locations)%nat -> (j < length locations)%nat ->
  App.resolve (lower (nth i locations ""))
  = App.resolve (lower (nth j locations "")) ->
  cell (App.create_distance_matrix locations) i j = 0%R.
Proof.
  intros Hi Hj Hsame.
  rewrite App_create_distance_matrix_cell by assumption.
  destruct (i =? j)%nat; [reflexivity|].
  unfold App.entry. rewrite Hsame, haversine_distance_same. apply round2_0.
Qed.

Lemma same_coordinate_zero_distance_witness :
  cell (App.create_distance_matrix ["depot"; "Nowhere"; "LUDHIANA"]) 1 2
  = 0%R.
Proof.
  apply same_coordinate_zero_distance.
  - simpl. lia.
  - simpl. lia.
  - vm_compute. reflexivity.
Defined.

(** Identifiers count up to letter case: lists of identifiers that are
    equal once lowercased give the same matrix, in both builders. *)
Theorem distance_matrix_case_insensitive (l1 l2 : list string) :
  map lower l1 = map lower l2 ->
  App.create_distance_matrix l1 = App.create_distance_matrix l2
  /\ Opt.create_distance_matrix l1 = Opt.create_distance_matrix l2.
Proof.
  intros Hlower.
  assert (Hlen : length l1 = length l2).
  { rewrite <- (length_map lower l1), Hlower. apply length_map. }
  assert (Hnth : forall i, lower (nth i l1 "") = lower (nth i l2 "")).
  { intros i. rewrite <- !nth_map_lower, Hlower. reflexivity. }
  unfold App.create_distance_matrix, Opt.create_distance_matrix.
  rewrite Hlen. split.
  - apply map_ext. intros i. apply map_ext. intros j.
    unfold App.entry. rewrite !Hnth. reflexivity.
  - apply map_ext. intros i. apply map_ext. intros j.
    unfold Opt.entry. rewrite !Hnth. reflexivity.
Qed.

Lemma distance_matrix_case_insensitive_witness :
  App.create_distance_matrix ["Depot"; "JALANDHAR"]
  = App.create_distance_matrix ["depot"; "Jalandhar"].
Proof.
  apply (distance_matrix_case_insensitive ["Depot"; "JALANDHAR"]
                                          ["depot"; "Jalandhar"]).
  vm_compute. reflexivity.
Defined.

(** ** The distance, the names and the number of a route *)

Lemma route_length_snoc {D : Type} `{Dist D} (m : list (list D))
    (stops : list nat) (cur x : nat) :
  last stops = Some cur ->
  route_length m (stops ++ [x]) = d_add (route_length m stops) (cell m cur x).
Proof.
  destruct stops as [|s rest]; [discriminate|]. intros Hlast.
  simpl. apply hops_from_snoc. exact Hlast.
Qed.

Section Accounting.
Context {D : Type} `{Dist D}.
Variable distance_matrix : list (list D).
Variable cities : list string.
Variable n : nat.
Variable demands : list Z.
Variable num_vehicles : Z.
Variable capacity : Z.

Local Abbreviation len := (route_length distance_matrix).

(** *** [greedy_route_optimization] *)

Lemma App_return_to_depot_distance (r r' : App.route_t D) :
  App.return_to_depot distance_matrix r = Ok r' ->
  App.distance r = len (App.stops r) ->
  App.distance r' = len (App.stops r').
Proof.
  unfold App.return_to_depot.
  intros (prev & Hprev & Hrest)%bind_Ok Hdist.
  apply bind_Ok in Hrest as (row & Hrow%subscript_Ok & Hrest).
  apply bind_Ok in Hrest as (back & Hback%subscript_Ok & [= <-]). simpl.
  destruct (last (App.stops r)) as [x|] eqn:Hlast.
  - rewrite (subscript_neg_2_snoc _ x 0%nat Hlast) in Hprev.
    injection Hprev as <-.
    rewrite (route_length_snoc _ _ x 0%nat Hlast), Hdist.
    f_equal. symmetry. eapply cell_lookup; eauto.
  - apply last_None in Hlast. rewrite Hlast in Hprev. discriminate.
Qed.

Lemma App_body_distance (s s' : App.state D) (k : ctl) :
  Forall (fun r => App.distance r = len (App.stops r)) (App.routes s) ->
  App.body distance_matrix n demands num_vehicles capacity s = Ok (k, s') ->
  Forall (fun r => App.distance r = len (App.stops r)) (App.routes s').
Proof.
  intros Hall Hbody.
  pose proof Hbody as (r & cur & best & Hr & Hcur & Hbest & Hrest)%App_body_step.
  assert (Hdist : App.distance r = len (App.stops r)).
  { rewrite Forall_lookup in Hall. exact (Hall _ _ Hr). }
  apply find_best_spec in Hbest.
  destruct best as [[b d]|].
  - destruct Hrest as (demand & _ & _ & _ & ->). simpl.
    destruct Hbest as (_ & -> & _).
    apply Forall_insert; [exact Hall|]. simpl.
    rewrite (route_length_snoc _ _ cur b Hcur), Hdist. reflexivity.
  - destruct Hrest as (r' & Hr' & -> & _). simpl.
    apply Forall_insert; [exact Hall|].
    eapply App_return_to_depot_distance; eauto.
Qed.

Lemma App_optimize_distance (fuel : nat) (routes : list (App.route_t D)) :
  App.optimize distance_matrix n demands num_vehicles capacity fuel
  = Some (Ok routes) ->
  Forall (fun r => App.distance r = len (App.stops r)) routes.
Proof.
  unfold App.optimize, App.construction.
  destruct (App.initial n num_vehicles) as [s0|e] eqn:Hinit; [|discriminate].
  destruct (while _ _ fuel s0) as [[k [s_end|e]]|] eqn:Hw; try discriminate.
  intros [= Hres].
  assert (Hend : Forall (fun r => App.distance r = len (App.stops r))
                        (App.routes s_end)).
  { eapply (while_invariant _ _
              (fun s => Forall (fun r => App.distance r = len (App.stops r))
                               (App.routes s)));
      [| |exact Hw].
    - intros s k' s'. apply App_body_distance.
    - unfold App.initial in Hinit.
      apply bind_Ok in Hinit as (vis & _ & [= <-]). simpl.
      apply Forall_fmap, Forall_forall. simpl. auto. }
  apply for_each_Ok in Hres.
  apply Forall_lookup. intros j r' Hr'.
  destruct (Forall2_lookup_r _ _ _ _ _ Hres Hr') as (r & Hr & Hclose).
  rewrite Forall_lookup in Hend. specialize (Hend _ _ Hr).
  unfold App.close_route in Hclose.
  apply bind_Ok in Hclose as (x & _ & Hclose).
  destruct (_ && _).
  - eapply App_return_to_depot_distance; eauto.
  - injection Hclose as <-. exact Hend.
Qed.

(** *** [simple_vrp] *)

(** What the loop keeps true of the vehicle at index [k]. *)
Local Abbreviation kept k v :=
  (Opt.vehicle_id v = Z.of_nat k + 1
   /\ Opt.cities_ v = map (stop_name cities) (Opt.route v)
   /\ Opt.distance v = len (Opt.route v)).

Lemma Opt_return_if_away_kept (k : nat) (v v' : Opt.vehicle D) :
  Opt.return_if_away distance_matrix v = Ok v' -> kept k v -> kept k v'.
Proof.
  unfold Opt.return_if_away.
  intros (x & Hlast%subscript_neg_1 & Hrest)%bind_Ok (Hid & Hnames & Hdist).
  destruct (negb (x =? 0)%nat); [|injection Hrest as <-; auto].
  unfold Opt.return_to_depot in Hrest.
  apply bind_Ok in Hrest as (prev & Hprev & Hrest).
  apply bind_Ok in Hrest as (row & Hrow%subscript_Ok & Hrest).
  apply bind_Ok in Hrest as (back & Hback%subscript_Ok & [= <-]). simpl.
  rewrite (subscript_neg_2_snoc _ x 0%nat Hlast) in Hprev.
  injection Hprev as <-.
  split; [exact Hid|]. split.
  - rewrite map_app, Hnames. reflexivity.
  - rewrite (route_length_snoc _ _ x 0%nat Hlast), Hdist.
    f_equal. symmetry. eapply cell_lookup; eauto.
Qed.

Lemma Opt_body_kept (s s' : Opt.state D) (k : ctl) :
  (forall j v, Opt.vehicles s !! j = Some v -> kept j v) ->
  Opt.body distance_matrix cities n demands num_vehicles capacity s
  = Ok (k, s') ->
  forall j v, Opt.vehicles s' !! j = Some v -> kept j v.
Proof.
  intros Hall Hbody.
  pose proof Hbody as Hstep. apply Opt_body_step in Hstep
    as (v & cur & best & Hv & Hcur & Hbest & Hrest).
  pose proof (Hall _ _ Hv) as (Hid & Hnames & Hdist).
  assert (Hlt : (Opt.current_vehicle s < length (Opt.vehicles s))%nat)
    by (eapply lookup_lt_Some, Hv).
  unfold Opt.body in Hbody. rewrite (proj2 (subscript_Ok _ _ _) Hv) in Hbody.
  simpl in Hbody. rewrite (proj2 (subscript_neg_1 _ _) Hcur) in Hbody.
  simpl in Hbody. rewrite Hbest in Hbody. simpl in Hbody.
  apply find_best_spec in Hbest.
  destruct best as [[b d]|].
  - apply bind_Ok in Hbody as (city & Hcity%subscript_Ok & Hbody).
    apply bind_Ok in Hbody as (demand & _ & Hbody).
    apply bind_Ok in Hbody as (visited' & _ & [= _ <-]). simpl.
    destruct Hbest as (((Hb & _) & _) & -> & _).
    intros j w Hw.
    destruct (decide (j = Opt.current_vehicle s)) as [->|Hne].
    + rewrite list_lookup_insert_eq in Hw by exact Hlt.
      injection Hw as <-. simpl. split; [exact Hid|]. split.
      * rewrite map_app, Hnames. simpl. f_equal. f_equal.
        unfold stop_name. destruct (Nat.eqb_spec b 0); [lia|].
        symmetry. apply nth_lookup_Some with (d := ""). exact Hcity.
      * rewrite (route_length_snoc _ _ cur b Hcur), Hdist. reflexivity.
    + rewrite list_lookup_insert_ne in Hw by auto. exact (Hall _ _ Hw).
  - destruct Hrest as (v' & Hv' & -> & _). simpl.
    intros j w Hw.
    destruct (decide (j = Opt.current_vehicle s)) as [->|Hne].
    + rewrite list_lookup_insert_eq in Hw by exact Hlt.
      injection Hw as <-.
      eapply Opt_return_if_away_kept; eauto.
    + rewrite list_lookup_insert_ne in Hw by auto. exact (Hall _ _ Hw).
Qed.

Lemma Opt_solve_kept (fuel : nat) (r : Opt.vrp_result D) :
  Opt.solve distance_matrix cities n demands num_vehicles capacity fuel
  = Some (Ok r) ->
  forall j v, Opt.res_vehicles r !! j = Some v ->
    Opt.vehicle_id v = Z.of_nat j + 1
    /\ Opt.cities_ v = map (stop_name cities) (Opt.route v)
    /\ Opt.distance v = d_round2 (len (Opt.route v)).
Proof.
  unfold Opt.solve, Opt.construction.
  destruct (Opt.initial n num_vehicles) as [s0|e] eqn:Hinit; [|discriminate].
  destruct (while _ _ fuel s0) as [[k [s_end|e]]|] eqn:Hw; try discriminate.
  intros [= Hres]. apply bind_Ok in Hres as (vs & Hvs & [= <-]). simpl.
  assert (Hend : forall j v, Opt.vehicles s_end !! j = Some v -> kept j v).
  { eapply (while_invariant _ _
              (fun s => forall j v, Opt.vehicles s !! j = Some v -> kept j v));
      [| |exact Hw].
    - intros s k' s'. apply Opt_body_kept.
    - unfold Opt.initial in Hinit.
      apply bind_Ok in Hinit as (vis & _ & [= <-]). simpl.
      intros j v Hv. apply list_lookup_fmap_Some in Hv as (i & -> & Hi).
      apply lookup_seq in Hi as [-> _]. simpl. auto. }
  apply for_each_Ok in Hvs.
  intros j v' Hv'.
  destruct (Forall2_lookup_r _ _ _ _ _ Hvs Hv') as (v & Hv & Hclose).
  unfold Opt.close_vehicle in Hclose.
  apply bind_Ok in Hclose as (w & Hw' & [= <-]). simpl.
  destruct (Opt_return_if_away_kept j v w Hw' (Hend _ _ Hv))
    as (Hid & Hnames & Hdist).
  rewrite Hdist. auto.
Qed.

End Accounting.

(** On a valid input the distance of every route returned is the length
    of the route in the matrix: the hops between its consecutive stops,
    the return to the depot included; [simple_vrp] rounds it to 2 decimal
    places. *)
Theorem route_distance_is_route_length {D : Type} `{Dist D}
    (create_distance_matrix : list string -> list (list D))
    (locations : list string) (demands : list Z)
    (num_vehicles capacity : Z) :
  valid_input (create_distance_matrix locations) locations demands
              num_vehicles ->
  (exists r,
      Opt.simple_vrp_over create_distance_matrix locations demands
                          num_vehicles capacity = Some (Ok r)
      /\ Forall (fun v => Opt.distance v
                          = d_round2 (route_length
                                        (create_distance_matrix locations)
                                        (Opt.route v)))
                (Opt.res_vehicles r))
  /\ (exists routes,
      App.greedy_route_optimization_over create_distance_matrix locations
                                         demands num_vehicles capacity
      = Some (Ok routes)
      /\ Forall (fun r => App.distance r
                          = route_length (create_distance_matrix locations)
                                         (App.stops r))
                routes).
Proof.
  intros Hvalid. split.
  - destruct (Opt_simple_vrp_result create_distance_matrix locations demands
                num_vehicles capacity Hvalid)
      as (k & s_end & r & _ & Hres & _).
    exists r. split; [exact Hres|].
    unfold Opt.simple_vrp_over in Hres.
    destruct (negb _); [discriminate|].
    destruct (subscript demands 0) as [d|e]; [|discriminate].
    destruct (negb _); [discriminate|].
    apply Forall_lookup. intros j v Hv.
    apply (Opt_solve_kept _ _ _ _ _ _ _ _ Hres j v Hv).
  - destruct (App_greedy_result create_distance_matrix locations demands
                num_vehicles capacity Hvalid)
      as (k & s_end & routes & _ & Hres & _).
    exists routes. split; [exact Hres|].
    eapply App_optimize_distance. exact Hres.
Qed.

Lemma route_distance_is_route_length_witness :
  exists routes,
    App.greedy_route_optimization_over example_builder example_locations
                                       example_demands 3 1000
    = Some (Ok routes)
    /\ Forall (fun r => App.distance r
                        = route_length example_matrix (App.stops r))
              routes.
Proof.
  exact (proj2 (route_distance_is_route_length (D := Z) example_builder
                  example_locations example_demands 3 1000
                  (example_valid 3 eq_refl))).
Defined.

(** On a valid input [simple_vrp] returns the vehicles numbered 1, 2, ...
    in order, and the ['cities'] list of each names the stops of its
    ['route'] one for one: ['Depot'] for the depot and the caller's name
    for any other location. *)
Theorem vehicle_numbers_and_names {D : Type} `{Dist D}
    (create_distance_matrix : list string -> list (list D))
    (cities : list string) (demands : list Z) (num_vehicles capacity : Z) :
  valid_input (create_distance_matrix cities) cities demands num_vehicles ->
  exists r,
    Opt.simple_vrp_over create_distance_matrix cities demands num_vehicles
                        capacity = Some (Ok r)
    /\ map Opt.vehicle_id (Opt.res_vehicles r)
       = map (fun k => Z.of_nat k + 1) (seq 0 (Z.to_nat num_vehicles))
    /\ Forall (fun v => Opt.cities_ v = map (stop_name cities) (Opt.route v))
              (Opt.res_vehicles r).
Proof.
  intros Hvalid.
  destruct (Opt_simple_vrp_result create_distance_matrix cities demands
              num_vehicles capacity Hvalid)
    as (k & s_end & r & _ & Hres & _ & Hok).
  exists r. split; [exact Hres|].
  destruct Hok as (_ & _ & Hlen & _). rewrite length_map in Hlen.
  unfold Opt.simple_vrp_over in Hres.
  destruct (negb _); [discriminate|].
  destruct (subscript demands 0) as [d|e]; [|discriminate].
  destruct (negb _); [discriminate|].
  pose proof (Opt_solve_kept _ _ _ _ _ _ _ _ Hres) as Hkept.
  split.
  - apply list_eq. intros j. rewrite !list_lookup_fmap.
    destruct (Opt.res_vehicles r !! j) as [v|] eqn:Hv; simpl.
    + destruct (Hkept j v Hv) as (-> & _).
      rewrite lookup_seq_lt; [reflexivity|].
      apply lookup_lt_Some in Hv. lia.
    + apply lookup_ge_None in Hv.
      rewrite lookup_seq_ge by lia. reflexivity.
  - apply Forall_lookup. intros j v Hv. apply (Hkept j v Hv).
Qed.

Lemma vehicle_numbers_and_names_witness :
  exists r,
    Opt.simple_vrp_over example_builder example_locations example_demands
                        3 1000 = Some (Ok r)
    /\ map Opt.vehicle_id (Opt.res_vehicles r)
       = map (fun k => Z.of_nat k + 1) (seq 0 (Z.to_nat 3))
    /\ Forall (fun v => Opt.cities_ v
                        = map (stop_name example_locations) (Opt.route v))
              (Opt.res_vehicles r).
Proof.
  exact (vehicle_numbers_and_names (D := Z) example_builder example_locations
           example_demands 3 1000 (example_valid 3 eq_refl)).
Defined.

(** ** Demands that are too large, and demands that all fit *)

Lemma sum_Z_elem (l : list Z) (x : Z) :
  Forall (fun d => 0 <= d) l -> x ∈ l -> x <= sum_Z l.
Proof.
  induction 1 as [|d l Hd Hl IH]; intros Hx; [inversion Hx|].
  assert (Hsum : 0 <= sum_Z l).
  { clear IH Hx. induction Hl as [|e l He _ IH]; unfold sum_Z in *; simpl; lia. }
  unfold sum_Z in *. simpl.
  apply elem_of_cons in Hx as [-> | Hx]; [lia|].
  specialize (IH Hx). lia.
Qed.

Lemma nth_nonneg (demands : list Z) (i : nat) :
  Forall (fun d => 0 <= d) demands -> 0 <= nth i demands 0.
Proof.
  intros Hall. destruct (demands !! i) as [d|] eqn:Hd.
  - rewrite (nth_lookup_Some _ _ _ _ Hd). eapply Forall_lookup_1; eauto.
  - rewrite nth_lookup, Hd. simpl. lia.
Qed.

(** A stop of a route that is not the depot demands no more than the
    route carries. *)
Lemma stop_demand_le_load (demands : list Z) (stops : list nat) (i : nat) :
  Forall (fun d => 0 <= d) demands ->
  i ∈ stops -> i <> 0%nat ->
  nth i demands 0 <= route_demand demands stops.
Proof.
  intros Hall Hi Hne. unfold route_demand. apply sum_Z_elem.
  - apply Forall_fmap, Forall_forall. intros j _. simpl.
    apply nth_nonneg, Hall.
  - apply list_elem_of_fmap. exists i. split; [reflexivity|].
    unfold customers. apply list_elem_of_filter. auto.
Qed.

Lemma oversized_not_in_routes (n : nat) (demands : list Z)
    (num_vehicles capacity : Z) (vis : list bool)
    (routes : list (list nat * Z)) (i : nat) (d : Z) :
  routes_ok n demands num_vehicles capacity vis routes ->
  0 <= capacity -> Forall (fun d => 0 <= d) demands ->
  demands !! i = Some d -> capacity < d -> i <> 0%nat ->
  Forall (fun stops => i ∉ stops) (map fst routes).
Proof.
  intros (_ & _ & _ & Hall & _) Hcap Hnonneg Hd Hbig Hne.
  apply Forall_fmap. eapply Forall_impl; [exact Hall|]. simpl.
  intros r (_ & Hload & Hle) Hin.
  pose proof (stop_demand_le_load demands r.1 i Hnonneg Hin Hne) as Hle'.
  rewrite (nth_lookup_Some _ _ _ _ Hd) in Hle'.
  specialize (Hle Hcap). lia.
Qed.

(** On a valid input with demands and a capacity that are not negative, a
    location whose demand alone is more than the capacity is a stop of no
    route, in either builder. *)
Theorem oversized_location_never_served {D : Type} `{Dist D}
    (create_distance_matrix : list string -> list (list D))
    (locations : list string) (demands : list Z)
    (num_vehicles capacity : Z) (i : nat) (d : Z) :
  valid_input (create_distance_matrix locations) locations demands
              num_vehicles ->
  0 <= capacity -> Forall (fun d => 0 <= d) demands ->
  demands !! i = Some d -> capacity < d ->
  (exists r,
      Opt.simple_vrp_over create_distance_matrix locations demands
                          num_vehicles capacity = Some (Ok r)
      /\ Forall (fun v => i ∉ Opt.route v) (Opt.res_vehicles r))
  /\ (exists routes,
      App.greedy_route_optimization_over create_distance_matrix locations
                                         demands num_vehicles capacity
      = Some (Ok routes)
      /\ Forall (fun r => i ∉ App.stops r) routes).
Proof.
  intros Hvalid Hcap Hnonneg Hd Hbig.
  assert (Hne : i <> 0%nat).
  { intros ->. destruct Hvalid as (_ & Hdepot & _).
    rewrite Hdepot in Hd. injection Hd as <-. lia. }
  split.
  - destruct (Opt_simple_vrp_result create_distance_matrix locations demands
                num_vehicles capacity Hvalid)
      as (k & s_end & r & _ & Hres & _ & Hok).
    exists r. split; [exact Hres|].
    pose proof (oversized_not_in_routes _ _ _ _ _ _ i d Hok Hcap Hnonneg
                  Hd Hbig Hne) as Hno.
    rewrite map_map in Hno. rewrite Forall_forall in Hno.
    apply Forall_forall. intros v Hv. apply Hno.
    apply list_elem_of_fmap. exists v. auto.
  - destruct (App_greedy_result create_distance_matrix locations demands
                num_vehicles capacity Hvalid)
      as (k & s_end & routes & _ & Hres & _ & Hok).
    exists routes. split; [exact Hres|].
    pose proof (oversized_not_in_routes _ _ _ _ _ _ i d Hok Hcap Hnonneg
                  Hd Hbig Hne) as Hno.
    rewrite map_map in Hno. rewrite Forall_forall in Hno.
    apply Forall_forall. intros v Hv. apply Hno.
    apply list_elem_of_fmap. exists v. auto.
Qed.

Lemma oversized_location_never_served_witness :
  exists routes,
    App.greedy_route_optimization_over example_builder example_locations
                                       example_demands 3 270
    = Some (Ok routes)
    /\ Forall (fun r => 2%nat ∉ App.stops r) routes.
Proof.
  refine (proj2 (oversized_location_never_served (D := Z) example_builder
                   example_locations example_demands 3 270 2 300
                   (example_valid 3 eq_refl) _ _ _ _)).
  - lia.
  - repeat constructor; lia.
  - reflexivity.
  - lia.
Defined.

Lemma sum_Z_perm (l k : list Z) : l ≡ₚ k -> sum_Z l = sum_Z k.
Proof.
  unfold sum_Z. induction 1; simpl; lia.
Qed.

Lemma sum_Z_nonneg (l : list Z) : Forall (fun d => 0 <= d) l -> 0 <= sum_Z l.
Proof.
  unfold sum_Z. induction 1; simpl; lia.
Qed.

Lemma demands_by_index (demands : list Z) :
  map (fun i => nth i demands 0) (seq 0 (length demands)) = demands.
Proof.
  apply list_eq. intros i. rewrite list_lookup_fmap.
  destruct (demands !! i) as [d|] eqn:Hd.
  - rewrite lookup_seq_lt by (eapply lookup_lt_Some, Hd). simpl.
    rewrite (nth_lookup_Some _ _ _ _ Hd). reflexivity.
  - apply lookup_ge_None in Hd. rewrite lookup_seq_ge by lia. reflexivity.
Qed.

(** Distinct locations demand together no more than all of them. *)
Lemma partial_sum_le (demands : list Z) (l : list nat) :
  Forall (fun d => 0 <= d) demands ->
  NoDup l -> Forall (fun i => (i < length demands)%nat) l ->
  sum_Z (map (fun i => nth i demands 0) l) <= sum_Z demands.
Proof.
  intros Hnonneg Hnd Hall.
  assert (Hsub : l ⊆+ seq 0 (length demands)).
  { apply NoDup_submseteq; [exact Hnd|]. intros x Hx.
    apply elem_of_seq. rewrite Forall_forall in Hall.
    specialize (Hall x Hx). lia. }
  apply submseteq_Permutation in Hsub as [k Hk].
  assert (Htotal : sum_Z (map (fun i => nth i demands 0)
                               (seq 0 (length demands))) = sum_Z demands)
    by (rewrite demands_by_index; reflexivity).
  rewrite <- Htotal.
  rewrite (sum_Z_perm _ _ (Permutation_map _ Hk)).
  rewrite map_app, sum_Z_app.
  assert (0 <= sum_Z (map (fun i => nth i demands 0) k)).
  { apply sum_Z_nonneg, Forall_fmap, Forall_forall. intros i _. simpl.
    apply nth_nonneg, Hnonneg. }
  lia.
Qed.

Lemma some_unvisited (vis : list bool) :
  forallb (fun b : bool => b) vis = false ->
  exists j, vis !! j = Some false.
Proof.
  induction vis as [|b vis IH]; [discriminate|]. simpl.
  destruct b; simpl.
  - intros Hv. destruct (IH Hv) as [j Hj]. exists (S j). exact Hj.
  - intros _. exists 0%nat. reflexivity.
Qed.

Lemma while_invariant_cond {St : Type} (cond : St -> bool)
    (body : St -> result (ctl * St)) (P : St -> Prop) :
  (forall s k s', P s -> cond s = true -> body s = Ok (k, s') -> P s') ->
  forall fuel s k s_end,
    P s -> while cond body fuel s = Some (k, Ok s_end) -> P s_end.
Proof.
  intros Hstep. induction fuel as [|fuel IH]; intros s k s_end HP; simpl;
    [discriminate|].
  destruct (cond s) eqn:Hc; [|intros [= <- <-]; exact HP].
  destruct (body s) as [[[] s']|e] eqn:Hb; [| |discriminate].
  - destruct (while cond body fuel s') as [[k' r']|] eqn:Hw; [|discriminate].
    intros [= <- ->]. eapply IH; [|exact Hw]. eapply Hstep; eauto.
  - intros [= <- <-]. eapply Hstep; eauto.
Qed.

Section OneVehicle.
Variable n : nat.
Variable demands : list Z.
Variable num_vehicles : Z.
Variable capacity : Z.
Hypothesis Hlen : length demands = n.
Hypothesis Hnonneg : Forall (fun d => 0 <= d) demands.
Hypothesis Hfits : sum_Z demands <= capacity.

(** While a location is unvisited, one is feasible for the vehicle at the
    cursor. *)
Lemma some_feasible (v : view) (stops : list nat) (load : Z) :
  inv n demands num_vehicles capacity v ->
  forallb (fun b : bool => b) (v_visited v) = false ->
  v_routes v !! v_cursor v = Some (stops, load) ->
  exists j, feasible demands capacity (v_visited v) load n j.
Proof.
  intros (Hvis & Hdepot & _ & Hroutes & Hnodup & Hmem) Hunf Hr.
  destruct (some_unvisited _ Hunf) as [j Hj].
  assert (Hj0 : j <> 0%nat) by (intros ->; congruence).
  assert (Hjn : (j < n)%nat) by (apply lookup_lt_Some in Hj; lia).
  destruct (lookup_lt_is_Some_2 demands j) as [dj Hdj]; [lia|].
  exists j. split; [lia|]. split; [exact Hj|]. exists dj. split; [exact Hdj|].
  destruct (Hroutes _ _ Hr) as (mid & tail & _ & _ & _ & Hload & _).
  simpl in Hload.
  destruct (all_customers_split (v_routes v) (v_cursor v) (stops, load)
              (stops, load) Hr) as [Hsplit _].
  simpl in Hsplit.
  assert (Hin : forall c, c ∈ customers stops -> c ∈ all_customers (v_routes v)).
  { intros c Hc. rewrite Hsplit. rewrite !elem_of_app. auto. }
  assert (Hnd : NoDup (j :: customers stops)).
  { apply NoDup_cons. split.
    - intros Hc. apply Hin, Hmem in Hc as [_ Hc]. congruence.
    - rewrite Hsplit in Hnodup.
      apply NoDup_app in Hnodup as (_ & _ & Hnodup).
      apply NoDup_app in Hnodup as (Hnodup & _). exact Hnodup. }
  assert (Hall : Forall (fun i => (i < length demands)%nat)
                        (j :: customers stops)).
  { apply Forall_cons. split; [lia|]. apply Forall_forall.
    intros c Hc. apply Hin, Hmem in Hc as [_ Hc].
    apply lookup_lt_Some in Hc. lia. }
  pose proof (partial_sum_le demands _ Hnonneg Hnd Hall) as Hsum.
  simpl in Hsum. rewrite (nth_lookup_Some _ _ _ _ Hdj) in Hsum.
  unfold route_demand in Hload. unfold sum_Z in Hsum, Hload, Hfits.
  simpl in Hsum. lia.
Qed.

End OneVehicle.

Lemma first_route_serves_all (n : nat) (demands : list Z)
    (num_vehicles capacity : Z) (vis : list bool)
    (routes : list (list nat * Z)) :
  routes_ok n demands num_vehicles capacity vis routes ->
  forallb (fun b : bool => b) vis = true ->
  (forall k r, routes !! S k = Some r -> r.1 = [0%nat]) ->
  0 < num_vehicles ->
  exists first rest,
    map fst routes = first :: rest
    /\ customers first ≡ₚ seq 1 (n - 1)
    /\ Forall (fun stops => stops = [0%nat]) rest.
Proof.
  intros (Hvis & _ & Hlen & _ & Hnodup & Hmem) Hall Hidle Hnv.
  destruct routes as [|r0 routes]; [simpl in Hlen; lia|].
  exists r0.1, (map fst routes). split; [reflexivity|].
  assert (Hrest : Forall (fun stops => stops = [0%nat]) (map fst routes)).
  { apply Forall_fmap, Forall_lookup. intros k r Hr. exact (Hidle k r Hr). }
  assert (Hnone : served (map fst routes) = []).
  { clear -Hrest. induction Hrest as [|s l Hs _ IH]; [reflexivity|].
    subst s. unfold served in *. simpl. exact IH. }
  assert (Hserved : served (map fst (r0 :: routes)) = customers r0.1).
  { unfold served in *. simpl. rewrite Hnone. apply app_nil_r. }
  rewrite Hserved in Hnodup, Hmem.
  split; [|exact Hrest].
  apply NoDup_Permutation; [exact Hnodup | apply NoDup_seq|].
  intros i. rewrite Hmem, elem_of_seq. split.
  - intros [Hi _]. lia.
  - intros Hi. split; [lia|]. apply all_visited; [exact Hall | lia].
Qed.

Section OneVehicleRuns.
Context {D : Type} `{Dist D}.
Variable create_distance_matrix : list string -> list (list D).
Variable locations : list string.
Variable demands : list Z.
Variable num_vehicles : Z.
Variable capacity : Z.
Hypothesis Hvalid :
  valid_input (create_distance_matrix locations) locations demands num_vehicles.
Hypothesis Hnonneg : Forall (fun d => 0 <= d) demands.
Hypothesis Hfits : sum_Z demands <= capacity.

Local Abbreviation n := (length locations).
Local Abbreviation distance_matrix := (create_distance_matrix locations).
Local Abbreviation invariant := (inv n demands num_vehicles capacity).

Lemma Opt_body_stays (s s' : Opt.state D) (k : ctl) :
  invariant (Opt_view s) /\ Opt.current_vehicle s = 0%nat ->
  Opt.unfinished s = true ->
  Opt.body distance_matrix locations n demands num_vehicles capacity s
  = Ok (k, s') ->
  invariant (Opt_view s') /\ Opt.current_vehicle s' = 0%nat.
Proof.
  intros [Hinv Hcur] Hunf Hbody.
  split; [eapply turn_inv; [eapply Opt_body_turn, Hbody | exact Hinv]|].
  apply Opt_body_step in Hbody
    as (v & cur & best & Hv & _ & Hbest & Hrest).
  apply find_best_spec in Hbest.
  destruct best as [[b d]|].
  - destruct Hrest as (demand & city & _ & _ & _ & ->). exact Hcur.
  - destruct Hvalid as (Hlen & _).
    destruct (some_feasible n demands num_vehicles capacity
                (eq_sym Hlen) Hnonneg Hfits (Opt_view s)
                (Opt.route v) (Opt.load v) Hinv) as [j Hj].
    + unfold Opt.unfinished in Hunf. apply negb_true_iff in Hunf. exact Hunf.
    + simpl. rewrite list_lookup_fmap, Hv. reflexivity.
    + destruct (Hbest j Hj).
Qed.

Lemma App_body_stays (s s' : App.state D) (k : ctl) :
  invariant (App_view s) /\ App.current_vehicle s = 0%nat ->
  App.unfinished s = true ->
  App.body distance_matrix n demands num_vehicles capacity s = Ok (k, s') ->
  invariant (App_view s') /\ App.current_vehicle s' = 0%nat.
Proof.
  intros [Hinv Hcur] Hunf Hbody.
  split; [eapply turn_inv; [eapply App_body_turn, Hbody | exact Hinv]|].
  apply App_body_step in Hbody
    as (r & cur & best & Hr & _ & Hbest & Hrest).
  apply find_best_spec in Hbest.
  destruct best as [[b d]|].
  - destruct Hrest as (demand & _ & _ & _ & ->). exact Hcur.
  - destruct Hvalid as (Hlen & _).
    destruct (some_feasible n demands num_vehicles capacity
                (eq_sym Hlen) Hnonneg Hfits (App_view s)
                (App.stops r) (App.load r) Hinv) as [j Hj].
    + unfold App.unfinished in Hunf. apply negb_true_iff in Hunf. exact Hunf.
    + simpl. rewrite list_lookup_fmap, Hr. reflexivity.
    + destruct (Hbest j Hj).
Qed.

(** A vehicle after the cursor, once closed, is still at the depot. *)
Lemma idle_after_cursor (c k : nat) (stops : list nat) (load : Z) :
  route_ok n demands capacity c k (stops, load) -> (c < k)%nat ->
  stops = [0%nat].
Proof.
  intros (mid & tail & Hshape & _ & _ & _ & _ & Hopen & Hfresh) Hlt.
  simpl in Hshape. rewrite (Hopen ltac:(lia)), (Hfresh Hlt) in Hshape.
  exact Hshape.
Qed.

Lemma Opt_one_vehicle :
  exists r first rest,
    Opt.simple_vrp_over create_distance_matrix locations demands
                        num_vehicles capacity = Some (Ok r)
    /\ map Opt.route (Opt.res_vehicles r) = first :: rest
    /\ customers first ≡ₚ seq 1 (n - 1)
    /\ Forall (fun stops => stops = [0%nat]) rest.
Proof.
  pose proof (valid_nonempty _ _ _ _ Hvalid) as Hn.
  destruct (Opt_simple_vrp_result create_distance_matrix locations demands
              num_vehicles capacity Hvalid)
    as (k & s_end & r & Hrun & Hres & Hexit & Hok).
  pose proof Hvalid as (Hlen & Hdepot & Hnv & Hsq).
  (* the loop ends with the cursor on the first vehicle *)
  assert (Hend : invariant (Opt_view s_end) /\ Opt.current_vehicle s_end = 0%nat).
  { unfold Opt.construction in Hrun.
    destruct (Opt_initial n num_vehicles Hn) as (s0 & Hinit & Hview).
    rewrite Hinit in Hrun.
    eapply (while_invariant_cond _ _
              (fun s => invariant (Opt_view s)
                        /\ Opt.current_vehicle s = 0%nat));
      [| |exact Hrun].
    - intros s k' s'. apply Opt_body_stays.
    - split; [rewrite Hview; apply initial_inv, Hn|].
      change (v_cursor (Opt_view s0) = 0%nat). rewrite Hview. reflexivity. }
  destruct Hend as [Hinv Hcur].
  destruct Hexit as [Hdone | Hout]; [|rewrite Hcur in Hout; simpl in Hout; lia].
  (* what closing does *)
  assert (Hclose : Forall2 (fun v v' => Opt.close_vehicle distance_matrix v
                                        = Ok v')
                           (Opt.vehicles s_end) (Opt.res_vehicles r)).
  { unfold Opt.simple_vrp_over in Hres.
    rewrite Hlen, Nat.eqb_refl in Hres. simpl in Hres.
    rewrite (proj2 (subscript_Ok _ _ _) Hdepot) in Hres. simpl in Hres.
    unfold Opt.solve in Hres. rewrite <- Hlen, Hrun in Hres.
    injection Hres as Hres. apply bind_Ok in Hres as (vs & Hvs & [= <-]).
    simpl. apply for_each_Ok, Hvs. }
  destruct (first_route_serves_all n demands num_vehicles capacity
              (Opt.visited s_end)
              (map (fun v => (Opt.route v, Opt.load v)) (Opt.res_vehicles r)))
    as (first & rest & Hroutes & Hperm & Hrest); auto.
  - unfold Opt.unfinished in Hdone. apply negb_false_iff in Hdone. exact Hdone.
  - intros j p Hp. apply list_lookup_fmap_Some in Hp as (v' & -> & Hv').
    simpl.
    destruct (Forall2_lookup_r _ _ _ _ _ Hclose Hv') as (v & Hv & Hvv').
    destruct Hinv as (_ & _ & _ & Hroutes & _). simpl in Hroutes.
    assert (Hok' : route_ok n demands capacity (Opt.current_vehicle s_end)
                            (S j) (Opt.route v, Opt.load v)).
    { apply Hroutes. rewrite list_lookup_fmap, Hv. reflexivity. }
    destruct (Opt_close_vehicle_spec distance_matrix n demands capacity
                _ _ v v' Hok' Hvv') as (_ & _ & _ & Hidle).
    apply Hidle. eapply idle_after_cursor; [exact Hok' | lia].
  - exists r, first, rest. rewrite map_map in Hroutes. auto.
Qed.

Lemma App_one_vehicle :
  exists routes first rest,
    App.greedy_route_optimization_over create_distance_matrix locations
                                       demands num_vehicles capacity
    = Some (Ok routes)
    /\ map App.stops routes = first :: rest
    /\ customers first ≡ₚ seq 1 (n - 1)
    /\ Forall (fun stops => stops = [0%nat]) rest.
Proof.
  pose proof (valid_nonempty _ _ _ _ Hvalid) as Hn.
  destruct (App_greedy_result create_distance_matrix locations demands
              num_vehicles capacity Hvalid)
    as (k & s_end & routes & Hrun & Hres & Hexit & Hok).
  pose proof Hvalid as (Hlen & Hdepot & Hnv & Hsq).
  assert (Hend : invariant (App_view s_end) /\ App.current_vehicle s_end = 0%nat).
  { unfold App.construction in Hrun.
    destruct (App_initial n num_vehicles Hn) as (s0 & Hinit & Hview).
    rewrite Hinit in Hrun.
    eapply (while_invariant_cond _ _
              (fun s => invariant (App_view s)
                        /\ App.current_vehicle s = 0%nat));
      [| |exact Hrun].
    - intros s k' s'. apply App_body_stays.
    - split; [rewrite Hview; apply initial_inv, Hn|].
      change (v_cursor (App_view s0) = 0%nat). rewrite Hview. reflexivity. }
  destruct Hend as [Hinv Hcur].
  destruct Hexit as [Hdone | Hout]; [|rewrite Hcur in Hout; simpl in Hout; lia].
  assert (Hclose : Forall2 (fun r r' => App.close_route distance_matrix r
                                        = Ok r')
                           (App.routes s_end) routes).
  { unfold App.greedy_route_optimization_over, App.optimize in Hres.
    rewrite Hrun in Hres. injection Hres as Hres. apply for_each_Ok, Hres. }
  destruct (first_route_serves_all n demands num_vehicles capacity
              (App.visited s_end)
              (map (fun r => (App.stops r, App.load r)) routes))
    as (first & rest & Hroutes & Hperm & Hrest); auto.
  - unfold App.unfinished in Hdone. apply negb_false_iff in Hdone. exact Hdone.
  - intros j p Hp. apply list_lookup_fmap_Some in Hp as (r' & -> & Hr').
    simpl.
    destruct (Forall2_lookup_r _ _ _ _ _ Hclose Hr') as (r & Hr & Hrr').
    destruct Hinv as (_ & _ & _ & Hroutes & _). simpl in Hroutes.
    assert (Hok' : route_ok n demands capacity (App.current_vehicle s_end)
                            (S j) (App.stops r, App.load r)).
    { apply Hroutes. rewrite list_lookup_fmap, Hr. reflexivity. }
    destruct (App_close_route_spec distance_matrix n demands capacity
                _ _ r r' Hok' Hrr') as (_ & _ & _ & Hidle).
    assert (Hstops : App.stops r = [0%nat])
      by (eapply idle_after_cursor; [exact Hok' | lia]).
    rewrite (Hidle Hstops). exact Hstops.
  - exists routes, first, rest. rewrite map_map in Hroutes. auto.
Qed.

End OneVehicleRuns.

(** On a valid input whose demands are not negative and fit together in
    one vehicle, the first vehicle serves every location, each once, and
    every other vehicle stays at the depot with the route [[0]], in both
    builders. *)
Theorem one_vehicle_suffices {D : Type} `{Dist D}
    (create_distance_matrix : list string -> list (list D))
    (locations : list string) (demands : list Z)
    (num_vehicles capacity : Z) :
  valid_input (create_distance_matrix locations) locations demands
              num_vehicles ->
  Forall (fun d => 0 <= d) demands ->
  sum_Z demands <= capacity ->
  (exists r first rest,
      Opt.simple_vrp_over create_distance_matrix locations demands
                          num_vehicles capacity = Some (Ok r)
      /\ map Opt.route (Opt.res_vehicles r) = first :: rest
      /\ customers first ≡ₚ seq 1 (length locations - 1)
      /\ Forall (fun stops => stops = [0%nat]) rest)
  /\ (exists routes first rest,
      App.greedy_route_optimization_over create_distance_matrix locations
                                         demands num_vehicles capacity
      = Some (Ok routes)
      /\ map App.stops routes = first :: rest
      /\ customers first ≡ₚ seq 1 (length locations - 1)
      /\ Forall (fun stops => stops = [0%nat]) rest).
Proof.
  intros Hvalid Hnonneg Hfits. split.
  - apply Opt_one_vehicle; assumption.
  - apply App_one_vehicle; assumption.
Qed.

Lemma one_vehicle_suffices_witness :
  exists routes first rest,
    App.greedy_route_optimization_over example_builder example_locations
                                       example_demands 3 1000
    = Some (Ok routes)
    /\ map App.stops routes = first :: rest
    /\ customers first ≡ₚ seq 1 (length example_locations - 1)
    /\ Forall (fun stops => stops = [0%nat]) rest.
Proof.
  refine (proj2 (one_vehicle_suffices (D := Z) example_builder
                   example_locations example_demands 3 1000
                   (example_valid 3 eq_refl) _ _)).
  - repeat constructor; lia.
  - vm_compute. discriminate.
Defined.

(** ** The two builders side by side *)


Section SideBySide.
Context {D : Type} `{Dist D}.
Variable distance_matrix : list (list D).
Variable cities : list string.
Variable n : nat.
Variable demands : list Z.
Variable num_vehicles : Z.
Variable capacity : Z.

(** The same load and the same stops, but for a vehicle that
    [greedy_route_optimization] has sent from the depot to the depot. *)
Local Abbreviation alike v r :=
  (Opt.load v = App.load r
   /\ (Opt.route v = App.stops r
       \/ (Opt.route v = [0%nat] /\ App.stops r = [0%nat; 0%nat]))).

(** The states of the two loops after the same number of turns. *)
Local Abbreviation together so sa :=
  (inv n demands num_vehicles capacity (Opt_view so)
   /\ Opt.visited so = App.visited sa
   /\ Opt.current_vehicle so = App.current_vehicle sa
   /\ length (Opt.vehicles so) = length (App.routes sa)
   /\ forall k v r,
        Opt.vehicles so !! k = Some v -> App.routes sa !! k = Some r ->
        alike v r
        /\ (le (Opt.current_vehicle so) k -> Opt.route v = App.stops r)).





End SideBySide.


